(** * Play-by-play flow simulation of the factory editor

    A shallow embedding of [startPlayByPlaySimulation] and of its inner
    [animate] callback (src/components/factory/FactoryEditor.tsx), with the
    properties of the simulation engine stated and settled on it.

    Numbers.  The source computes with JavaScript numbers.  They are
    modelled by [num]: an exact rational, the two infinities, or NaN.  The
    special values follow the JavaScript rules the source depends on
    (division by zero, [0/0], [||] defaults, comparisons with NaN); finite
    arithmetic is exact (no rounding) and zero is unsigned.  A statement
    that the rounding of binary64 could falsify carries the hypothesis
    that keeps it out of reach of the rounding (a progress increment of at
    least [2^-52], a coordinate of magnitude at most [2^52], a capacity
    that is not negative); [progressUpdate64] is the progress update in
    binary64 itself. *)

From Stdlib Require Import QArith Qround Lqa Lia Floats.
From stdpp Require Import gmap strings list fin_maps fin_sets.

Local Open Scope string_scope.
Local Open Scope list_scope.

(** * The model *)

(** ** JavaScript numbers *)

Inductive num : Type :=
| Fin (q : Q)
| PInf
| NInf
| NaN.

Definition num_of_Z (z : Z) : num := Fin (inject_Z z).

(** The sign of a number that is not NaN: [Lt] negative, [Eq] zero, [Gt]
    positive. *)
Definition num_sign (a : num) : comparison :=
  match a with
  | Fin q => (q ?= 0)%Q
  | PInf => Gt
  | NInf => Lt
  | NaN => Eq
  end.

Definition inf_of_sign (c : comparison) : num :=
  match c with
  | Gt => PInf
  | Lt => NInf
  | Eq => NaN
  end.

Definition sign_mul (c d : comparison) : comparison :=
  match c, d with
  | Eq, _ | _, Eq => Eq
  | Gt, x => x
  | Lt, x => CompOpp x
  end.

(** [a + b] *)
Definition num_add (a b : num) : num :=
  match a, b with
  | NaN, _ | _, NaN => NaN
  | PInf, NInf | NInf, PInf => NaN
  | PInf, _ | _, PInf => PInf
  | NInf, _ | _, NInf => NInf
  | Fin x, Fin y => Fin (x + y)
  end.

(** [a - b] *)
Definition num_sub (a b : num) : num :=
  match a, b with
  | NaN, _ | _, NaN => NaN
  | PInf, PInf | NInf, NInf => NaN
  | PInf, _ | _, NInf => PInf
  | NInf, _ | _, PInf => NInf
  | Fin x, Fin y => Fin (x - y)
  end.

(** [a * b]: infinity times zero is NaN. *)
Definition num_mul (a b : num) : num :=
  match a, b with
  | NaN, _ | _, NaN => NaN
  | Fin x, Fin y => Fin (x * y)
  | _, _ => inf_of_sign (sign_mul (num_sign a) (num_sign b))
  end.

(** [a / b]: a non-zero number over zero is an infinity of its sign,
    [0/0] and infinity over infinity are NaN, a finite number over an
    infinity is zero. *)
Definition num_div (a b : num) : num :=
  match a, b with
  | NaN, _ | _, NaN => NaN
  | Fin x, Fin y =>
      match (y ?= 0)%Q with
      | Eq => inf_of_sign (x ?= 0)%Q
      | _ => Fin (x / y)
      end
  | Fin _, _ => Fin 0
  | _, Fin y =>
      match (y ?= 0)%Q with
      | Lt => inf_of_sign (CompOpp (num_sign a))
      | _ => a
      end
  | _, _ => NaN
  end.

(** [a >= b]; false as soon as one side is NaN. *)
Definition num_geb (a b : num) : bool :=
  match a, b with
  | NaN, _ | _, NaN => false
  | PInf, _ | _, NInf => true
  | NInf, _ | _, PInf => false
  | Fin x, Fin y => Qle_bool y x
  end.

Definition num_leb (a b : num) : bool := num_geb b a.

(** [a > b] *)
Definition num_gtb (a b : num) : bool :=
  match a, b with
  | NaN, _ | _, NaN => false
  | NInf, _ | _, PInf => false
  | PInf, _ | _, NInf => true
  | Fin x, Fin y => negb (Qle_bool x y)
  end.

(** [a === b] *)
Definition num_eqb (a b : num) : bool :=
  match a, b with
  | Fin x, Fin y => Qeq_bool x y
  | PInf, PInf | NInf, NInf => true
  | _, _ => false
  end.

(** Truthiness of a number: [0] and NaN are falsy. *)
Definition num_truthy (a : num) : bool :=
  match a with
  | Fin q => negb (Qeq_bool q 0)
  | NaN => false
  | _ => true
  end.

(** [x || d] for a possibly undefined numeric field [x]. *)
Definition num_or (x : option num) (d : num) : num :=
  match x with
  | Some v => if num_truthy v then v else d
  | None => d
  end.

(** [Math.min(a, b)] *)
Definition num_min (a b : num) : num :=
  match a, b with
  | NaN, _ | _, NaN => NaN
  | _, _ => if num_leb a b then a else b
  end.

(** [Math.round(a)]: the nearest integer, halves rounded up. *)
Definition num_round (a : num) : num :=
  match a with
  | Fin q => num_of_Z (Qfloor (q + (1 # 2)))
  | _ => a
  end.

(** Truthiness of a string: only the empty string is falsy. *)
Definition str_truthy (s : string) : bool :=
  match s with
  | EmptyString => false
  | _ => true
  end.

(** ** Data model

    Nodes and edges as the editor hands them to the engine.  A field that
    may be missing on the JavaScript object is an [option]. *)

Record NodeData : Type := {
  cycleTime : option num;
  maxCapacity : option num;
  active : option bool;
  nd_progress : option num;
  utilization : option num;
  bottleneck : option bool
}.

Record Node : Type := {
  node_id : string;
  node_type : string;
  parentId : option string;
  node_data : option NodeData
}.

Record EdgeData : Type := {
  ed_transitTime : option num;
  transitInProgress : option bool;
  ed_transitProgress : option num
}.

Record Edge : Type := {
  edge_id : string;
  source : string;
  target : string;
  edge_data : option EdgeData
}.

(** One entry of [activePaths]: a flow token.  [isGroup] and
    [groupChildren] are optional fields of the object literal. *)
Record Path : Type := {
  nodeId : string;
  progress : num;
  inTransit : bool;
  transitTo : string;
  transitTime : num;
  transitProgress : num;
  isGroup : option bool;
  groupChildren : option (list string)
}.

(** What the closure of [animate] captures once the run has started. *)
Record Env : Type := {
  env_nodes : list Node;
  env_edges : list Edge;
  edgeMap : gmap string (list (string * num));
  groupChildrenMap : gmap string (list string);
  connectedNodes : gset string;
  startNodeIds : list string;
  nodeDataMap : gmap string (option NodeData)
}.

(** The position handed to [onUnitPositionUpdate]; [None] is [null]. *)
Definition UnitPosition : Type := option (string * num).

Record Toast : Type := {
  toast_title : string;
  toast_destructive : bool
}.

Inductive Event : Type :=
| EvToast (t : Toast)
| EvUnitPosition (p : UnitPosition).

(** The mutable part of a run: the token list and time stamp of the
    closure, the React state written through [setNodes], [setEdges] and
    [setCurrentUnitPosition], and whether another frame was requested. *)
Record State : Type := {
  activePaths : list Path;
  lastTimestamp : num;
  st_nodes : list Node;
  st_edges : list Edge;
  currentUnitPosition : UnitPosition;
  scheduled : bool
}.

(** ** Topology: [startPlayByPlaySimulation] up to the first frame *)

(** [edge.data?.transitTime || 0] *)
Definition edgeTransitTime (e : Edge) : num :=
  num_or (edge_data e ≫= ed_transitTime) (num_of_Z 0).

(** [edgeMap]: the edges grouped by source, in the order given. *)
Definition buildEdgeMap (edges : list Edge) : gmap string (list (string * num)) :=
  foldl (fun m e =>
           let sources := default [] (m !! source e) in
           <[source e := sources ++ [(target e, edgeTransitTime e)]]> m)
        ∅ edges.

(** A [parentId] that passes [if (node.parentId)]. *)
Definition truthyParent (n : Node) : option string :=
  match parentId n with
  | Some p => if str_truthy p then Some p else None
  | None => None
  end.

(** [groupChildrenMap]: the children of every parent id, in node order. *)
Definition buildGroupChildrenMap (nodes : list Node) : gmap string (list string) :=
  foldl (fun m n =>
           match truthyParent n with
           | Some p => <[p := default [] (m !! p) ++ [node_id n]]> m
           | None => m
           end)
        ∅ nodes.

(** [findConnectedNodes].  The recursion of the source ends because the
    visited set grows; here it is bounded by [fuel], and [None] means the
    bound was too small (see [findConnectedNodes_total]). *)
Fixpoint findConnectedNodes (fuel : nat)
    (em : gmap string (list (string * num))) (gcm : gmap string (list string))
    (nodeId : string) (connected : gset string) : option (gset string) :=
  if decide (nodeId ∈ connected) then Some connected
  else
    match fuel with
    | O => None
    | S fuel' =>
        let c1 := connected ∪ {[nodeId]} in
        let c2 := match gcm !! nodeId with
                  | Some children => c1 ∪ list_to_set children
                  | None => c1
                  end in
        foldl (fun acc edge => acc ≫= findConnectedNodes fuel' em gcm edge.1)
              (Some c2) (default [] (em !! nodeId))
    end.

(** [startNodeIds.forEach(nodeId => findConnectedNodes(nodeId))] *)
Definition findAllConnected (fuel : nat)
    (em : gmap string (list (string * num))) (gcm : gmap string (list string))
    (starts : list string) : option (gset string) :=
  foldl (fun acc s => acc ≫= findConnectedNodes fuel em gcm s) (Some ∅) starts.

Definition walkFuel (edges : list Edge) : nat := S (S (length edges)).

(** [nodes.find(n => n.id === id)?.type === 'group'] *)
Definition isGroupNode (nodes : list Node) (id : string) : bool :=
  match List.find (fun n => bool_decide (node_id n = id)) nodes with
  | Some n => bool_decide (node_type n = "group")
  | None => false
  end.

(** [new Map(nodes.map(n => [n.id, n.data]))]: a later node of the same id
    overwrites an earlier one. *)
Definition buildNodeDataMap (nodes : list Node) : gmap string (option NodeData) :=
  foldl (fun m n => <[node_id n := node_data n]> m) ∅ nodes.

(** The ids of the pure sources: nodes that are no edge's target and have
    a non-empty adjacency list. *)
Definition computeStartNodeIds (nodes : list Node) (edges : list Edge)
    (em : gmap string (list (string * num))) : list string :=
  let allTargets : gset string := list_to_set (map target edges) in
  map node_id
    (List.filter (fun n =>
       negb (bool_decide (node_id n ∈ allTargets))
       && match em !! node_id n with
          | Some l => negb (Nat.eqb (length l) 0)
          | None => false
          end) nodes).

(** The token a start node begins with. *)
Definition startPath (nodes : list Node) (gcm : gmap string (list string))
    (id : string) : Path :=
  {| nodeId := id; progress := num_of_Z 0; inTransit := false;
     transitTo := ""; transitTime := num_of_Z 0; transitProgress := num_of_Z 0;
     isGroup := Some (isGroupNode nodes id);
     groupChildren := gcm !! id |}.

Definition noEntryPointToast : Toast :=
  {| toast_title := "Simulation Error"; toast_destructive := true |}.

Inductive StartResult : Type :=
| NoEntryPoint (t : Toast)
| Started (env : Env) (st : State).

(** The closure of a run over [nodes] and [edges] whose walk found
    [connected]. *)
Definition mkEnv (nodes : list Node) (edges : list Edge)
    (connected : gset string) : Env :=
  {| env_nodes := nodes; env_edges := edges;
     edgeMap := buildEdgeMap edges;
     groupChildrenMap := buildGroupChildrenMap nodes;
     connectedNodes := connected;
     startNodeIds := computeStartNodeIds nodes edges (buildEdgeMap edges);
     nodeDataMap := buildNodeDataMap nodes |}.

(** The state in which the first frame is requested. *)
Definition initialState (nodes : list Node) (edges : list Edge) : State :=
  {| activePaths :=
       map (startPath nodes (buildGroupChildrenMap nodes))
           (computeStartNodeIds nodes edges (buildEdgeMap edges));
     lastTimestamp := num_of_Z 0;
     st_nodes := nodes; st_edges := edges;
     currentUnitPosition := None;
     scheduled := true |}.

(** [startPlayByPlaySimulation], up to and including the first
    [requestAnimationFrame(animate)].  The outer [option] is [None] only
    if the walk ran out of fuel, which it never does
    ([startPlayByPlaySimulation_total]). *)
Definition startPlayByPlaySimulation (nodes : list Node) (edges : list Edge)
    : option StartResult :=
  let em := buildEdgeMap edges in
  let gcm := buildGroupChildrenMap nodes in
  let starts := computeStartNodeIds nodes edges em in
  if Nat.eqb (length starts) 0 then Some (NoEntryPoint noEntryPointToast)
  else
    connected ← findAllConnected (walkFuel edges) em gcm starts;
    Some (Started (mkEnv nodes edges connected) (initialState nodes edges)).

(** ** The frame callback [animate] *)

(** What one frame accumulates while it walks [activePaths]. *)
Record Frame : Type := {
  nextActivePaths : list Path;
  activeNodeIds : gset string;
  transitEdges : gmap string num
}.

Definition emptyFrame : Frame :=
  {| nextActivePaths := []; activeNodeIds := ∅; transitEdges := ∅ |}.

(** The token pushed when a transit arrives at [to]; the literal has no
    [isGroup] and no [groupChildren] field. *)
Definition arrivalPath (to : string) : Path :=
  {| nodeId := to; progress := num_of_Z 0; inTransit := false;
     transitTo := ""; transitTime := num_of_Z 0; transitProgress := num_of_Z 0;
     isGroup := None; groupChildren := None |}.

Definition withTransitProgress (path : Path) (tp : num) : Path :=
  {| nodeId := nodeId path; progress := progress path;
     inTransit := inTransit path; transitTo := transitTo path;
     transitTime := transitTime path; transitProgress := tp;
     isGroup := isGroup path; groupChildren := groupChildren path |}.

Definition withProgress (path : Path) (p : num) : Path :=
  {| nodeId := nodeId path; progress := p;
     inTransit := inTransit path; transitTo := transitTo path;
     transitTime := transitTime path; transitProgress := transitProgress path;
     isGroup := isGroup path; groupChildren := groupChildren path |}.

(** [(childData.cycleTime || 0) / (childData.maxCapacity || 1)], also the
    [adjustedCycleDuration] of a normal node. *)
Definition effectiveCycleTime (d : NodeData) : num :=
  num_div (num_or (cycleTime d) (num_of_Z 0)) (num_or (maxCapacity d) (num_of_Z 1)).

(** [minCycleTime] after the loop over the children of a group. *)
Definition minChildCycleTime (ndm : gmap string (option NodeData))
    (children : list string) : num :=
  foldl (fun minCycleTime childId =>
           match ndm !! childId with
           | Some (Some childData) =>
               num_min minCycleTime (effectiveCycleTime childData)
           | _ => minCycleTime
           end)
        PInf children.

(** [cycleDuration] of a group: one second when no minimum was found. *)
Definition groupCycleDuration (ndm : gmap string (option NodeData))
    (children : list string) : num :=
  let minCycleTime := minChildCycleTime ndm children in
  if num_eqb minCycleTime PInf then num_of_Z 1 else minCycleTime.

Definition completeToast : Toast :=
  {| toast_title := "Simulation Complete"; toast_destructive := false |}.

Definition emptyNodeData : NodeData :=
  {| cycleTime := None; maxCapacity := None; active := None;
     nd_progress := None; utilization := None; bottleneck := None |}.

Definition emptyEdgeData : EdgeData :=
  {| ed_transitTime := None; transitInProgress := None;
     ed_transitProgress := None |}.

(** The running state of the completion pass. *)
Record Analysis : Type := {
  bottleneckId : option string;
  maxCycleTime : num;
  nodeUtilizations : gmap string num
}.

Section Run.

Variable env : Env.
Variable simulationSpeed : num.
(** Whether the [onUnitPositionUpdate] prop was passed. *)
Variable hasCallback : bool.

(** The token pushed for one outgoing edge of a node that completed. *)
Definition fanOutPath (from : string) (edge : string * num) : Path :=
  {| nodeId := from; progress := num_of_Z 1; inTransit := true;
     transitTo := edge.1; transitTime := edge.2;
     transitProgress := num_of_Z 0;
     isGroup := Some (isGroupNode (env_nodes env) edge.1);
     groupChildren := groupChildrenMap env !! edge.1 |}.

(** [path.isGroup && path.groupChildren]: the children when the token is
    handled as a group. *)
Definition groupMode (path : Path) : option (list string) :=
  match isGroup path, groupChildren path with
  | Some true, Some children => Some children
  | _, _ => None
  end.

(** The edge a transiting token is drawn on, when [transitTime > 0]:
    the first edge from [nodeId] to [transitTo], if its id is truthy. *)
Definition transitEdgeId (path : Path) : option string :=
  if num_gtb (transitTime path) (num_of_Z 0) then
    match List.find (fun e => bool_decide (source e = nodeId path)
                              && bool_decide (target e = transitTo path))
                    (env_edges env) with
    | Some e => if str_truthy (edge_id e) then Some (edge_id e) else None
    | None => None
    end
  else None.

(** [path.transitProgress] after [+= delta * simulationSpeed / path.transitTime]. *)
Definition advancedTransit (delta : num) (path : Path) : num :=
  num_add (transitProgress path)
          (num_div (num_mul delta simulationSpeed) (transitTime path)).

(** [path.transitProgress >= 1 || path.transitTime <= 0] *)
Definition arrives (delta : num) (path : Path) : bool :=
  num_geb (advancedTransit delta path) (num_of_Z 1)
  || num_leb (transitTime path) (num_of_Z 0).

(** [cycleDuration] (group) or [adjustedCycleDuration] (normal node). *)
Definition cycleDurationOf (path : Path) (nodeData : NodeData) : num :=
  match groupMode path with
  | Some children => groupCycleDuration (nodeDataMap env) children
  | None => effectiveCycleTime nodeData
  end.

(** [path.progress] after [+= delta * simulationSpeed / cycleDuration]. *)
Definition advancedProgress (delta : num) (path : Path) (nodeData : NodeData)
    : num :=
  num_add (progress path)
          (num_div (num_mul delta simulationSpeed)
                   (cycleDurationOf path nodeData)).

(** [edgeMap.get(nodeId) || []] *)
Definition nextNodes (nodeId : string) : list (string * num) :=
  default [] (edgeMap env !! nodeId).

(** The body of [activePaths.forEach(path => ...)] for one token. *)
Definition processPath (delta : num) (fr : Frame) (path : Path) : Frame :=
  if inTransit path then
    let tp := advancedTransit delta path in
    let te := match transitEdgeId path with
              | Some edgeId => <[edgeId := tp]> (transitEdges fr)
              | None => transitEdges fr
              end in
    if arrives delta path then
      {| nextActivePaths := nextActivePaths fr ++ [arrivalPath (transitTo path)];
         activeNodeIds := activeNodeIds fr ∪ {[transitTo path]};
         transitEdges := te |}
    else
      {| nextActivePaths := nextActivePaths fr ++ [withTransitProgress path tp];
         activeNodeIds := activeNodeIds fr;
         transitEdges := te |}
  else
    match nodeDataMap env !! nodeId path with
    | Some (Some nodeData) =>
        let an := activeNodeIds fr ∪ {[nodeId path]} in
        let an' := match groupMode path with
                   | Some children => an ∪ list_to_set children
                   | None => an
                   end in
        let p := advancedProgress delta path nodeData in
        if num_geb p (num_of_Z 1) then
          {| nextActivePaths :=
               nextActivePaths fr
               ++ map (fanOutPath (nodeId path)) (nextNodes (nodeId path));
             activeNodeIds := an';
             transitEdges := transitEdges fr |}
        else
          {| nextActivePaths := nextActivePaths fr ++ [withProgress path p];
             activeNodeIds := an';
             transitEdges := transitEdges fr |}
    | _ => fr
    end.

(** One pass over the active tokens. *)
Definition processPaths (delta : num) (paths : list Path) : Frame :=
  foldl (processPath delta) emptyFrame paths.

(** The per-node update of [setNodes] after the pass. *)
Definition snapshotNode (fr : Frame) (node : Node) : Node :=
  let d := default emptyNodeData (node_data node) in
  {| node_id := node_id node; node_type := node_type node;
     parentId := parentId node;
     node_data := Some
       {| cycleTime := cycleTime d; maxCapacity := maxCapacity d;
          active := Some (bool_decide (node_id node ∈ activeNodeIds fr));
          nd_progress :=
            progress <$>
              List.find (fun p => bool_decide (nodeId p = node_id node)
                                  && negb (inTransit p))
                        (nextActivePaths fr);
          utilization := utilization d; bottleneck := bottleneck d |} |}.

(** The per-edge update of [setEdges] after the pass. *)
Definition snapshotEdge (fr : Frame) (e : Edge) : Edge :=
  let d := default emptyEdgeData (edge_data e) in
  {| edge_id := edge_id e; source := source e; target := target e;
     edge_data := Some
       {| ed_transitTime := ed_transitTime d;
          transitInProgress :=
            Some (bool_decide (is_Some (transitEdges fr !! edge_id e)));
          ed_transitProgress :=
            Some (num_or (transitEdges fr !! edge_id e) (num_of_Z 0)) |} |}.

(** The position of [nextActivePaths[0]] when that token is at a node. *)
Definition primaryPosition (next : list Path) : UnitPosition :=
  match next with
  | primaryPath :: _ =>
      if inTransit primaryPath then None
      else Some (nodeId primaryPath, progress primaryPath)
  | [] => None
  end.

(** The body of [nodes.forEach(node => ...)] of the completion pass. *)
Definition analyzeNode (a : Analysis) (node : Node) : Analysis :=
  if bool_decide (node_id node ∈ connectedNodes env) then
    match nodeDataMap env !! node_id node with
    | Some (Some nodeData) =>
        let cycleTime := num_or (cycleTime nodeData) (num_of_Z 0) in
        let maxCapacity := num_or (maxCapacity nodeData) (num_of_Z 1) in
        let adjustedCycleTime :=
          if num_gtb maxCapacity (num_of_Z 1)
          then num_div cycleTime maxCapacity else cycleTime in
        let grows := num_gtb adjustedCycleTime (maxCycleTime a) in
        let maxCycleTime' :=
          if grows then adjustedCycleTime else maxCycleTime a in
        let utilization :=
          num_min (num_of_Z 100)
            (num_round (num_mul (num_div adjustedCycleTime maxCycleTime')
                                (num_of_Z 100))) in
        {| bottleneckId := if grows then Some (node_id node) else bottleneckId a;
           maxCycleTime := maxCycleTime';
           nodeUtilizations := <[node_id node := utilization]> (nodeUtilizations a) |}
    | _ => a
    end
  else a.

Definition analyze : Analysis :=
  foldl analyzeNode
        {| bottleneckId := head (startNodeIds env);
           maxCycleTime := num_of_Z 0;
           nodeUtilizations := ∅ |}
        (env_nodes env).

(** The per-node update of the final [setNodes]. *)
Definition completeNode (a : Analysis) (node : Node) : Node :=
  let d := default emptyNodeData (node_data node) in
  let connected := bool_decide (node_id node ∈ connectedNodes env) in
  {| node_id := node_id node; node_type := node_type node;
     parentId := parentId node;
     node_data := Some
       {| cycleTime := cycleTime d; maxCapacity := maxCapacity d;
          active := Some false;
          nd_progress := nd_progress d;
          utilization :=
            Some (if connected
                  then num_or (nodeUtilizations a !! node_id node) (num_of_Z 0)
                  else num_of_Z 0);
          bottleneck :=
            Some (connected
                  && bool_decide (Some (node_id node) = bottleneckId a)) |} |}.

(** [delta]: the seconds since the previous frame. *)
Definition frameDelta (st : State) (timestamp : num) : num :=
  num_div (num_sub timestamp (lastTimestamp st)) (num_of_Z 1000).

(** [animate(timestamp)]: the new state and what the frame emitted. *)
Definition animate (st : State) (timestamp : num) : State * list Event :=
  if num_eqb (lastTimestamp st) (num_of_Z 0) then
    ({| activePaths := activePaths st; lastTimestamp := timestamp;
        st_nodes := st_nodes st; st_edges := st_edges st;
        currentUnitPosition := currentUnitPosition st;
        scheduled := true |}, [])
  else
    let delta := frameDelta st timestamp in
    match activePaths st with
    | [] =>
        ({| activePaths := []; lastTimestamp := timestamp;
            st_nodes := map (completeNode analyze) (st_nodes st);
            st_edges := st_edges st;
            currentUnitPosition := currentUnitPosition st;
            scheduled := false |}, [EvToast completeToast])
    | _ :: _ =>
        let fr := processPaths delta (activePaths st) in
        let pos := primaryPosition (nextActivePaths fr) in
        ({| activePaths := nextActivePaths fr; lastTimestamp := timestamp;
            st_nodes := map (snapshotNode fr) (st_nodes st);
            st_edges := map (snapshotEdge fr) (st_edges st);
            currentUnitPosition :=
              match pos with
              | Some _ => pos
              | None => currentUnitPosition st
              end;
            scheduled := true |},
         if hasCallback then [EvUnitPosition pos] else [])
    end.

(** The tokens left by one tick, and by [n] ticks whose deltas are
    [deltas 0], [deltas 1], ... *)
Definition tick (delta : num) (paths : list Path) : list Path :=
  nextActivePaths (processPaths delta paths).

Fixpoint runTicks (deltas : nat → num) (n : nat) (paths : list Path)
    : list Path :=
  match n with
  | O => paths
  | S n' => runTicks (fun i => deltas (S i)) n' (tick (deltas O) paths)
  end.

End Run.

(** * Notions used in the statements *)

Section Tokens.

Variable env : Env.
Variable simulationSpeed : num.

(** What a single token leaves in the next active set, and which node
    ids it marks active, in one tick. *)
Definition advance (delta : num) (path : Path) : list Path :=
  nextActivePaths (processPath env simulationSpeed delta emptyFrame path).

Definition activated (delta : num) (path : Path) : gset string :=
  activeNodeIds (processPath env simulationSpeed delta emptyFrame path).

End Tokens.

(** The token a completing node sends along the edge [e]. *)
Definition transitToken (env : Env) (e : Edge) : Path :=
  {| nodeId := source e; progress := num_of_Z 1; inTransit := true;
     transitTo := target e; transitTime := edgeTransitTime e;
     transitProgress := num_of_Z 0;
     isGroup := Some (isGroupNode (env_nodes env) (target e));
     groupChildren := groupChildrenMap env !! target e |}.

(** The edges that leave the node [x], in the order of the edge list. *)
Definition outgoingEdges (edges : list Edge) (x : string) : list Edge :=
  List.filter (fun e => bool_decide (source e = x)) edges.

(** The entry [edgeMap] keeps for the edge [e]. *)
Definition adjacencyEntry (e : Edge) : string * num :=
  (target e, edgeTransitTime e).

(** The position of the first token of [next] that is not in transit:
    the primary unit as the specification words it. *)
Definition firstAtNode (next : list Path) : UnitPosition :=
  (fun p => (nodeId p, progress p))
    <$> List.find (fun p => negb (inTransit p)) next.

(** A pure source: a node with an outgoing edge that no edge targets. *)
Definition pureSource (edges : list Edge) (n : Node) : Prop :=
  (∃ e, e ∈ edges ∧ source e = node_id n)
  ∧ ∀ e, e ∈ edges → target e ≠ node_id n.

(** The tokens a frame can connect with the node [x]: a transiting token
    leaves or approaches it, a token at a node sits on it or handles it as
    a child of its group. *)
Definition associated (path : Path) (x : string) : Prop :=
  if inTransit path
  then nodeId path = x ∨ transitTo path = x
  else nodeId path = x
       ∨ ∃ children, groupMode path = Some children ∧ x ∈ children.

(** [pureSource] as a test. *)
Definition isPureSource (edges : list Edge) (n : Node) : bool :=
  existsb (fun e => bool_decide (source e = node_id n)) edges
  && forallb (fun e => negb (bool_decide (target e = node_id n))) edges.

(** Node timing within the bounds of the data model: the cycle time, when
    set, is a non-negative number, and the capacity, when set, is a number
    that is at least 1. *)
Definition capacityOk (d : NodeData) : Prop :=
  maxCapacity d = None ∨ ∃ m, maxCapacity d = Some (Fin m) ∧ (1 <= m)%Q.

Definition nonNegTiming (d : NodeData) : Prop :=
  (cycleTime d = None ∨ ∃ c, cycleTime d = Some (Fin c) ∧ (0 <= c)%Q)
  ∧ capacityOk d.

(** The same with a cycle time that, when set, is positive and finite. *)
Definition positiveTiming (d : NodeData) : Prop :=
  (cycleTime d = None ∨ ∃ c, cycleTime d = Some (Fin c) ∧ (0 < c)%Q)
  ∧ capacityOk d.

(** The effective cycle time of the node data is a number that is not
    negative. *)
Definition timedData (d : NodeData) : Prop :=
  ∃ x, effectiveCycleTime d = Fin x ∧ (0 <= x)%Q.

(** An edge leads from [x] to [y]. *)
Definition edgeStep (edges : list Edge) (x y : string) : Prop :=
  ∃ e, e ∈ edges ∧ source e = x ∧ target e = y.

(** Reachability as the specification defines it: from a start node,
    along edges, and from a group to its children. *)
Inductive Reachable (nodes : list Node) (edges : list Edge) : string → Prop :=
| reach_start n :
    n ∈ nodes → pureSource edges n → Reachable nodes edges (node_id n)
| reach_edge x y :
    Reachable nodes edges x → edgeStep edges x y → Reachable nodes edges y
| reach_child n p :
    Reachable nodes edges p → n ∈ nodes → truthyParent n = Some p →
    Reachable nodes edges (node_id n).









(** The frames of a run: [animate] is called with [timestamps 0],
    [timestamps 1], ... for as long as a frame is requested. *)
Fixpoint runFrames (env : Env) (speed : num) (cb : bool)
    (timestamps : nat → num) (n : nat) (st : State) : State :=
  match n with
  | O => st
  | S n' =>
      if scheduled st
      then runFrames env speed cb (fun i => timestamps (S i)) n'
             (fst (animate env speed cb st (timestamps O)))
      else st
  end.

(** The deltas of the frames at [timestamps] that follow a frame at
    [last]. *)
Definition frameDeltas (last : num) (timestamps : nat → num) (i : nat) : num :=
  num_div (num_sub (timestamps i)
                   (match i with
                    | O => last
                    | S j => timestamps j
                    end))
          (num_of_Z 1000).

(** The run is over: no frame is requested, no token is left, and the
    completion pass has written every node. *)
Definition finished (env : Env) (st : State) : Prop :=
  scheduled st = false
  ∧ activePaths st = []
  ∧ ∀ node, node ∈ st_nodes st →
            ∃ node0, node = completeNode env (analyze env) node0.

(** * Concrete graphs used as instances *)

Definition equipmentData (cycle capacity : Z) : NodeData :=
  {| cycleTime := Some (num_of_Z cycle);
     maxCapacity := Some (num_of_Z capacity);
     active := None; nd_progress := None;
     utilization := None; bottleneck := None |}.

Definition equipment (id : string) (cycle capacity : Z)
    (parent : option string) : Node :=
  {| node_id := id; node_type := "equipment"; parentId := parent;
     node_data := Some (equipmentData cycle capacity) |}.

(** A sub-flow as [createEmptyGroup] makes it: its data has no timing. *)
Definition subFlow (id : string) : Node :=
  {| node_id := id; node_type := "group"; parentId := None;
     node_data := Some emptyNodeData |}.

Definition timedEdge (id src tgt : string) (t : num) : Edge :=
  {| edge_id := id; source := src; target := tgt;
     edge_data := Some {| ed_transitTime := Some t;
                          transitInProgress := None;
                          ed_transitProgress := None |} |}.

(** A fork: [A] feeds [B] and [C]. *)
Definition forkNodes : list Node :=
  [equipment "A" 1 1 None; equipment "B" 5 1 None; equipment "C" 5 1 None].

Definition forkEdges : list Edge :=
  [timedEdge "ab" "A" "B" (num_of_Z 2); timedEdge "ac" "A" "C" (num_of_Z 3)].

Definition forkEnv : Env :=
  mkEnv forkNodes forkEdges (list_to_set ["A"; "B"; "C"]).

(** A token half way along the edge from [A] to [B] of the fork, on an
    edge of transit time [t]. *)
Definition forkTransit (t : num) : Path :=
  {| nodeId := "A"; progress := num_of_Z 1; inTransit := true;
     transitTo := "B"; transitTime := t; transitProgress := Fin (1 # 2);
     isGroup := Some false; groupChildren := None |}.

(** Two sources of different speed feeding one sink. *)
Definition mergeNodes : list Node :=
  [equipment "A" 1 1 None; equipment "B" 10 1 None; equipment "X" 1 1 None].

Definition mergeEdges : list Edge :=
  [timedEdge "ax" "A" "X" (num_of_Z 5); timedEdge "bx" "B" "X" (num_of_Z 5)].

Definition mergeEnv : Env :=
  mkEnv mergeNodes mergeEdges (list_to_set ["A"; "B"; "X"]).

(** The merge run after its first tick (frames at 1000 ms and 2000 ms, at
    speed 1). *)
Definition mergeAfterFirstTick : State :=
  fst (animate mergeEnv (num_of_Z 1) true
         (fst (animate mergeEnv (num_of_Z 1) true
                 (initialState mergeNodes mergeEdges) (num_of_Z 1000)))
         (num_of_Z 2000)).

(** Two nodes that feed each other: a cycle without a pure source. *)
Definition loopNodes : list Node :=
  [equipment "A" 1 1 None; equipment "B" 1 1 None].

Definition loopEdges : list Edge :=
  [timedEdge "ab" "A" "B" (num_of_Z 1); timedEdge "ba" "B" "A" (num_of_Z 1)].

(** A source [S] that feeds the sub-flow [G], which holds the machine [c]
    (cycle time 2) and feeds [X]. *)
Definition groupNodes : list Node :=
  [equipment "S" 1 1 None; subFlow "G"; equipment "c" 2 1 (Some "G");
   equipment "X" 1 1 None].

Definition groupEdges : list Edge :=
  [timedEdge "sg" "S" "G" (num_of_Z 1); timedEdge "gx" "G" "X" (num_of_Z 1)].

Definition groupEnv : Env :=
  mkEnv groupNodes groupEdges (list_to_set ["S"; "G"; "c"; "X"]).

(** A sub-flow [G] that feeds [X] and whose child [c] feeds [T]. *)
Definition childEdgeNodes : list Node :=
  [subFlow "G"; equipment "c" 2 1 (Some "G"); equipment "X" 1 1 None;
   equipment "T" 1 1 None].

Definition childEdge : Edge := timedEdge "ct" "c" "T" (num_of_Z 1).

Definition childEdgeEdges : list Edge :=
  [timedEdge "gx" "G" "X" (num_of_Z 1); childEdge].

Definition childEdgeEnv : Env :=
  mkEnv childEdgeNodes childEdgeEdges (list_to_set ["G"; "c"; "X"]).

(** The bottleneck scenario: [A], [B], [C] with cycle times 10, 4, 4 and
    capacity 1, chained by edges of transit times [t1] and [t2]. *)
Definition chainNodes : list Node :=
  [equipment "A" 10 1 None; equipment "B" 4 1 None; equipment "C" 4 1 None].

Definition chainEdges (t1 t2 : Q) : list Edge :=
  [timedEdge "ab" "A" "B" (Fin t1); timedEdge "bc" "B" "C" (Fin t2)].

Definition chainConnected : gset string := list_to_set ["A"; "B"; "C"].

(** A machine of cycle time 0 in front of a normal one. *)
Definition zeroNodes : list Node :=
  [equipment "A" 0 1 None; equipment "B" 1 1 None].

Definition zeroEdges : list Edge := [timedEdge "ab" "A" "B" (num_of_Z 1)].

Definition zeroEnv : Env := mkEnv zeroNodes zeroEdges (list_to_set ["A"; "B"]).

(** Frames 16 ms apart, the first at 16 ms. *)
Definition frameTime (i : nat) : Q := inject_Z (Z.of_nat (S i)) * 16.

(** The token at [A] of the fork after a quarter of its cycle. *)
Definition forkAtNode : Path :=
  withProgress (startPath forkNodes (buildGroupChildrenMap forkNodes) "A")
               (Fin (1 # 4)).

(** The chain run with transit times of one second. *)
Definition chainEnv : Env := mkEnv chainNodes (chainEdges 1 1) chainConnected.




Definition zeroStart : Path :=
  startPath zeroNodes (buildGroupChildrenMap zeroNodes) "A".


(** * Further notions, for the properties beyond the specification *)

(** The ids of the nodes whose [parentId] is the truthy string [p], in
    node order. *)
Definition childrenOf (nodes : list Node) (p : string) : list string :=
  map node_id
      (List.filter (fun n => bool_decide (truthyParent n = Some p)) nodes).

(** The nodes that carry the id [id], in node order. *)
Definition nodesWithId (nodes : list Node) (id : string) : list Node :=
  List.filter (fun n => bool_decide (node_id n = id)) nodes.

(** The id [y] is listed as a child in [groupChildrenMap]. *)
Definition listedChild (gcm : gmap string (list string)) (y : string) : Prop :=
  ∃ p children, gcm !! p = Some children ∧ y ∈ children.

(** The set [c] holds every edge target and every group child of [y]. *)
Definition closedAt (em : gmap string (list (string * num)))
    (gcm : gmap string (list string)) (c : gset string) (y : string) : Prop :=
  (∀ l edge, em !! y = Some l → edge ∈ l → edge.1 ∈ c)
  ∧ (∀ children child, gcm !! y = Some children → child ∈ children →
                       child ∈ c).

(** The state of the walk: every id of [c] is being visited (in [gray]),
    was added as a child, or has been fully explored. *)
Definition walkInv (em : gmap string (list (string * num)))
    (gcm : gmap string (list string)) (c gray : gset string) : Prop :=
  ∀ y, y ∈ c → y ∈ gray ∨ listedChild gcm y ∨ closedAt em gcm c y.

(** A predicate on ids that edges and group membership preserve. *)
Definition stepClosed (em : gmap string (list (string * num)))
    (gcm : gmap string (list string)) (R : string → Prop) : Prop :=
  (∀ y l edge, R y → em !! y = Some l → edge ∈ l → R edge.1)
  ∧ (∀ y children child, R y → gcm !! y = Some children → child ∈ children →
                         R child).

(** What visiting the ids [ids] may do to the connected set: it grows
    from [c] to [c'], holds the visited ids, keeps the state of the walk,
    and stays inside every predicate that holds of [ids] and of [c] and
    that edges and group membership preserve. *)
Definition walkStep (em : gmap string (list (string * num)))
    (gcm : gmap string (list string)) (ids : list string)
    (c c' : gset string) : Prop :=
  c ⊆ c'
  ∧ (∀ s, s ∈ ids → s ∈ c')
  ∧ (∀ gray, walkInv em gcm c gray → walkInv em gcm c' gray)
  ∧ (∀ R, stepClosed em gcm R → (∀ s, s ∈ ids → R s) →
          (∀ y, y ∈ c → R y) → ∀ y, y ∈ c' → R y).

(** Two nodes, or two edges, that the topology and the timing cannot tell
    apart: they differ at most in the presentation fields. *)
Definition sameNode (n n' : Node) : Prop :=
  node_id n = node_id n' ∧ node_type n = node_type n'
  ∧ parentId n = parentId n'
  ∧ node_data n ≫= cycleTime = node_data n' ≫= cycleTime
  ∧ node_data n ≫= maxCapacity = node_data n' ≫= maxCapacity.

Definition sameEdge (e e' : Edge) : Prop :=
  edge_id e = edge_id e' ∧ source e = source e' ∧ target e = target e'
  ∧ edge_data e ≫= ed_transitTime = edge_data e' ≫= ed_transitTime.

(** Two starts agree: both report the missing entry point, or both start
    a run with the same adjacency, groups, start nodes, connected set and
    initial tokens. *)
Definition sameStart (r r' : option StartResult) : Prop :=
  match r, r' with
  | Some (NoEntryPoint t), Some (NoEntryPoint t') => t = t'
  | Some (Started env st), Some (Started env' st') =>
      edgeMap env' = edgeMap env
      ∧ groupChildrenMap env' = groupChildrenMap env
      ∧ startNodeIds env' = startNodeIds env
      ∧ connectedNodes env' = connectedNodes env
      ∧ activePaths st' = activePaths st
  | _, _ => False
  end.

(** [adjustedCycleTime] of the completion pass: the cycle time, over the
    capacity when the capacity exceeds 1. *)
Definition adjustedCycleTime (nodeData : NodeData) : num :=
  let cycleTime := num_or (cycleTime nodeData) (num_of_Z 0) in
  let maxCapacity := num_or (maxCapacity nodeData) (num_of_Z 1) in
  if num_gtb maxCapacity (num_of_Z 1)
  then num_div cycleTime maxCapacity else cycleTime.

(** The adjusted cycle time the completion pass reads for [node]; none
    when the pass skips the node (not connected, or without data). *)
Definition analysed (env : Env) (node : Node) : option num :=
  if bool_decide (node_id node ∈ connectedNodes env) then
    match nodeDataMap env !! node_id node with
    | Some (Some nodeData) => Some (adjustedCycleTime nodeData)
    | _ => None
    end
  else None.

(** [Math.min(100, Math.round((adjustedCycleTime / maxCycleTime) * 100))] *)
Definition utilizationOf (adjustedCycleTime maxCycleTime : num) : num :=
  num_min (num_of_Z 100)
    (num_round (num_mul (num_div adjustedCycleTime maxCycleTime)
                        (num_of_Z 100))).

(** The completion pass over the node list [l]. *)
Definition analyzeOn (env : Env) (l : list Node) : Analysis :=
  foldl (analyzeNode env)
        {| bottleneckId := head (startNodeIds env);
           maxCycleTime := num_of_Z 0;
           nodeUtilizations := ∅ |}
        l.

(** The timing of every connected node with data is within the bounds of
    the data model. *)
Definition connectedTiming (env : Env) : Prop :=
  ∀ id d, id ∈ connectedNodes env →
          nodeDataMap env !! id = Some (Some d) → nonNegTiming d.

(** The state of the completion pass after the nodes [l]: either no
    positive cycle time was seen, the running maximum is still 0 and every
    utilization written so far is NaN; or the running maximum is the
    adjusted cycle time of the node [b], the first of [l] to reach it,
    which is the bottleneck so far and has the utilization 100. *)
Definition passState (env : Env) (l : list Node) (a : Analysis) : Prop :=
  (maxCycleTime a = num_of_Z 0
   ∧ bottleneckId a = head (startNodeIds env)
   ∧ (∀ node q, node ∈ l → analysed env node = Some (Fin q) → (q == 0)%Q)
   ∧ (∀ id u, nodeUtilizations a !! id = Some u → u = NaN))
  ∨ (∃ M l1 b l2,
       (0 < M)%Q ∧ l = l1 ++ b :: l2
       ∧ maxCycleTime a = Fin M
       ∧ bottleneckId a = Some (node_id b)
       ∧ analysed env b = Some (Fin M)
       ∧ (∀ node q, node ∈ l1 → analysed env node = Some (Fin q) →
                    (q < M)%Q)
       ∧ (∀ node q, node ∈ l → analysed env node = Some (Fin q) →
                    (q <= M)%Q)
       ∧ nodeUtilizations a !! node_id b = Some (num_of_Z 100)
       ∧ (∀ id u, nodeUtilizations a !! id = Some u →
                  u = NaN ∨ ∃ z, u = num_of_Z z ∧ (0 <= z <= 100)%Z)).

(** ** Stopping a run *)

(** The per-node and per-edge updates of the effect that stops a run. *)
Definition stopNode (node : Node) : Node :=
  let d := default emptyNodeData (node_data node) in
  {| node_id := node_id node; node_type := node_type node;
     parentId := parentId node;
     node_data := Some
       {| cycleTime := cycleTime d; maxCapacity := maxCapacity d;
          active := Some false;
          nd_progress := None;
          utilization := None;
          bottleneck := bottleneck d |} |}.

Definition stopEdge (e : Edge) : Edge :=
  let d := default emptyEdgeData (edge_data e) in
  {| edge_id := edge_id e; source := source e; target := target e;
     edge_data := Some
       {| ed_transitTime := ed_transitTime d;
          transitInProgress := Some false;
          ed_transitProgress := Some (num_of_Z 0) |} |}.

(** The branch [!isSimulating && animationFrameRef.current] of the effect
    on [isSimulating], and only that branch.  [frameRef] tells whether
    [animationFrameRef.current] holds a frame id when the branch is
    reached; without one the branch does nothing.  The cleanup of the
    effect, which cancels the pending frame and clears the ref, is not
    part of this definition. *)
Definition stopSimulation (frameRef hasCallback : bool) (st : State)
    : State * list Event :=
  if frameRef then
    ({| activePaths := activePaths st; lastTimestamp := lastTimestamp st;
        st_nodes := map stopNode (st_nodes st);
        st_edges := map stopEdge (st_edges st);
        currentUnitPosition := None;
        scheduled := false |},
     if hasCallback then [EvUnitPosition None] else [])
  else (st, []).

(** The bottleneck flag a node shows. *)
Definition bottleneckMark (node : Node) : option bool :=
  node_data node ≫= bottleneck.

(** ** Editing an edge *)

(** [handleEdgeUpdate]: the edges of id [id] get the data of the event.
    (The label it also sets is not part of [Edge].) *)
Definition handleEdgeUpdate (id : string) (data : option EdgeData)
    (edges : list Edge) : list Edge :=
  map (fun e =>
         if bool_decide (edge_id e = id)
         then {| edge_id := edge_id e; source := source e;
                 target := target e; edge_data := data |}
         else e)
      edges.

(** Two starts agree on the entry points: both report the missing entry
    point, or both start a run with the same groups, start nodes,
    connected set and initial tokens, and with adjacency lists that name
    the same targets in the same order. *)
Definition sameEntry (r r' : option StartResult) : Prop :=
  match r, r' with
  | Some (NoEntryPoint t), Some (NoEntryPoint t') => t = t'
  | Some (Started env st), Some (Started env' st') =>
      groupChildrenMap env' = groupChildrenMap env
      ∧ startNodeIds env' = startNodeIds env
      ∧ connectedNodes env' = connectedNodes env
      ∧ activePaths st' = activePaths st
      ∧ ∀ x, map fst (default [] (edgeMap env' !! x))
             = map fst (default [] (edgeMap env !! x))
  | _, _ => False
  end.

(** Two edges with the same source and target. *)
Definition sameEnds (e e' : Edge) : Prop :=
  source e = source e' ∧ target e = target e'.

(** ** The canvas handlers

    A node as the canvas handlers see it: the node of the engine (id,
    type, [parentId], data) with the React Flow fields these handlers read
    or write.  The editor records the group of a node in [parentNode]. *)
Record XYPosition : Type := { pos_x : num; pos_y : num }.

Record FlowNode : Type := {
  fn_node : Node;
  position : XYPosition;
  parentNode : option string;
  extent : option string
}.

Definition fn_id (n : FlowNode) : string := node_id (fn_node n).
Definition fn_type (n : FlowNode) : string := node_type (fn_node n).

(** The [updatedNodes.map] of [onNodesDelete] for one deleted group: its
    children get their absolute position back and lose their parent. *)
Definition releaseChildren (group : FlowNode) (nodes : list FlowNode)
    : list FlowNode :=
  map (fun node =>
         if bool_decide (parentNode node = Some (fn_id group))
         then {| fn_node := fn_node node;
                 position :=
                   {| pos_x := num_add (pos_x (position group))
                                       (pos_x (position node));
                      pos_y := num_add (pos_y (position group))
                                       (pos_y (position node)) |};
                 parentNode := None;
                 extent := None |}
         else node)
      nodes.

(** [!nodeIds.includes(id)] *)
Definition kept (nodeIds : list string) (id : string) : bool :=
  negb (bool_decide (id ∈ nodeIds)).

(** The nodes and the edges [onNodesDelete] leaves. *)
Definition onNodesDelete_nodes (nodesToDelete nodes : list FlowNode)
    : list FlowNode :=
  let nodeIds := map fn_id nodesToDelete in
  let groupsToDelete :=
    List.filter (fun n => bool_decide (fn_type n = "group")) nodesToDelete in
  if (0 <? length groupsToDelete)%nat then
    let updatedNodes :=
      foldl (fun updatedNodes group => releaseChildren group updatedNodes)
            nodes groupsToDelete in
    List.filter (fun n => kept nodeIds (fn_id n)) updatedNodes
  else List.filter (fun n => kept nodeIds (fn_id n)) nodes.

Definition onNodesDelete_edges (nodesToDelete : list FlowNode)
    (edges : list Edge) : list Edge :=
  let nodeIds := map fn_id nodesToDelete in
  List.filter (fun e => kept nodeIds (source e) && kept nodeIds (target e))
              edges.

(** Every edge of [edges] starts and ends at a node of [nodes]. *)
Definition noDanglingEdge (nodes : list FlowNode) (edges : list Edge) : Prop :=
  ∀ e, e ∈ edges →
       source e ∈ map fn_id nodes ∧ target e ∈ map fn_id nodes.




(** A canvas: the source [S], the sub-flow [G] with the machine [c] dragged
    into it, and the sink [X]. *)
Definition placed (n : Node) (x y : Z) (parent : option string) : FlowNode :=
  {| fn_node := n;
     position := {| pos_x := num_of_Z x; pos_y := num_of_Z y |};
     parentNode := parent;
     extent := match parent with Some _ => Some "parent" | None => None end |}.

Definition canvasNodes : list FlowNode :=
  [placed (equipment "S" 1 1 None) 0 0 None;
   placed (subFlow "G") 300 100 None;
   placed (equipment "c" 2 1 None) 25 45 (Some "G");
   placed (equipment "X" 1 1 None) 800 0 None].





(** [2^-1074], the least positive binary64 number: a product of at least
    this size does not underflow to 0. *)
Definition leastPositive64 : Q := 1 # (2 ^ 1074)%positive.


(** * Supporting lemmas *)

(** ** Basic facts about one pass over the tokens *)

Section TickFacts.

Variable env : Env.
Variable speed : num.

Lemma processPath_next delta fr path :
  nextActivePaths (processPath env speed delta fr path)
  = nextActivePaths fr ++ advance env speed delta path.
Proof.
  unfold advance, processPath.
  destruct (inTransit path).
  - destruct (arrives _ _ _); reflexivity.
  - destruct (nodeDataMap env !! nodeId path) as [[nodeData|]|]; simpl;
      rewrite ?app_nil_r; try reflexivity.
    destruct (num_geb _ _); reflexivity.
Qed.

Lemma processPath_active delta fr path :
  activeNodeIds (processPath env speed delta fr path)
  = activeNodeIds fr ∪ activated env speed delta path.
Proof.
  unfold activated, processPath.
  destruct (inTransit path).
  - destruct (arrives _ _ _); simpl; set_solver.
  - destruct (nodeDataMap env !! nodeId path) as [[nodeData|]|]; simpl;
      try set_solver.
    destruct (num_geb _ _), (groupMode path); simpl; set_solver.
Qed.

Lemma foldl_processPath_next delta paths : ∀ fr,
  nextActivePaths (foldl (processPath env speed delta) fr paths)
  = nextActivePaths fr ++ flat_map (advance env speed delta) paths.
Proof.
  induction paths as [|path paths IH]; intros fr; simpl.
  - by rewrite app_nil_r.
  - rewrite IH, processPath_next. by rewrite <- app_assoc.
Qed.

Lemma tick_flat_map delta paths :
  tick env speed delta paths = flat_map (advance env speed delta) paths.
Proof.
  unfold tick, processPaths.
  by rewrite foldl_processPath_next.
Qed.

Lemma tick_app delta l1 l2 :
  tick env speed delta (l1 ++ l2)
  = tick env speed delta l1 ++ tick env speed delta l2.
Proof. rewrite !tick_flat_map. apply flat_map_app. Qed.

Lemma tick_cons delta path paths :
  tick env speed delta (path :: paths)
  = advance env speed delta path ++ tick env speed delta paths.
Proof. by rewrite !tick_flat_map. Qed.

Lemma foldl_processPath_active delta paths : ∀ fr x,
  x ∈ activeNodeIds (foldl (processPath env speed delta) fr paths)
  ↔ x ∈ activeNodeIds fr
    ∨ ∃ path, path ∈ paths ∧ x ∈ activated env speed delta path.
Proof.
  induction paths as [|path paths IH]; intros fr x; simpl.
  - split; [by left | intros [?|(? & Hin & _)]; [done | by inversion Hin]].
  - rewrite IH, processPath_active, elem_of_union. split.
    + intros [[?|?]|(p & Hp & Hx)]; [by left | right | right].
      * exists path. split; [left | done].
      * exists p. split; [by right | done].
    + intros [?|(p & Hp & Hx)]; [by left; left |].
      apply elem_of_cons in Hp as [->|Hp]; [by left; right |].
      right. by exists p.
Qed.

Lemma processPaths_active delta paths x :
  x ∈ activeNodeIds (processPaths env speed delta paths)
  ↔ ∃ path, path ∈ paths ∧ x ∈ activated env speed delta path.
Proof.
  unfold processPaths. rewrite foldl_processPath_active.
  simpl. set_solver.
Qed.

End TickFacts.

(** ** The adjacency map lists the outgoing edges in edge order *)

Lemma outgoingEdges_snoc edges e x :
  outgoingEdges (edges ++ [e]) x
  = outgoingEdges edges x ++ (if bool_decide (source e = x) then [e] else []).
Proof.
  unfold outgoingEdges. rewrite List.filter_app. simpl.
  by destruct (bool_decide (source e = x)).
Qed.

Lemma buildEdgeMap_lookup edges x :
  buildEdgeMap edges !! x
  = match outgoingEdges edges x with
    | [] => None
    | out => Some (map adjacencyEntry out)
    end.
Proof.
  induction edges as [|e edges IH] using rev_ind; [done|].
  unfold buildEdgeMap in *. rewrite foldl_snoc, outgoingEdges_snoc. simpl.
  destruct (decide (source e = x)) as [->|Hne].
  - rewrite bool_decide_eq_true_2 by done.
    rewrite lookup_insert_eq, IH.
    destruct (outgoingEdges edges x) as [|e' out]; simpl; [done|].
    by rewrite map_app.
  - rewrite bool_decide_eq_false_2 by done.
    rewrite lookup_insert_ne by done. by rewrite app_nil_r.
Qed.

Lemma outgoingEdges_source edges x e :
  e ∈ outgoingEdges edges x ↔ e ∈ edges ∧ source e = x.
Proof.
  unfold outgoingEdges. rewrite !list_elem_of_In, List.filter_In.
  by rewrite bool_decide_eq_true.
Qed.

(** A run that starts has a start node, a finished walk, and the closure
    and initial state built from the inputs. *)
Lemma start_inv nodes edges env st :
  startPlayByPlaySimulation nodes edges = Some (Started env st) →
  computeStartNodeIds nodes edges (buildEdgeMap edges) ≠ []
  ∧ findAllConnected (walkFuel edges) (buildEdgeMap edges)
      (buildGroupChildrenMap nodes)
      (computeStartNodeIds nodes edges (buildEdgeMap edges))
    = Some (connectedNodes env)
  ∧ env = mkEnv nodes edges (connectedNodes env)
  ∧ st = initialState nodes edges.
Proof.
  unfold startPlayByPlaySimulation.
  destruct (computeStartNodeIds nodes edges (buildEdgeMap edges))
    as [|s starts] eqn:Hs; simpl; [done|].
  destruct (findAllConnected _ _ _ _) as [connected|] eqn:Hc; simpl; [|done].
  intros [= <- <-]. simpl. unfold initialState. by rewrite Hs.
Qed.

Lemma nextNodes_start nodes edges env st x :
  startPlayByPlaySimulation nodes edges = Some (Started env st) →
  map (fanOutPath env x) (nextNodes env x)
  = map (transitToken env) (outgoingEdges edges x).
Proof.
  intros (_ & _ & -> & _)%start_inv.
  unfold nextNodes. simpl edgeMap. rewrite buildEdgeMap_lookup.
  assert (Hsrc : ∀ e, e ∈ outgoingEdges edges x → source e = x)
    by (by intros e [_ ?]%outgoingEdges_source).
  replace (default [] _) with (map adjacencyEntry (outgoingEdges edges x))
    by (by destruct (outgoingEdges edges x)).
  rewrite map_map. apply map_ext_in.
  intros e' He'%list_elem_of_In%Hsrc.
  unfold fanOutPath, transitToken, adjacencyEntry. simpl. by rewrite He'.
Qed.

(** ** The walk of [findConnectedNodes] always finishes *)

Section WalkTotal.

Variable em : gmap string (list (string * num)).
Variable gcm : gmap string (list string).
(** A set that holds every id an adjacency list mentions. *)
Variable targets : gset string.
Hypothesis targets_closed :
  ∀ x l edge, em !! x = Some l → edge ∈ l → edge.1 ∈ targets.

Lemma findConnectedNodes_total fuel : ∀ x connected,
  (size ((targets ∪ {[x]}) ∖ connected) ≤ fuel)%nat →
  ∃ connected', findConnectedNodes fuel em gcm x connected = Some connected'
                ∧ connected ⊆ connected'.
Proof.
  induction fuel as [|fuel IH]; intros x connected Hsize.
  - assert (x ∈ connected) as Hx.
    { destruct (decide (x ∈ connected)) as [|Hn]; [done|].
      assert (size ((targets ∪ {[x]}) ∖ connected) = 0) as Hz%size_empty_inv
        by lia.
      set_solver. }
    exists connected. simpl. by rewrite decide_True.
  - simpl. destruct (decide (x ∈ connected)) as [|Hx]; [by exists connected|].
    set (c2 := match gcm !! x with
               | Some children => connected ∪ {[x]} ∪ list_to_set children
               | None => connected ∪ {[x]}
               end).
    assert (connected ∪ {[x]} ⊆ c2) as Hc2
      by (subst c2; destruct (gcm !! x); set_solver).
    assert (∀ (l : list (string * num)) c,
              (∀ edge, edge ∈ l → edge.1 ∈ targets) →
              connected ∪ {[x]} ⊆ c →
              ∃ c', foldl (λ acc edge,
                             acc ≫= findConnectedNodes fuel em gcm edge.1)
                          (Some c) l = Some c' ∧ c ⊆ c') as Hfold.
    { induction l as [|edge l IHl]; intros c Hl Hc; [by exists c|].
      simpl. destruct (IH edge.1 c) as (c1 & -> & Hc1).
      - assert (size ((targets ∪ {[edge.1]}) ∖ c)
                < size ((targets ∪ {[x]}) ∖ connected))%nat; [|lia].
        apply subset_size. split.
        + assert (edge.1 ∈ targets) by (apply Hl; left). set_solver.
        + intros Hsub. assert (x ∈ (targets ∪ {[edge.1]}) ∖ c) as Hin
            by (apply Hsub; set_solver).
          set_solver.
      - destruct (IHl c1) as (c' & -> & Hc').
        + intros e He. apply Hl. by right.
        + set_solver.
        + exists c'. split; [done | set_solver]. }
    destruct (Hfold (default [] (em !! x)) c2) as (c' & -> & Hc'); [|done|].
    + destruct (em !! x) as [l|] eqn:Hl; simpl; [|by intros ? ?%elem_of_nil].
      intros edge He. by apply (targets_closed x l).
    + exists c'. split; [done | set_solver].
Qed.

Lemma findAllConnected_total fuel starts :
  (S (size targets) ≤ fuel)%nat →
  is_Some (findAllConnected fuel em gcm starts).
Proof.
  intros Hfuel. unfold findAllConnected.
  generalize (∅ : gset string).
  induction starts as [|s starts IH]; intros c; simpl; [done|].
  destruct (findConnectedNodes_total fuel s c) as (c' & -> & _); [|apply IH].
  assert (size ((targets ∪ {[s]}) ∖ c) ≤ size (targets ∪ {[s]}))%nat
    by (apply subseteq_size; set_solver).
  assert (size (({[s]} : gset string) ∖ targets) ≤ 1)%nat.
  { rewrite <- (size_singleton (C:=gset string) s).
    apply subseteq_size. set_solver. }
  pose proof (size_union_alt targets {[s]}). lia.
Qed.

End WalkTotal.

Lemma buildEdgeMap_targets edges x l edge :
  buildEdgeMap edges !! x = Some l → edge ∈ l →
  edge.1 ∈ (list_to_set (map target edges) : gset string).
Proof.
  rewrite buildEdgeMap_lookup. intros Hl Hin.
  assert (l = map adjacencyEntry (outgoingEdges edges x)) as ->
    by (destruct (outgoingEdges edges x); naive_solver).
  apply list_elem_of_In, in_map_iff in Hin as (e' & <- & He').
  apply list_elem_of_In, outgoingEdges_source in He' as [He' _].
  apply elem_of_list_to_set, list_elem_of_In, in_map_iff.
  exists e'. split; [done | by apply list_elem_of_In].
Qed.

Lemma size_targets_le edges :
  (size (list_to_set (map target edges) : gset string) ≤ length edges)%nat.
Proof.
  induction edges as [|e edges IH];
    [apply Nat.eq_le_incl, (size_empty (C:=gset string))|].
  cbn [map length]. rewrite list_to_set_cons.
  rewrite size_union_alt, size_singleton.
  assert (size ((list_to_set (map target edges) : gset string)
                ∖ {[target e]})
          ≤ size (list_to_set (map target edges) : gset string))%nat
    by (apply subseteq_size; set_solver).
  lia.
Qed.

(** The model of [startPlayByPlaySimulation] never runs out of fuel. *)
Lemma startPlayByPlaySimulation_total nodes edges :
  is_Some (startPlayByPlaySimulation nodes edges).
Proof.
  unfold startPlayByPlaySimulation. simpl.
  destruct (length _ =? 0)%nat; [done|].
  destruct (findAllConnected_total (buildEdgeMap edges)
              (buildGroupChildrenMap nodes)
              (list_to_set (map target edges))
              (buildEdgeMap_targets edges)
              (walkFuel edges)
              (computeStartNodeIds nodes edges (buildEdgeMap edges)))
    as [c ->]; [|done].
  unfold walkFuel. pose proof (size_targets_le edges). lia.
Qed.

(** ** What a frame writes into the node and edge snapshots *)

Lemma find_none_iff {A} (f : A → bool) (l : list A) :
  List.find f l = None ↔ ∀ a, a ∈ l → f a = false.
Proof.
  induction l as [|a l IH]; simpl.
  - split; [by intros _ ? ?%elem_of_nil | done].
  - destruct (f a) eqn:Hfa.
    + split; [done|]. intros H. specialize (H a). rewrite Hfa in H.
      discriminate H. left.
    + rewrite IH. split.
      * intros H b [->|Hb]%elem_of_cons; [done | by apply H].
      * intros H b Hb. apply H. by right.
Qed.

Lemma elem_of_tick env speed delta paths p' :
  p' ∈ tick env speed delta paths
  ↔ ∃ p, p ∈ paths ∧ p' ∈ advance env speed delta p.
Proof.
  rewrite tick_flat_map, list_elem_of_In, in_flat_map.
  split; intros (p & Hp & Hp'); exists p.
  - by rewrite !list_elem_of_In.
  - by rewrite <- !list_elem_of_In.
Qed.

(** An edge drawn by a token of the pass stays drawn in its frame. *)
Lemma foldl_processPath_edges env speed delta paths : ∀ fr eid,
  is_Some (transitEdges fr !! eid)
  ∨ (∃ p, p ∈ paths ∧ inTransit p = true ∧ transitEdgeId env p = Some eid) →
  is_Some (transitEdges (foldl (processPath env speed delta) fr paths) !! eid).
Proof.
  induction paths as [|path paths IH]; intros fr eid; simpl.
  - intros [?|(? & []%elem_of_nil & _)]. done.
  - intros H. apply IH.
    destruct H as [H|(p & [->|Hp]%elem_of_cons & Htr & Hid)].
    + left. unfold processPath.
      destruct (inTransit path).
      * destruct (transitEdgeId env path) as [eid'|], (arrives _ _ _); simpl;
          try done; destruct (decide (eid' = eid)) as [->|];
          by rewrite ?lookup_insert_eq, ?lookup_insert_ne.
      * destruct (nodeDataMap env !! nodeId path) as [[nodeData|]|];
          try done. by destruct (num_geb _ _).
    + left. unfold processPath. rewrite Htr, Hid.
      destruct (arrives _ _ _); simpl; by rewrite lookup_insert_eq.
    + right. by exists p.
Qed.

(** Which node ids one token can mark active, and which tokens it can
    leave behind. *)
Lemma activated_elem env speed delta p x :
  x ∈ activated env speed delta p →
  (inTransit p = true ∧ transitTo p = x)
  ∨ (inTransit p = false
     ∧ (nodeId p = x ∨ ∃ children, groupMode p = Some children ∧ x ∈ children)).
Proof.
  unfold activated, processPath. destruct (inTransit p).
  - destruct (arrives _ _ _); cbn; [|set_solver].
    intros Hx. left. set_solver.
  - destruct (nodeDataMap env !! nodeId p) as [[nodeData|]|]; [|set_solver..].
    intros Hx. right. split; [done|].
    assert (x ∈ (∅ ∪ {[nodeId p]} : gset string)
            ∨ ∃ children, groupMode p = Some children
                          ∧ x ∈ (list_to_set children : gset string))
      as [Hx'|(children & Hg & Hx')].
    { destruct (num_geb _ _), (groupMode p) as [children|]; cbn in Hx;
        try (left; exact Hx);
        (apply elem_of_union in Hx as [Hx|Hx];
         [by left | right; by exists children]). }
    + left. set_solver.
    + right. exists children. by rewrite elem_of_list_to_set in Hx'.
Qed.

Lemma advance_elem env speed delta p p' :
  p' ∈ advance env speed delta p →
  inTransit p' = true
  ∨ (inTransit p = true ∧ nodeId p' = transitTo p)
  ∨ (inTransit p = false ∧ nodeId p' = nodeId p).
Proof.
  unfold advance, processPath. destruct (inTransit p) eqn:Htr.
  - destruct (arrives _ _ _); cbn;
      intros ->%list_elem_of_singleton; cbn; auto.
  - destruct (nodeDataMap env !! nodeId p) as [[nodeData|]|];
      [|by intros ?%elem_of_nil..].
    destruct (num_geb _ _); cbn.
    + intros (? & -> & _)%list_elem_of_fmap. by left.
    + intros ->%list_elem_of_singleton. cbn. auto.
Qed.

(** ** Start nodes are the pure sources *)

Lemma isPureSource_spec edges n :
  isPureSource edges n = true ↔ pureSource edges n.
Proof.
  unfold isPureSource, pureSource.
  rewrite andb_true_iff, existsb_exists, forallb_forall.
  split; intros [Hout Hin]; split.
  - destruct Hout as (e & He & Hs%bool_decide_eq_true).
    exists e. by rewrite list_elem_of_In.
  - intros e He%list_elem_of_In Ht. specialize (Hin e He).
    by rewrite bool_decide_eq_true_2 in Hin.
  - destruct Hout as (e & He & Hs). exists e.
    by rewrite bool_decide_eq_true, <- list_elem_of_In.
  - intros e He%list_elem_of_In. apply negb_true_iff, bool_decide_eq_false_2.
    by apply Hin.
Qed.

Lemma computeStartNodeIds_spec nodes edges :
  computeStartNodeIds nodes edges (buildEdgeMap edges)
  = map node_id (List.filter (isPureSource edges) nodes).
Proof.
  unfold computeStartNodeIds. f_equal. apply List.filter_ext. intros n.
  unfold isPureSource. rewrite andb_comm. f_equal.
  - rewrite buildEdgeMap_lookup. unfold outgoingEdges.
    induction edges as [|e edges IH]; simpl; [done|].
    destruct (bool_decide (source e = node_id n)); simpl; [done|].
    exact IH.
  - apply eq_true_iff_eq.
    rewrite negb_true_iff, bool_decide_eq_false, forallb_forall.
    rewrite elem_of_list_to_set, list_elem_of_In, in_map_iff. split.
    + intros Hn e He. apply negb_true_iff, bool_decide_eq_false_2.
      intros Ht. apply Hn. by exists e.
    + intros H (e & Ht & He). specialize (H e He).
      by rewrite bool_decide_eq_true_2 in H.
Qed.

(** ** Arithmetic of the progress updates *)

Lemma Qdiv_nonneg (a b : Q) : (0 <= a)%Q → (0 < b)%Q → (0 <= a / b)%Q.
Proof.
  intros Ha Hb. apply Qle_shift_div_l; [done|]. by rewrite Qmult_0_l.
Qed.


Lemma num_div_pos (x y : Q) :
  (0 < y)%Q → num_div (Fin x) (Fin y) = Fin (x / y).
Proof. intros Hy%Qgt_alt. simpl. by rewrite Hy. Qed.

Lemma num_div_zero (x y : Q) :
  (0 < x)%Q → (y == 0)%Q → num_div (Fin x) (Fin y) = PInf.
Proof. intros Hx%Qgt_alt Hy%Qeq_alt. simpl. by rewrite Hy, Hx. Qed.


Lemma num_geb_Fin_false (a b : Q) :
  num_geb (Fin a) (Fin b) = false ↔ (a < b)%Q.
Proof.
  simpl. rewrite <- not_true_iff_false, Qle_bool_iff. split.
  - apply Qnot_le_lt.
  - apply Qlt_not_le.
Qed.

Lemma num_or_cycleTime (o : option num) :
  (o = None ∨ ∃ c, o = Some (Fin c) ∧ (0 <= c)%Q) →
  ∃ c, num_or o (num_of_Z 0) = Fin c ∧ (0 <= c)%Q
       ∧ ∀ c', o = Some (Fin c') → (0 < c')%Q → c = c'.
Proof.
  intros [->|(c & -> & Hc)]; simpl.
  - exists (inject_Z 0). split; [done|]. split; [apply Qle_refl | done].
  - destruct (Qeq_bool c 0) eqn:Hz; simpl.
    + exists (inject_Z 0). split; [done|]. split; [apply Qle_refl|].
      intros c' [= <-] Hpos. apply Qeq_bool_iff in Hz. rewrite Hz in Hpos.
      by apply Qlt_irrefl in Hpos.
    + exists c. split; [done|]. split; [done|]. by intros c' [= <-].
Qed.

Lemma num_or_capacity (d : NodeData) :
  capacityOk d →
  ∃ m, num_or (maxCapacity d) (num_of_Z 1) = Fin m ∧ (1 <= m)%Q.
Proof.
  intros [->|(m & -> & Hm)]; simpl.
  - exists (inject_Z 1). split; [done | apply Qle_refl].
  - destruct (Qeq_bool m 0) eqn:Hz; simpl.
    + apply Qeq_bool_iff in Hz. rewrite Hz in Hm. by apply Qle_not_lt in Hm.
    + by exists m.
Qed.

Lemma effectiveCycleTime_nonneg d :
  nonNegTiming d → ∃ x, effectiveCycleTime d = Fin x ∧ (0 <= x)%Q.
Proof.
  intros [Hc Hm]. unfold effectiveCycleTime.
  destruct (num_or_cycleTime _ Hc) as (c & -> & Hc' & _).
  destruct (num_or_capacity _ Hm) as (m & -> & Hm').
  assert (0 < m)%Q by (eapply Qlt_le_trans; [|exact Hm']; reflexivity).
  exists (c / m)%Q. split; [by apply num_div_pos | by apply Qdiv_nonneg].
Qed.

Lemma positiveTiming_nonNeg d : positiveTiming d → nonNegTiming d.
Proof.
  intros [[Hc|(c & Hc & Hpos)] Hm]; (split; [|done]); [by left|].
  right. exists c. split; [done | by apply Qlt_le_weak].
Qed.

Lemma nonNegTiming_timed d : nonNegTiming d → timedData d.
Proof. apply effectiveCycleTime_nonneg. Qed.

Lemma num_or_stage_capacity (o : option num) :
  (o = None ∨ ∃ m, o = Some (Fin m) ∧ (0 <= m)%Q) →
  ∃ m, num_or o (num_of_Z 1) = Fin m ∧ (0 < m)%Q.
Proof.
  intros [->|(m & -> & Hm)]; simpl.
  - by exists (inject_Z 1).
  - destruct (Qeq_bool m 0) eqn:Hz; simpl.
    + by exists (inject_Z 1).
    + exists m. split; [done|]. apply Qeq_bool_neq in Hz.
      destruct (Qlt_le_dec 0 m) as [|Hle]; [done|].
      destruct Hz. by apply Qle_antisym.
Qed.

Lemma minChildCycleTime_timed ndm children :
  (∀ child d, child ∈ children → ndm !! child = Some (Some d) →
              timedData d) →
  minChildCycleTime ndm children = PInf
  ∨ ∃ x, minChildCycleTime ndm children = Fin x ∧ (0 <= x)%Q.
Proof.
  unfold minChildCycleTime.
  assert (PInf = PInf ∨ ∃ x, PInf = Fin x ∧ (0 <= x)%Q) as Hacc by by left.
  revert Hacc. generalize PInf at 1 3 4 6 as acc.
  induction children as [|child children IH]; intros acc Hacc Hch; [done|].
  simpl. apply IH; [|intros ? ? ?; apply Hch; by right].
  destruct (ndm !! child) as [[d|]|] eqn:Hd; try done.
  destruct (Hch child d) as (x & -> & Hx); [by left|done|].
  destruct Hacc as [->|(a & -> & Ha)]; [right; by exists x|].
  right. unfold num_min, num_leb, num_geb.
  destruct (Qle_bool a x); [by exists a | by exists x].
Qed.

Lemma groupCycleDuration_timed ndm children :
  (∀ child d, child ∈ children → ndm !! child = Some (Some d) →
              timedData d) →
  ∃ x, groupCycleDuration ndm children = Fin x ∧ (0 <= x)%Q.
Proof.
  intros [Hm|(x & Hm & Hx)]%minChildCycleTime_timed;
    unfold groupCycleDuration; rewrite Hm; simpl.
  - exists (inject_Z 1). split; [done | discriminate].
  - by exists x.
Qed.

Lemma cycleDurationOf_timed env path nodeData :
  timedData nodeData →
  (∀ children child d, groupMode path = Some children → child ∈ children →
     nodeDataMap env !! child = Some (Some d) → timedData d) →
  ∃ x, cycleDurationOf env path nodeData = Fin x ∧ (0 <= x)%Q.
Proof.
  intros Hnd Hch. unfold cycleDurationOf.
  destruct (groupMode path) as [children|].
  - apply groupCycleDuration_timed. intros child d. by apply Hch.
  - exact Hnd.
Qed.

Lemma minChildCycleTime_nonneg ndm children :
  (∀ child d, child ∈ children → ndm !! child = Some (Some d) →
              nonNegTiming d) →
  minChildCycleTime ndm children = PInf
  ∨ ∃ x, minChildCycleTime ndm children = Fin x ∧ (0 <= x)%Q.
Proof.
  intros Hch. apply minChildCycleTime_timed.
  intros child d ? ?. by apply nonNegTiming_timed, (Hch child).
Qed.

Lemma groupCycleDuration_nonneg ndm children :
  (∀ child d, child ∈ children → ndm !! child = Some (Some d) →
              nonNegTiming d) →
  ∃ x, groupCycleDuration ndm children = Fin x ∧ (0 <= x)%Q.
Proof.
  intros Hch. apply groupCycleDuration_timed.
  intros child d ? ?. by apply nonNegTiming_timed, (Hch child).
Qed.

Lemma cycleDurationOf_nonneg env path nodeData :
  nonNegTiming nodeData →
  (∀ children child d, groupMode path = Some children → child ∈ children →
     nodeDataMap env !! child = Some (Some d) → nonNegTiming d) →
  ∃ x, cycleDurationOf env path nodeData = Fin x ∧ (0 <= x)%Q.
Proof.
  intros Hnd Hch. apply cycleDurationOf_timed.
  - by apply nonNegTiming_timed.
  - intros children child d ? ? ?.
    by apply nonNegTiming_timed, (Hch children child).
Qed.

(** ** Runs of several ticks *)

Section Runs.

Variable env : Env.
Variable speed : num.




Variable eps : Q.





Lemma tick_singleton delta p :
  tick env speed delta [p] = advance env speed delta p.
Proof. by rewrite tick_cons, app_nil_r. Qed.

End Runs.


Lemma inject_Z_succ (k : nat) :
  (inject_Z (Z.of_nat (S k)) == inject_Z (Z.of_nat k) + 1)%Q.
Proof. by rewrite Nat2Z.inj_succ, <- Z.add_1_r, inject_Z_plus. Qed.

(** ** Every token stage ends *)

Section Stages.

Variable env : Env.
Variable speed : num.
Variable eps : Q.
Hypothesis eps_pos : (0 < eps)%Q.

Lemma num_leb_Fin_zero (t : Q) :
  num_leb (Fin t) (num_of_Z 0) = true ↔ (t <= 0)%Q.
Proof. apply Qle_bool_iff. Qed.




End Stages.

(** ** The maps of the closure, read back *)

Lemma buildNodeDataMap_elem nodes id o :
  buildNodeDataMap nodes !! id = Some o →
  ∃ n, n ∈ nodes ∧ node_id n = id ∧ node_data n = o.
Proof.
  induction nodes as [|n nodes IH] using rev_ind; [done|].
  unfold buildNodeDataMap in *. rewrite foldl_snoc.
  destruct (decide (node_id n = id)) as [<-|Hne].
  - rewrite lookup_insert_eq. intros [= <-].
    exists n. split; [|done]. apply elem_of_app. right. left.
  - rewrite lookup_insert_ne by done.
    intros (n' & Hn' & Hid)%IH. exists n'. split; [|done].
    apply elem_of_app. by left.
Qed.

Lemma buildGroupChildrenMap_elem nodes p children child :
  buildGroupChildrenMap nodes !! p = Some children → child ∈ children →
  ∃ n, n ∈ nodes ∧ node_id n = child ∧ truthyParent n = Some p.
Proof.
  revert children.
  induction nodes as [|n nodes IH] using rev_ind; [done|].
  intros children. unfold buildGroupChildrenMap. rewrite foldl_snoc.
  fold (buildGroupChildrenMap nodes).
  assert (∀ ch : list string,
            buildGroupChildrenMap nodes !! p = Some ch → child ∈ ch →
            ∃ n', n' ∈ nodes ++ [n] ∧ node_id n' = child
                  ∧ truthyParent n' = Some p) as IH'.
  { intros ch Hch Hin. destruct (IH ch Hch Hin) as (n' & ? & ?).
    exists n'. split; [|done]. apply elem_of_app. by left. }
  destruct (truthyParent n) as [p0|] eqn:Hp0; [|apply IH'].
  destruct (decide (p0 = p)) as [->|Hne].
  - rewrite lookup_insert_eq. intros [= <-] [Hin|Hin]%elem_of_app.
    + destruct (_ !! p) as [ch|] eqn:Hch; simpl in Hin;
        [by apply (IH' ch) | by apply elem_of_nil in Hin].
    + apply list_elem_of_singleton in Hin as ->.
      exists n. split; [|done]. apply elem_of_app. right. left.
  - rewrite lookup_insert_ne by done. apply IH'.
Qed.

Lemma elem_of_computeStartNodeIds nodes edges id :
  id ∈ computeStartNodeIds nodes edges (buildEdgeMap edges) →
  ∃ n, n ∈ nodes ∧ node_id n = id ∧ pureSource edges n.
Proof.
  rewrite computeStartNodeIds_spec.
  intros (n & Hid & [Hn Hsrc]%List.filter_In)%list_elem_of_In%in_map_iff.
  exists n. by rewrite list_elem_of_In, <- isPureSource_spec.
Qed.

(** ** Without a reachable cycle, edge steps from reachable nodes end *)

Section Acyclic.

Variable nodes : list Node.
Variable edges : list Edge.
Hypothesis acyclic :
  ∀ x, Reachable nodes edges x → ¬ tc (edgeStep edges) x x.



End Acyclic.

(** ** Every token of an acyclic run is gone after finitely many ticks *)

Section Termination.

Variable nodes : list Node.
Variable edges : list Edge.
Variable env : Env.
Variable st0 : State.
Hypothesis started :
  startPlayByPlaySimulation nodes edges = Some (Started env st0).

Variable speed : num.
Variable eps : Q.
Hypothesis eps_pos : (0 < eps)%Q.

Hypothesis acyclic :
  ∀ x, Reachable nodes edges x → ¬ tc (edgeStep edges) x x.
Hypothesis node_timing :
  ∀ n d, n ∈ nodes → Reachable nodes edges (node_id n) →
         node_data n = Some d → timedData d.
Hypothesis edge_timing :
  ∀ e, e ∈ edges → Reachable nodes edges (source e) →
       ∃ t, edgeTransitTime e = Fin t.





End Termination.

(** ** Frames and ticks *)

Section Frames.

Variable env : Env.
Variable speed : num.
Variable cb : bool.

Lemma animate_bootstrap st timestamp :
  num_eqb (lastTimestamp st) (num_of_Z 0) = true →
  fst (animate env speed cb st timestamp)
  = {| activePaths := activePaths st; lastTimestamp := timestamp;
       st_nodes := st_nodes st; st_edges := st_edges st;
       currentUnitPosition := currentUnitPosition st; scheduled := true |}.
Proof. intros H. unfold animate. by rewrite H. Qed.

Lemma animate_complete st timestamp :
  num_eqb (lastTimestamp st) (num_of_Z 0) = false →
  activePaths st = [] →
  finished env (fst (animate env speed cb st timestamp))
  ∧ snd (animate env speed cb st timestamp) = [EvToast completeToast].
Proof.
  intros Hts Hnil. unfold animate. rewrite Hts, Hnil. simpl.
  split; [|done]. split; [done|]. split; [done|].
  intros node (node0 & -> & _)%list_elem_of_fmap. by exists node0.
Qed.

Lemma animate_tick st timestamp :
  num_eqb (lastTimestamp st) (num_of_Z 0) = false →
  activePaths st ≠ [] →
  activePaths (fst (animate env speed cb st timestamp))
  = tick env speed (frameDelta st timestamp) (activePaths st)
  ∧ lastTimestamp (fst (animate env speed cb st timestamp)) = timestamp
  ∧ scheduled (fst (animate env speed cb st timestamp)) = true.
Proof.
  intros Hts Hne. unfold animate. rewrite Hts.
  by destruct (activePaths st).
Qed.

Lemma runTicks_ext n : ∀ deltas1 deltas2 l,
  (∀ i, deltas1 i = deltas2 i) →
  runTicks env speed deltas1 n l = runTicks env speed deltas2 n l.
Proof.
  induction n as [|n IH]; intros deltas1 deltas2 l Hext; simpl; [done|].
  rewrite Hext. apply IH. intros i. apply Hext.
Qed.

End Frames.

(** ** Time stamps that increase from a positive start are never 0 *)

Section Timestamps.

Variable gap : Q.
Variable ts : nat → Q.
Hypothesis gap_pos : (0 < gap)%Q.
Hypothesis ts_pos : (0 < ts O)%Q.
Hypothesis ts_gap : ∀ i, (ts i + gap <= ts (S i))%Q.

Lemma timestamps_pos i : (0 < ts i)%Q.
Proof.
  induction i as [|i IH]; [done|]. pose proof (ts_gap i). lra.
Qed.

Lemma timestamp_nonzero i :
  num_eqb (Fin (ts i)) (num_of_Z 0) = false.
Proof.
  apply not_true_iff_false. intros Hz%Qeq_bool_iff.
  pose proof (timestamps_pos i) as Hpos. rewrite Hz in Hpos.
  by apply Qlt_irrefl in Hpos.
Qed.

End Timestamps.

(** ** The node list keeps its ids through the frames *)

Lemma animate_node_ids env speed cb st timestamp :
  map node_id (st_nodes (fst (animate env speed cb st timestamp)))
  = map node_id (st_nodes st).
Proof.
  unfold animate. destruct (num_eqb _ _); [done|].
  destruct (activePaths st); simpl; rewrite map_map; by apply map_ext.
Qed.

Lemma runFrames_node_ids env speed cb n : ∀ timestamps st,
  map node_id (st_nodes (runFrames env speed cb timestamps n st))
  = map node_id (st_nodes st).
Proof.
  induction n as [|n IH]; intros timestamps st; simpl; [done|].
  destruct (scheduled st); [|done]. by rewrite IH, animate_node_ids.
Qed.

(** ** The chain of the bottleneck scenario *)

Section Chain.

Variables t1 t2 : Q.
Variable nodes : list Node.
Hypothesis nodes_perm : nodes ≡ₚ chainNodes.

Lemma chain_cases : nodes ∈ permutations chainNodes.
Proof. apply permutations_Permutation. by symmetry. Qed.

Lemma chain_start :
  startPlayByPlaySimulation nodes (chainEdges t1 t2)
  = Some (Started (mkEnv nodes (chainEdges t1 t2) chainConnected)
                  (initialState nodes (chainEdges t1 t2))).
Proof.
  pose proof chain_cases as Hp. vm_compute permutations in Hp.
  repeat (apply elem_of_cons in Hp as [->|Hp]);
    [..|by apply elem_of_nil in Hp]; vm_compute; reflexivity.
Qed.

Lemma chain_analysis :
  bottleneckId (analyze (mkEnv nodes (chainEdges t1 t2) chainConnected))
  = Some "A"
  ∧ nodeUtilizations (analyze (mkEnv nodes (chainEdges t1 t2) chainConnected))
    !! "A" = Some (num_of_Z 100).
Proof.
  pose proof chain_cases as Hp. vm_compute permutations in Hp.
  repeat (apply elem_of_cons in Hp as [->|Hp]);
    [..|by apply elem_of_nil in Hp]; split; vm_compute; reflexivity.
Qed.

(** What the completion pass writes into a node of the chain run. *)
Lemma chain_completeNode node0 :
  ∃ d, node_data (completeNode (mkEnv nodes (chainEdges t1 t2) chainConnected)
                    (analyze (mkEnv nodes (chainEdges t1 t2) chainConnected))
                    node0) = Some d
       ∧ bottleneck d = Some (bool_decide (node_id node0 = "A"))
       ∧ (node_id node0 = "A" → utilization d = Some (num_of_Z 100)).
Proof.
  destruct chain_analysis as [Hb Hu].
  eexists. split; [reflexivity|]. cbn [bottleneck utilization]. split.
  - f_equal. rewrite Hb. cbn [connectedNodes mkEnv].
    destruct (decide (node_id node0 = "A")) as [->|Hne].
    + vm_compute. reflexivity.
    + rewrite (bool_decide_eq_false_2 (node_id node0 = "A")) by done.
      rewrite (bool_decide_eq_false_2 (Some (node_id node0) = Some "A"))
        by congruence.
      apply andb_false_r.
  - intros ->. rewrite Hu. vm_compute. reflexivity.
Qed.

End Chain.

(** ** Facts about the instances *)

Lemma frameTime_pos : (0 < frameTime O)%Q.
Proof. reflexivity. Qed.

Lemma frameTime_gap i : (frameTime i + 16 <= frameTime (S i))%Q.
Proof. unfold frameTime. rewrite (inject_Z_succ (S i)). lra. Qed.

Lemma equipmentData_positive (c m : Z) :
  (0 < c)%Z → (1 <= m)%Z → positiveTiming (equipmentData c m).
Proof.
  intros Hc Hm. split.
  - right. exists (inject_Z c). split; [done|]. unfold Qlt. simpl. lia.
  - right. exists (inject_Z m). split; [done|]. unfold Qle. simpl. lia.
Qed.

Lemma fork_timing id nd :
  nodeDataMap forkEnv !! id = Some (Some nd) → nonNegTiming nd.
Proof.
  intros (n & Hn & _ & Hd)%buildNodeDataMap_elem.
  unfold forkNodes in Hn.
  repeat (apply elem_of_cons in Hn as [->|Hn]);
    [..|by apply elem_of_nil in Hn];
    injection Hd as <-; by apply positiveTiming_nonNeg, equipmentData_positive.
Qed.

(** ** A token that stays at its node *)




(** ** The fork *)





(** ** A state the completion pass has written *)

Lemma finished_intro env st nodes0 :
  scheduled st = false → activePaths st = [] →
  st_nodes st = map (completeNode env (analyze env)) nodes0 →
  finished env st.
Proof.
  intros Hs Hp Hn. split; [done|]. split; [done|].
  rewrite Hn. intros node (node0 & -> & _)%list_elem_of_fmap. by exists node0.
Qed.


(** * The properties of the specification, settled on the model *)

(** ** Groups *)

(** A token that carries the group fields is handled as C1 says: its
    progress advances by the effective delta over the smallest effective
    cycle time of the children (one second if there is none), and every
    child is marked active. *)
Lemma group_mode_tick env speed delta path nodeData children :
  inTransit path = false →
  nodeDataMap env !! nodeId path = Some (Some nodeData) →
  isGroup path = Some true →
  groupChildren path = Some children →
  advancedProgress env speed delta path nodeData
  = num_add (progress path)
      (num_div (num_mul delta speed)
         (if num_eqb (minChildCycleTime (nodeDataMap env) children) PInf
          then num_of_Z 1
          else minChildCycleTime (nodeDataMap env) children))
  ∧ ∀ child, child ∈ children → child ∈ activated env speed delta path.
Proof.
  intros Hat Hdata Hgroup Hchildren.
  assert (groupMode path = Some children) as Hmode
    by (unfold groupMode; by rewrite Hgroup, Hchildren).
  split.
  - unfold advancedProgress, cycleDurationOf. by rewrite Hmode.
  - intros child Hchild. unfold activated, processPath.
    rewrite Hat, Hdata, Hmode.
    destruct (num_geb _ _); cbn; set_solver.
Qed.

(** C1 fails for a group that a token reaches over an edge.  In the run
    of [groupNodes], the token that arrives at the group [G] has lost the
    group fields its transit token carried.  In the next tick of one
    second the group is handled as a normal node with its own (missing)
    cycle time: its progress becomes infinite instead of advancing by
    [1/2], the token leaves [G] at once, and the child [c] is not marked
    active. *)
Theorem group_reached_by_transit_is_not_a_group :
  startPlayByPlaySimulation groupNodes groupEdges
  = Some (Started groupEnv (initialState groupNodes groupEdges))
  ∧ tick groupEnv (num_of_Z 1) (num_of_Z 1)
      (activePaths (initialState groupNodes groupEdges))
    = [transitToken groupEnv (timedEdge "sg" "S" "G" (num_of_Z 1))]
  ∧ groupMode (transitToken groupEnv (timedEdge "sg" "S" "G" (num_of_Z 1)))
    = Some ["c"]
  ∧ runTicks groupEnv (num_of_Z 1) (fun _ => num_of_Z 1) 2
      (activePaths (initialState groupNodes groupEdges))
    = [arrivalPath "G"]
  ∧ groupMode (arrivalPath "G") = None
  ∧ advancedProgress groupEnv (num_of_Z 1) (num_of_Z 1) (arrivalPath "G")
      emptyNodeData
    = PInf
  ∧ num_add (progress (arrivalPath "G"))
      (num_div (num_mul (num_of_Z 1) (num_of_Z 1))
         (groupCycleDuration (nodeDataMap groupEnv) ["c"]))
    = Fin (1 # 2)
  ∧ tick groupEnv (num_of_Z 1) (num_of_Z 1) [arrivalPath "G"]
    = [transitToken groupEnv (timedEdge "gx" "G" "X" (num_of_Z 1))]
  ∧ "c" ∉ activeNodeIds
            (processPaths groupEnv (num_of_Z 1) (num_of_Z 1) [arrivalPath "G"]).
Proof.
  repeat split; try (vm_compute; reflexivity).
  intros H. pose proof (bool_decide_eq_true_2 _ H) as H'.
  vm_compute in H'. discriminate H'.
Qed.

(** ** The connected set *)

(** C2 fails when a child of a group has edges of its own.  The walk
    adds the child [c] of [G] to the connected set without visiting it,
    and the later visit of [c] (a start node itself) returns at once: the
    target [T] of [c]'s edge is left out although [c] is in the set and a
    token reaches [T] in the run. *)
Theorem connected_set_not_closed :
  startPlayByPlaySimulation childEdgeNodes childEdgeEdges
  = Some (Started childEdgeEnv (initialState childEdgeNodes childEdgeEdges))
  ∧ startNodeIds childEdgeEnv = ["G"; "c"]
  ∧ "c" ∈ connectedNodes childEdgeEnv
  ∧ childEdge ∈ env_edges childEdgeEnv
  ∧ source childEdge = "c" ∧ target childEdge = "T"
  ∧ ("T" ∉ connectedNodes childEdgeEnv)
  ∧ arrivalPath "T"
    ∈ runTicks childEdgeEnv (num_of_Z 1) (fun _ => num_of_Z 2) 2
        (activePaths (initialState childEdgeNodes childEdgeEdges)).
Proof.
  split; [vm_compute; reflexivity|].
  split; [vm_compute; reflexivity|].
  split; [apply (bool_decide_eq_true_1 ("c" ∈ connectedNodes childEdgeEnv));
          vm_compute; reflexivity|].
  split; [right; left|].
  split; [reflexivity|]. split; [reflexivity|].
  split; [intros H; pose proof (bool_decide_eq_true_2 _ H) as H';
          vm_compute in H'; discriminate H'|].
  apply list_elem_of_In. vm_compute. auto.
Qed.

(** ** The primary unit *)

(** C3, as stated, fails: with a transiting token first and a token at a
    node second, [null] is reported although a token at a node exists.
    The state is the one the merge graph reaches after its first tick of
    one second. *)
Lemma primary_position_counterexample :
  startPlayByPlaySimulation mergeNodes mergeEdges
  = Some (Started mergeEnv (initialState mergeNodes mergeEdges))
  ∧ snd (animate mergeEnv (num_of_Z 1) true
           (fst (animate mergeEnv (num_of_Z 1) true
                   (initialState mergeNodes mergeEdges) (num_of_Z 1000)))
           (num_of_Z 2000))
    = [EvUnitPosition None]
  ∧ firstAtNode
      (activePaths
         (fst (animate mergeEnv (num_of_Z 1) true
                 (fst (animate mergeEnv (num_of_Z 1) true
                         (initialState mergeNodes mergeEdges) (num_of_Z 1000)))
                 (num_of_Z 2000))))
    ≠ None.
Proof.
  split; [vm_compute; reflexivity|].
  split; [vm_compute; reflexivity|].
  vm_compute. discriminate.
Qed.

(** C3, amended.  After a tick, the position reported through
    [onUnitPositionUpdate] is the node id and progress of the first token
    of the new active set when that token is not in transit (it is then
    also the first non-transiting token), and it is [null] exactly when
    the new active set is empty or its first token is in transit. *)
Theorem primary_position env speed st timestamp :
  num_eqb (lastTimestamp st) (num_of_Z 0) = false →
  activePaths st ≠ [] →
  ∃ pos,
    snd (animate env speed true st timestamp) = [EvUnitPosition pos]
    ∧ (∀ p, head (activePaths (fst (animate env speed true st timestamp)))
            = Some p →
            inTransit p = false →
            pos = Some (nodeId p, progress p)
            ∧ pos = firstAtNode
                      (activePaths (fst (animate env speed true st timestamp))))
    ∧ (pos = None ↔
       ∀ p, head (activePaths (fst (animate env speed true st timestamp)))
            = Some p →
            inTransit p = true).
Proof.
  intros Hts Hne. unfold animate. rewrite Hts.
  destruct (activePaths st) as [|path paths] eqn:Hpaths; [done|].
  cbn [fst snd activePaths].
  exists (primaryPosition (nextActivePaths (processPaths env speed
            (frameDelta st timestamp) (path :: paths)))).
  split; [done|].
  destruct (nextActivePaths _) as [|p next]; simpl.
  - split; [done|]. split; [by intros _ p [=] | done].
  - split.
    + intros ? [= <-] Hat. unfold firstAtNode. simpl. by rewrite Hat.
    + destruct (inTransit p) eqn:Hp; split; try done.
      * by intros _ ? [= <-].
      * intros H. specialize (H p eq_refl). congruence.
Qed.

Lemma primary_position_witness :
  ∃ pos,
    snd (animate mergeEnv (num_of_Z 1) true
           (fst (animate mergeEnv (num_of_Z 1) true
                   (initialState mergeNodes mergeEdges) (num_of_Z 1000)))
           (num_of_Z 2000))
    = [EvUnitPosition pos].
Proof.
  destruct (primary_position mergeEnv (num_of_Z 1)
              (fst (animate mergeEnv (num_of_Z 1) true
                      (initialState mergeNodes mergeEdges) (num_of_Z 1000)))
              (num_of_Z 2000)) as (pos & Hpos & _).
  - reflexivity.
  - vm_compute. discriminate.
  - exists pos. exact Hpos.
Defined.

(** ** Branching *)

(** C4.  Branching law: when the progress of a token at a node reaches 1,
    the token is replaced in the next active set by exactly one transiting
    token per outgoing edge of the node, in the order of the edges, each
    with [transitProgress = 0] and the transit time of its edge; with no
    outgoing edge it is replaced by nothing. *)
Theorem branching_law nodes edges env st speed delta pre path post nodeData :
  startPlayByPlaySimulation nodes edges = Some (Started env st) →
  inTransit path = false →
  nodeDataMap env !! nodeId path = Some (Some nodeData) →
  num_geb (advancedProgress env speed delta path nodeData) (num_of_Z 1) = true →
  tick env speed delta (pre ++ path :: post)
  = tick env speed delta pre
    ++ map (transitToken env) (outgoingEdges edges (nodeId path))
    ++ tick env speed delta post
  ∧ length (map (transitToken env) (outgoingEdges edges (nodeId path)))
    = length (outgoingEdges edges (nodeId path))
  ∧ ∀ e, e ∈ outgoingEdges edges (nodeId path) →
      inTransit (transitToken env e) = true
      ∧ nodeId (transitToken env e) = nodeId path
      ∧ transitTo (transitToken env e) = target e
      ∧ transitTime (transitToken env e) = edgeTransitTime e
      ∧ transitProgress (transitToken env e) = num_of_Z 0.
Proof.
  intros Hstart Hat Hdata Hdone. split; [|split].
  - rewrite tick_app, tick_cons. do 2 f_equal.
    unfold advance, processPath. rewrite Hat, Hdata, Hdone. simpl.
    by apply (nextNodes_start nodes edges env st).
  - by rewrite length_map.
  - intros e [_ Hsrc]%outgoingEdges_source. by simpl.
Qed.

Lemma branching_law_witness :
  tick forkEnv (num_of_Z 1) (num_of_Z 1)
       ([] ++ startPath forkNodes (buildGroupChildrenMap forkNodes) "A" :: [])
  = [transitToken forkEnv (timedEdge "ab" "A" "B" (num_of_Z 2));
     transitToken forkEnv (timedEdge "ac" "A" "C" (num_of_Z 3))].
Proof.
  apply (branching_law forkNodes forkEdges forkEnv
           (initialState forkNodes forkEdges) (num_of_Z 1) (num_of_Z 1) []
           (startPath forkNodes (buildGroupChildrenMap forkNodes) "A") []
           (equipmentData 1 1)).
  - vm_compute. reflexivity.
  - reflexivity.
  - vm_compute. reflexivity.
  - vm_compute. reflexivity.
Defined.

(** ** Entry points *)

(** C5.  When no node is a pure source (has an outgoing edge and is no
    edge's target), starting a run reports the entry-point error and
    creates no run: no token, no frame.  When some node is a pure source
    the run starts, its start nodes are the pure sources in node order,
    and its active set holds one token per start node, at that node, not
    in transit, with progress 0. *)
Theorem entry_point nodes edges :
  ((∀ n, n ∈ nodes → ¬ pureSource edges n) →
   startPlayByPlaySimulation nodes edges
   = Some (NoEntryPoint noEntryPointToast))
  ∧ ((∃ n, n ∈ nodes ∧ pureSource edges n) →
     ∃ env st,
       startPlayByPlaySimulation nodes edges = Some (Started env st)
       ∧ startNodeIds env
         = map node_id (List.filter (isPureSource edges) nodes)
       ∧ activePaths st
         = map (startPath nodes (groupChildrenMap env)) (startNodeIds env)
       ∧ scheduled st = true
       ∧ ∀ id, inTransit (startPath nodes (groupChildrenMap env) id) = false
               ∧ nodeId (startPath nodes (groupChildrenMap env) id) = id
               ∧ progress (startPath nodes (groupChildrenMap env) id)
                 = num_of_Z 0).
Proof.
  split.
  - intros Hnone. unfold startPlayByPlaySimulation. simpl.
    rewrite computeStartNodeIds_spec.
    replace (List.filter (isPureSource edges) nodes) with (@nil Node); [done|].
    symmetry. induction nodes as [|n nodes IH]; simpl; [done|].
    destruct (isPureSource edges n) eqn:Hn.
    + apply isPureSource_spec in Hn. destruct (Hnone n); [left | done].
    + apply IH. intros m Hm. apply Hnone. by right.
  - intros (n & Hn & Hsrc).
    destruct (startPlayByPlaySimulation_total nodes edges) as [r Hr].
    pose proof Hr as Hr'. unfold startPlayByPlaySimulation in Hr'.
    simpl in Hr'. rewrite computeStartNodeIds_spec in Hr'.
    destruct (List.filter (isPureSource edges) nodes) as [|n0 l] eqn:Hf.
    { assert (n ∈ List.filter (isPureSource edges) nodes) as Hin.
      { apply list_elem_of_In, List.filter_In.
        by rewrite <- list_elem_of_In, isPureSource_spec. }
      rewrite Hf in Hin. by apply elem_of_nil in Hin. }
    simpl in Hr'. destruct (findAllConnected _ _ _ _) as [connected|];
      simpl in Hr'; [|done].
    injection Hr' as <-.
    exists (mkEnv nodes edges connected), (initialState nodes edges).
    split; [done|]. simpl. rewrite computeStartNodeIds_spec, Hf.
    done.
Qed.

Lemma entry_point_witness :
  startPlayByPlaySimulation loopNodes loopEdges
  = Some (NoEntryPoint noEntryPointToast)
  ∧ ∃ env st,
      startPlayByPlaySimulation forkNodes forkEdges = Some (Started env st)
      ∧ startNodeIds env = ["A"].
Proof.
  split.
  - apply (proj1 (entry_point loopNodes loopEdges)).
    intros n Hn Hsrc%isPureSource_spec.
    revert Hsrc. apply not_true_iff_false.
    revert n Hn. apply Forall_forall. repeat constructor.
  - destruct (proj2 (entry_point forkNodes forkEdges))
      as (env & st & Hstart & Hids & _).
    + exists (equipment "A" 1 1 None). split; [left|].
      apply isPureSource_spec. reflexivity.
    + exists env, st. split; [exact Hstart|]. rewrite Hids. reflexivity.
Defined.

(** ** The bottleneck scenario *)

(** C6.  In the chain [A → B → C] with cycle times 10, 4, 4 and capacity
    1, whatever the transit times and the order of the node list, the run
    starts, its frames keep the ids of the nodes, and in every state in
    which the run has completed (no frame is requested, no token is left,
    and the completion pass has written the nodes) [A] and no other node
    is marked as the bottleneck and [A] has the utilization 100. *)
Theorem bottleneck_scenario (t1 t2 : Q) nodes st :
  nodes ≡ₚ chainNodes →
  finished (mkEnv nodes (chainEdges t1 t2) chainConnected) st →
  startPlayByPlaySimulation nodes (chainEdges t1 t2)
  = Some (Started (mkEnv nodes (chainEdges t1 t2) chainConnected)
                  (initialState nodes (chainEdges t1 t2)))
  ∧ (∀ speed cb timestamps m,
       map node_id
         (st_nodes (runFrames (mkEnv nodes (chainEdges t1 t2) chainConnected)
                      speed cb timestamps m
                      (initialState nodes (chainEdges t1 t2))))
       = map node_id nodes)
  ∧ ∀ node, node ∈ st_nodes st →
      ∃ d, node_data node = Some d
           ∧ bottleneck d = Some (bool_decide (node_id node = "A"))
           ∧ (node_id node = "A" → utilization d = Some (num_of_Z 100)).
Proof.
  intros Hperm (_ & _ & Hdone).
  split; [by apply chain_start|]. split.
  - intros speed cb timestamps m. by rewrite runFrames_node_ids.
  - intros node Hnode. destruct (Hdone node Hnode) as [node0 ->].
    apply (chain_completeNode t1 t2 nodes Hperm node0).
Qed.

(** An instance: the run of the chain at speed 1000 with frames 16 ms
    apart, in which every stage takes one frame, has completed after its
    seventh frame. *)
Lemma bottleneck_scenario_witness :
  finished chainEnv
    (runFrames chainEnv (Fin 1000) true (fun i => Fin (frameTime i)) 7
       (initialState chainNodes (chainEdges 1 1)))
  ∧ Forall (fun node =>
              ∃ d, node_data node = Some d
                   ∧ bottleneck d = Some (bool_decide (node_id node = "A"))
                   ∧ (node_id node = "A" →
                      utilization d = Some (num_of_Z 100)))
           (st_nodes
              (runFrames chainEnv (Fin 1000) true (fun i => Fin (frameTime i))
                 7 (initialState chainNodes (chainEdges 1 1)))).
Proof.
  assert (finished chainEnv
            (runFrames chainEnv (Fin 1000) true (fun i => Fin (frameTime i)) 7
               (initialState chainNodes (chainEdges 1 1)))) as Hfin.
  { apply (finished_intro _ _
             (st_nodes
                (runFrames chainEnv (Fin 1000) true
                   (fun i => Fin (frameTime i)) 6
                   (initialState chainNodes (chainEdges 1 1)))));
      vm_compute; reflexivity. }
  split; [exact Hfin|]. apply Forall_forall.
  apply (proj2 (proj2 (bottleneck_scenario 1 1 chainNodes _
                         (reflexivity _) Hfin))).
Defined.

(** ** Termination *)






(** ** Monotone progress *)

(** Away from a division of zero by zero, the progress of a token that
    keeps its state does not decrease.  Let the delta be a non-negative
    number, the speed a positive number, and the node timings within the
    data model.  A transiting token with a numeric progress and transit
    time that does not arrive keeps its state and its [transitProgress]
    does not decrease.  A token at a node with a numeric progress that
    does not complete keeps its state and its progress does not decrease,
    unless the delta is 0 at a node whose effective cycle time is 0.  A
    token that arrives restarts at progress 0, and the tokens a completing
    node sends out start at [transitProgress] 0. *)
Lemma progress_monotone env speed delta path (d s q : Q) :
  delta = Fin d → (0 <= d)%Q →
  speed = Fin s → (0 < s)%Q →
  (∀ id nd, nodeDataMap env !! id = Some (Some nd) → nonNegTiming nd) →
  (inTransit path = true →
   transitProgress path = Fin q → transitTime path ≠ NaN →
   arrives speed delta path = false →
   ∃ q', advance env speed delta path = [withTransitProgress path (Fin q')]
         ∧ (q <= q')%Q)
  ∧ (inTransit path = false → progress path = Fin q →
     ∀ nd, nodeDataMap env !! nodeId path = Some (Some nd) →
       (0 < d)%Q ∨ num_eqb (cycleDurationOf env path nd) (num_of_Z 0) = false →
       num_geb (advancedProgress env speed delta path nd) (num_of_Z 1) = false →
       ∃ q', advance env speed delta path = [withProgress path (Fin q')]
             ∧ (q <= q')%Q)
  ∧ (inTransit path = true → arrives speed delta path = true →
     advance env speed delta path = [arrivalPath (transitTo path)]
     ∧ inTransit (arrivalPath (transitTo path)) = false
     ∧ progress (arrivalPath (transitTo path)) = num_of_Z 0)
  ∧ (inTransit path = false →
     ∀ nd, nodeDataMap env !! nodeId path = Some (Some nd) →
       num_geb (advancedProgress env speed delta path nd) (num_of_Z 1) = true →
       ∀ p', p' ∈ advance env speed delta path →
             inTransit p' = true ∧ transitProgress p' = num_of_Z 0).
Proof.
  intros -> Hd -> Hs Htiming.
  assert (0 <= d * s)%Q as Hds
    by (apply Qmult_le_0_compat; [done | by apply Qlt_le_weak]).
  split; [|split; [|split]].
  - intros Htr Hq Hnan Harr. unfold advance, processPath.
    rewrite Htr, Harr. cbn [nextActivePaths emptyFrame app].
    unfold arrives in Harr. apply orb_false_iff in Harr as [_ Hpos].
    unfold advancedTransit. rewrite Hq. cbn [num_mul].
    destruct (transitTime path) as [t| | |] eqn:Ht; [| |done|done].
    + apply num_geb_Fin_false in Hpos. rewrite num_div_pos by done.
      exists (q + d * s / t)%Q. split; [done|].
      pose proof (Qdiv_nonneg _ _ Hds Hpos). lra.
    + exists (q + 0)%Q. split; [done | lra].
  - intros Hat Hq nd Hnd Hcorner Hstay. unfold advance, processPath.
    rewrite Hat, Hnd. fold (advancedProgress env (Fin s) (Fin d) path nd).
    rewrite Hstay. cbn [nextActivePaths emptyFrame app].
    unfold advancedProgress in *. rewrite Hq in *. cbn [num_mul] in *.
    destruct (cycleDurationOf_nonneg env path nd) as (x & Hx & Hx0).
    { by apply (Htiming (nodeId path)). }
    { intros children child nd' _ _. apply Htiming. }
    rewrite Hx in *.
    destruct (Qlt_le_dec 0 x) as [Hpos|Hle].
    + rewrite num_div_pos by done.
      exists (q + d * s / x)%Q. split; [done|].
      pose proof (Qdiv_nonneg _ _ Hds Hpos). lra.
    + assert (x == 0)%Q as Hz by lra.
      destruct Hcorner as [Hdpos|Hne].
      * rewrite num_div_zero in Hstay; [done| |done].
        by apply Qmult_lt_0_compat.
      * simpl in Hne. apply Qeq_bool_neq in Hne. by destruct Hne.
  - intros Htr Harr. unfold advance, processPath. by rewrite Htr, Harr.
  - intros Hat nd Hnd Hdone p'. unfold advance, processPath.
    rewrite Hat, Hnd. fold (advancedProgress env (Fin s) (Fin d) path nd).
    rewrite Hdone. cbn [nextActivePaths emptyFrame app].
    by intros (edge & -> & _)%list_elem_of_fmap.
Qed.


(** A token at a node with data whose progress is NaN stays as it is in
    every tick, whatever the delta and the speed. *)
Lemma advance_nan env speed delta p nd :
  inTransit p = false →
  nodeDataMap env !! nodeId p = Some (Some nd) →
  progress p = NaN →
  advance env speed delta p = [withProgress p NaN].
Proof.
  intros Hat Hnd Hq. unfold advance, processPath. rewrite Hat, Hnd.
  unfold advancedProgress. rewrite Hq. reflexivity.
Qed.

(** C8.  A cycle time of 0 is not guarded like a transit time of 0.  In
    the run of [A → B] with a cycle time of 0 at [A], a first tick of
    delta 0 (a non-negative delta, at the positive speed 1) divides zero
    by zero: the token stays at [A] and its progress goes from 0 to NaN,
    which is not at least 0.  From then on no tick, whatever its delta and
    the speed, moves the token: the run never completes.  The same node
    completes at once in a tick of positive delta, and a transit of
    transit time 0 arrives even in a tick of delta 0, because the arrival
    test, unlike the completion test, also looks at the duration. *)
Theorem zero_cycle_time_stalls (speed : num) (deltas : nat → num) (n : nat) :
  startPlayByPlaySimulation zeroNodes zeroEdges
  = Some (Started zeroEnv (initialState zeroNodes zeroEdges))
  ∧ activePaths (initialState zeroNodes zeroEdges) = [zeroStart]
  ∧ progress zeroStart = num_of_Z 0
  ∧ num_geb (num_of_Z 0) (num_of_Z 0) = true
  ∧ num_gtb (num_of_Z 1) (num_of_Z 0) = true
  ∧ tick zeroEnv (num_of_Z 1) (num_of_Z 0) [zeroStart]
    = [withProgress zeroStart NaN]
  ∧ num_geb NaN (progress zeroStart) = false
  ∧ runTicks zeroEnv speed deltas n [withProgress zeroStart NaN]
    = [withProgress zeroStart NaN]
  ∧ tick zeroEnv (num_of_Z 1) (Fin (1 # 60)) [zeroStart]
    = map (fanOutPath zeroEnv "A") (nextNodes zeroEnv "A")
  ∧ tick zeroEnv (num_of_Z 1) (num_of_Z 0) [forkTransit (num_of_Z 0)]
    = [arrivalPath "B"].
Proof.
  split; [vm_compute; reflexivity|]. split; [reflexivity|].
  split; [reflexivity|]. split; [reflexivity|]. split; [reflexivity|].
  split; [vm_compute; reflexivity|]. split; [reflexivity|].
  split; [|split; vm_compute; reflexivity].
  revert deltas. induction n as [|n IH]; intros deltas; [done|].
  cbn [runTicks]. rewrite tick_singleton.
  rewrite (advance_nan zeroEnv speed (deltas O) (withProgress zeroStart NaN)
             (equipmentData 0 1)); [apply IH|reflexivity| |reflexivity].
  vm_compute. reflexivity.
Qed.

(** ** Degenerate transit times *)

(** C9.  A transiting token whose transit time is at most 0 arrives in the
    next tick whatever the tick's delta and the speed are: it is replaced
    by a token at its target with progress 0.  The division by the transit
    time happens but does not decide the arrival. *)
Theorem zero_transit_arrives env speed delta pre path post :
  inTransit path = true →
  num_leb (transitTime path) (num_of_Z 0) = true →
  tick env speed delta (pre ++ path :: post)
  = tick env speed delta pre
    ++ [arrivalPath (transitTo path)]
    ++ tick env speed delta post
  ∧ inTransit (arrivalPath (transitTo path)) = false
  ∧ nodeId (arrivalPath (transitTo path)) = transitTo path
  ∧ progress (arrivalPath (transitTo path)) = num_of_Z 0.
Proof.
  intros Htransit Hzero. split; [|done].
  rewrite tick_app, tick_cons. do 2 f_equal.
  unfold advance, processPath, arrives.
  by rewrite Htransit, Hzero, orb_true_r.
Qed.

(** An instance: transit time 0 and a tick of delta 0, where the
    progress update computes [0/0]. *)
Lemma zero_transit_arrives_witness :
  advancedTransit (num_of_Z 1) (num_of_Z 0) (forkTransit (num_of_Z 0)) = NaN
  ∧ tick forkEnv (num_of_Z 1) (num_of_Z 0)
         ([] ++ forkTransit (num_of_Z 0) :: [])
    = [arrivalPath "B"].
Proof.
  split; [reflexivity|].
  apply (zero_transit_arrives forkEnv (num_of_Z 1) (num_of_Z 0) []
           (forkTransit (num_of_Z 0)) []); reflexivity.
Defined.

(** ** Transiting tokens and the node snapshot *)

(** C10.  A token that stays in transit marks no node active in its tick
    and stays a transiting token; the edge it is drawn on is reported in
    transit.  Hence a node whose only associated tokens are transiting
    tokens that leave it for another node is reported inactive, with no
    progress, in the snapshot of the frame. *)
Theorem transit_marks_no_node env speed cb st timestamp x :
  num_eqb (lastTimestamp st) (num_of_Z 0) = false →
  activePaths st ≠ [] →
  (∀ p, p ∈ activePaths st → associated p x →
        inTransit p = true ∧ nodeId p = x ∧ transitTo p ≠ x) →
  (∀ p, p ∈ activePaths st → inTransit p = true →
        arrives speed (frameDelta st timestamp) p = false →
        activated env speed (frameDelta st timestamp) p = ∅
        ∧ advance env speed (frameDelta st timestamp) p
          = [withTransitProgress p
               (advancedTransit speed (frameDelta st timestamp) p)]
        ∧ ∀ e, e ∈ st_edges (fst (animate env speed cb st timestamp)) →
               transitEdgeId env p = Some (edge_id e) →
               ∃ d, edge_data e = Some d ∧ transitInProgress d = Some true)
  ∧ (∀ node, node ∈ st_nodes (fst (animate env speed cb st timestamp)) →
             node_id node = x →
             ∃ d, node_data node = Some d
                  ∧ active d = Some false ∧ nd_progress d = None).
Proof.
  intros Hts Hne Hassoc. unfold animate. rewrite Hts.
  destruct (activePaths st) as [|path0 paths0] eqn:Hpaths; [done|].
  rewrite <- Hpaths in *. clear Hpaths Hne. cbn [fst st_nodes st_edges].
  set (delta := frameDelta st timestamp). split.
  - intros p Hp Htr Harr. unfold activated, advance, processPath.
    rewrite Htr, Harr. cbn [activeNodeIds nextActivePaths emptyFrame].
    split; [done|]. split; [done|].
    intros e (e0 & -> & He0)%list_elem_of_fmap Hid. cbn [snapshotEdge edge_id] in *.
    eexists. split; [reflexivity|]. cbn [transitInProgress]. f_equal.
    apply bool_decide_eq_true_2, foldl_processPath_edges. right. by exists p.
  - intros node (node0 & -> & Hnode0)%list_elem_of_fmap Hid.
    cbn [snapshotNode node_id] in *.
    eexists. split; [reflexivity|]. cbn [active nd_progress]. split.
    + f_equal. apply bool_decide_eq_false_2.
      rewrite processPaths_active. intros (p & Hp & Hx).
      specialize (Hassoc p Hp). unfold associated in Hassoc.
      apply activated_elem in Hx as [[Htr Hx]|[Htr Hx]]; rewrite Htr in Hassoc.
      * destruct Hassoc as (_ & _ & ?); [right; congruence | congruence].
      * destruct Hassoc as (? & _); [|done].
        destruct Hx as [?|(children & ? & ?)];
          [left; congruence | right; exists children; by subst x].
    + replace (List.find _ _) with (@None Path); [done|].
      symmetry. apply find_none_iff. intros p' Hp'.
      apply andb_false_iff.
      destruct (decide (nodeId p' = node_id node0)) as [Heq|];
        [|left; by apply bool_decide_eq_false_2].
      right. apply negb_false_iff.
      change (nextActivePaths (processPaths env speed delta (activePaths st)))
        with (tick env speed delta (activePaths st)) in Hp'.
      apply elem_of_tick in Hp' as (p & Hp & Hp').
      specialize (Hassoc p Hp). unfold associated in Hassoc.
      apply advance_elem in Hp' as [?|[[Htr Hid']|[Htr Hid']]]; [done|..];
        rewrite Htr in Hassoc.
      * destruct Hassoc as (_ & _ & ?); [right; congruence | congruence].
      * destruct Hassoc as (? & _); [left; congruence | done].
Qed.

(** An instance: in the merge run, after [A] has sent its unit towards
    [X], the next frame reports [A] inactive and without progress. *)
Lemma transit_marks_no_node_witness :
  Forall (fun node =>
            node_id node = "A" →
            ∃ d, node_data node = Some d
                 ∧ active d = Some false ∧ nd_progress d = None)
         (st_nodes (fst (animate mergeEnv (num_of_Z 1) true
                           mergeAfterFirstTick (num_of_Z 3000)))).
Proof.
  assert (∀ p, p ∈ activePaths mergeAfterFirstTick → associated p "A" →
               inTransit p = true ∧ nodeId p = "A" ∧ transitTo p ≠ "A")
    as Hassoc.
  { assert (∃ l, activePaths mergeAfterFirstTick = l
                 ∧ Forall (fun p =>
                             associated p "A" →
                             inTransit p = true ∧ nodeId p = "A"
                             ∧ transitTo p ≠ "A") l)
      as (l & -> & Hl); [|exact (proj1 (Forall_forall _ _) Hl)].
    eexists. split; [vm_compute; reflexivity|].
    constructor; [|constructor; [|constructor]]; unfold associated; cbn.
    - intros _. repeat split. discriminate.
    - intros [?|(? & ? & _)]; discriminate. }
  apply Forall_forall. intros node Hnode Hid.
  apply (proj2 (transit_marks_no_node mergeEnv (num_of_Z 1) true
                  mergeAfterFirstTick (num_of_Z 3000) "A"
                  eq_refl ltac:(vm_compute; discriminate) Hassoc));
    assumption.
Defined.

(** * Further properties of the code *)

(** ** The maps built when a run starts *)

(** X1.  [edgeMap] has a key exactly for the ids that are the source of
    some edge; the list at a key holds one entry per outgoing edge, in the
    order of the edge list, with the edge's target and its transit time
    after the [|| 0] default; a stored transit time is never NaN. *)
Theorem edgeMap_lists_outgoing_edges edges x :
  (buildEdgeMap edges !! x = None ↔ ∀ e, e ∈ edges → source e ≠ x)
  ∧ (∀ l, buildEdgeMap edges !! x = Some l →
          l = map adjacencyEntry (outgoingEdges edges x) ∧ l ≠ [])
  ∧ (∀ l entry, buildEdgeMap edges !! x = Some l → entry ∈ l →
                entry.2 ≠ NaN).
Proof.
  rewrite buildEdgeMap_lookup. split; [|split].
  - destruct (outgoingEdges edges x) as [|e out] eqn:Hout.
    + split; [|done]. intros _ e He Hsrc.
      assert (e ∈ outgoingEdges edges x) as Hin
        by by apply outgoingEdges_source.
      rewrite Hout in Hin. by apply elem_of_nil in Hin.
    + split; [done|]. intros Hnone.
      assert (e ∈ outgoingEdges edges x) as [He Hsrc]%outgoingEdges_source
        by (rewrite Hout; left).
      by destruct (Hnone e He).
  - intros l Hl. by destruct (outgoingEdges edges x); simplify_eq.
  - intros l entry Hl Hin.
    assert (l = map adjacencyEntry (outgoingEdges edges x)) as ->
      by (by destruct (outgoingEdges edges x); simplify_eq).
    apply list_elem_of_In, in_map_iff in Hin as (e & <- & _).
    unfold adjacencyEntry, edgeTransitTime, num_or. simpl.
    destruct (edge_data e ≫= ed_transitTime) as [[q| | |]|]; simpl; try done.
    by destruct (negb (Qeq_bool q 0)).
Qed.

Lemma childrenOf_snoc nodes n p :
  childrenOf (nodes ++ [n]) p
  = childrenOf nodes p
    ++ (if bool_decide (truthyParent n = Some p) then [node_id n] else []).
Proof.
  unfold childrenOf. rewrite List.filter_app, map_app. simpl.
  by destruct (bool_decide (truthyParent n = Some p)).
Qed.

Lemma buildGroupChildrenMap_lookup nodes p :
  buildGroupChildrenMap nodes !! p
  = match childrenOf nodes p with
    | [] => None
    | children => Some children
    end.
Proof.
  induction nodes as [|n nodes IH] using rev_ind; [done|].
  unfold buildGroupChildrenMap. rewrite foldl_snoc.
  fold (buildGroupChildrenMap nodes). rewrite childrenOf_snoc.
  destruct (truthyParent n) as [p0|] eqn:Hp0.
  - destruct (decide (p0 = p)) as [->|Hne].
    + rewrite bool_decide_eq_true_2 by done. rewrite lookup_insert_eq, IH.
      by destruct (childrenOf nodes p).
    + rewrite bool_decide_eq_false_2 by congruence.
      rewrite lookup_insert_ne by done. by rewrite app_nil_r.
  - rewrite bool_decide_eq_false_2 by done. by rewrite app_nil_r.
Qed.

(** X2.  [groupChildrenMap] has a key exactly for the non-empty strings
    that are the [parentId] of some node, and the list at a key holds the
    ids of those nodes in node order; a missing or empty [parentId]
    contributes nothing, and the empty string is never a key. *)
Theorem groupChildrenMap_lists_children nodes p :
  buildGroupChildrenMap nodes !! p
  = match childrenOf nodes p with
    | [] => None
    | children => Some children
    end
  ∧ (∀ child, child ∈ childrenOf nodes p ↔
              ∃ n, n ∈ nodes ∧ node_id n = child
                   ∧ parentId n = Some p ∧ p ≠ "")
  ∧ buildGroupChildrenMap nodes !! "" = None.
Proof.
  split; [apply buildGroupChildrenMap_lookup|]. split.
  - intros child. unfold childrenOf.
    rewrite list_elem_of_In, in_map_iff. split.
    + intros (n & <- & [Hn Hp%bool_decide_eq_true]%List.filter_In).
      exists n. rewrite list_elem_of_In. split; [done|]. split; [done|].
      unfold truthyParent in Hp. destruct (parentId n) as [p'|]; [|done].
      destruct p'; simpl in Hp; [done|]. by injection Hp as <-.
    + intros (n & Hn & <- & Hp & Hne). exists n. split; [done|].
      apply List.filter_In. rewrite <- list_elem_of_In. split; [done|].
      apply bool_decide_eq_true. unfold truthyParent. rewrite Hp.
      by destruct p.
  - rewrite buildGroupChildrenMap_lookup.
    replace (childrenOf nodes "") with (@nil string); [done|].
    symmetry. unfold childrenOf.
    induction nodes as [|n nodes IH]; [done|]. simpl.
    rewrite bool_decide_eq_false_2; [done|].
    unfold truthyParent. destruct (parentId n) as [[|a p']|]; by simpl.
Qed.

Lemma nodesWithId_snoc nodes n id :
  nodesWithId (nodes ++ [n]) id
  = nodesWithId nodes id ++ (if bool_decide (node_id n = id) then [n] else []).
Proof.
  unfold nodesWithId. rewrite List.filter_app. simpl.
  by destruct (bool_decide (node_id n = id)).
Qed.

Lemma buildNodeDataMap_lookup nodes id :
  buildNodeDataMap nodes !! id = node_data <$> last (nodesWithId nodes id).
Proof.
  induction nodes as [|n nodes IH] using rev_ind; [done|].
  unfold buildNodeDataMap. rewrite foldl_snoc.
  fold (buildNodeDataMap nodes). rewrite nodesWithId_snoc.
  destruct (decide (node_id n = id)) as [<-|Hne].
  - rewrite bool_decide_eq_true_2 by done.
    by rewrite lookup_insert_eq, last_snoc.
  - rewrite bool_decide_eq_false_2 by done.
    by rewrite lookup_insert_ne, app_nil_r.
Qed.

(** X3.  [nodeDataMap] maps an id to the data of the last node that
    carries it (a later node of the same id overwrites an earlier one),
    has no entry for an id no node carries, and, when the ids are
    distinct, maps every node's id to that node's own data. *)
Theorem nodeDataMap_last_wins nodes id :
  buildNodeDataMap nodes !! id = node_data <$> last (nodesWithId nodes id)
  ∧ (buildNodeDataMap nodes !! id = None ↔ id ∉ map node_id nodes)
  ∧ (NoDup (map node_id nodes) →
     ∀ n, n ∈ nodes → buildNodeDataMap nodes !! node_id n = Some (node_data n)).
Proof.
  split; [apply buildNodeDataMap_lookup|]. split.
  - rewrite buildNodeDataMap_lookup, fmap_None, last_None.
    unfold nodesWithId. rewrite list_elem_of_In, in_map_iff. split.
    + intros Hnil (n & Hid & Hn).
      assert (In n (List.filter (λ n, bool_decide (node_id n = id)) nodes))
        as Hin by (apply List.filter_In; by rewrite bool_decide_eq_true).
      by rewrite Hnil in Hin.
    + intros Hnone.
      destruct (List.filter _ nodes) as [|n l] eqn:Hf; [done|].
      assert (In n (n :: l)) as Hin by by left.
      rewrite <- Hf in Hin.
      apply List.filter_In in Hin as [Hn Hid%bool_decide_eq_true].
      destruct Hnone. by exists n.
  - intros Hnd n Hn. rewrite buildNodeDataMap_lookup.
    replace (nodesWithId nodes (node_id n)) with [n]; [done|].
    symmetry. unfold nodesWithId. clear -Hnd Hn.
    induction nodes as [|m nodes IH]; [by apply elem_of_nil in Hn|].
    simpl in *. apply NoDup_cons in Hnd as [Hm Hnd].
    assert (∀ k, k ∈ nodes → node_id k = node_id m → False) as Hfresh.
    { intros k Hk Heq. apply Hm. rewrite <- Heq.
      apply list_elem_of_In, in_map, list_elem_of_In, Hk. }
    apply elem_of_cons in Hn as [->|Hn].
    + rewrite bool_decide_eq_true_2 by done. f_equal.
      clear IH Hnd Hm. induction nodes as [|k nodes IH]; [done|]. simpl.
      rewrite bool_decide_eq_false_2.
      * apply IH. intros k' Hk'. apply Hfresh. by right.
      * intros Heq. apply (Hfresh k); [left | done].
    + rewrite bool_decide_eq_false_2; [by apply IH|].
      intros Heq. by apply (Hfresh n).
Qed.

(** ** The reachability walk *)

Section Walk.

Variable em : gmap string (list (string * num)).
Variable gcm : gmap string (list string).

Lemma closedAt_mono c c' y :
  c ⊆ c' → closedAt em gcm c y → closedAt em gcm c' y.
Proof.
  intros Hsub [Hedges Hchildren]. split.
  - intros l edge Hl Hin. apply Hsub. by apply (Hedges l).
  - intros children child Hch Hin. apply Hsub. by apply (Hchildren children).
Qed.

Lemma walkInv_mono c c' gray gray' :
  c ⊆ c' → gray ⊆ gray' →
  (∀ y, y ∈ c' → y ∉ c → y ∈ gray' ∨ listedChild gcm y) →
  walkInv em gcm c gray → walkInv em gcm c' gray'.
Proof.
  intros Hsub Hgray Hnew Hinv y Hy.
  destruct (decide (y ∈ c)) as [Hc|Hc].
  - destruct (Hinv y Hc) as [?|[?|?]]; [left; set_solver | by right; left |].
    right. right. by apply closedAt_mono with c.
  - destruct (Hnew y Hy Hc); [by left | by right; left].
Qed.

Lemma foldl_walk_None fuel (ids : list string) :
  foldl (λ acc s, acc ≫= findConnectedNodes fuel em gcm s) None ids = None.
Proof. by induction ids. Qed.

Lemma walkStep_nil c : walkStep em gcm [] c c.
Proof.
  split; [done|]. split; [by intros ? ?%elem_of_nil|].
  split; [done|]. by intros R _ _ ?.
Qed.

(** Visits in sequence compose. *)
Lemma walk_fold fuel :
  (∀ x c c', findConnectedNodes fuel em gcm x c = Some c' →
             walkStep em gcm [x] c c') →
  ∀ ids c c',
    foldl (λ acc s, acc ≫= findConnectedNodes fuel em gcm s) (Some c) ids
    = Some c' →
    walkStep em gcm ids c c'.
Proof.
  intros Hcall ids.
  induction ids as [|s ids IH]; intros c c'; simpl.
  - intros [= <-]. apply walkStep_nil.
  - destruct (findConnectedNodes fuel em gcm s c) as [c1|] eqn:Hs; simpl;
      [|by rewrite foldl_walk_None].
    intros Hrest.
    destruct (Hcall _ _ _ Hs) as (Hsub & Hin & Hinv & Hsound).
    destruct (IH _ _ Hrest) as (Hsub' & Hin' & Hinv' & Hsound').
    split; [set_solver|]. split.
    { intros s' [->|Hs']%elem_of_cons; [|by apply Hin'].
      apply Hsub', Hin. left. }
    split; [intros gray ?; by apply Hinv', Hinv|].
    intros R HR Hids Hc. apply Hsound'; [done|..].
    + intros s' Hs'. apply Hids. by right.
    + apply Hsound; [done| |done].
      intros s' ->%list_elem_of_singleton. apply Hids. left.
Qed.

(** What one call of [findConnectedNodes] does to the connected set. *)
Lemma findConnectedNodes_spec fuel : ∀ x c c',
  findConnectedNodes fuel em gcm x c = Some c' → walkStep em gcm [x] c c'.
Proof.
  induction fuel as [|fuel IH]; intros x c c'; simpl;
    destruct (decide (x ∈ c)) as [Hx|Hx]; try done;
    try (intros [= <-]; split; [done|]; split;
         [by intros ? ->%list_elem_of_singleton|];
         split; [done|]; by intros R _ _ ?).
  set (c2 := match gcm !! x with
             | Some children => c ∪ {[x]} ∪ list_to_set children
             | None => c ∪ {[x]}
             end).
  assert (c ∪ {[x]} ⊆ c2) as Hc2
    by (subst c2; destruct (gcm !! x); set_solver).
  assert (∀ y, y ∈ c2 → y ∉ c →
               y = x ∨ ∃ children, gcm !! x = Some children ∧ y ∈ children)
    as Hc2new.
  { subst c2. intros y. destruct (gcm !! x) as [children|].
    - rewrite !elem_of_union, elem_of_singleton, elem_of_list_to_set.
      intros [[?|?]|?] ?; [done | by left | right; by exists children].
    - rewrite elem_of_union, elem_of_singleton.
      intros [?|?] ?; [done | by left]. }
  rewrite <- (foldl_fmap
                (λ acc s, acc ≫= findConnectedNodes fuel em gcm s) _ _ fst).
  intros (Hsub & Hin & Hinv & Hsound)%(walk_fold fuel IH).
  assert (∀ l edge, em !! x = Some l → edge ∈ l → edge.1 ∈ c') as Htargets.
  { intros l edge Hl He. apply Hin. rewrite Hl. simpl.
    apply list_elem_of_fmap. by exists edge. }
  split; [set_solver|]. split.
  { intros ? ->%list_elem_of_singleton. set_solver. }
  split.
  - intros gray Hgray.
    assert (walkInv em gcm c' (gray ∪ {[x]})) as Hinv'.
    { apply Hinv. apply (walkInv_mono c c2 gray); [set_solver..| |done].
      intros y Hy Hn. destruct (Hc2new y Hy Hn) as [->|(children & ? & ?)].
      - left. set_solver.
      - right. by exists x, children. }
    intros y Hy.
    destruct (Hinv' y Hy) as [Hg|[?|?]]; [|by right; left|by right; right].
    apply elem_of_union in Hg as [?|Hg%elem_of_singleton]; [by left|].
    subst y. right. right. split; [done|].
    intros children child Hch Hchild. apply Hsub. subst c2.
    rewrite Hch. set_solver.
  - intros R HR Rx Hc. apply Hsound; [done|..].
    + intros s (edge & -> & He)%list_elem_of_fmap.
      destruct (em !! x) as [l|] eqn:Hl; simpl in He;
        [|by apply elem_of_nil in He].
      apply (proj1 HR x l); [|done..]. apply Rx. left.
    + intros y Hy. destruct (decide (y ∈ c)) as [?|Hn]; [by apply Hc|].
      destruct (Hc2new y Hy Hn) as [->|(children & ? & ?)];
        [apply Rx; left|].
      apply (proj2 HR x children); [|done..]. apply Rx. left.
Qed.

(** The same for the walk from every start node. *)
Lemma findAllConnected_spec fuel starts c' :
  findAllConnected fuel em gcm starts = Some c' →
  walkStep em gcm starts ∅ c'.
Proof. apply walk_fold, findConnectedNodes_spec. Qed.

End Walk.


Lemma edgeMap_entry edges e :
  e ∈ edges →
  ∃ l, buildEdgeMap edges !! source e = Some l ∧ adjacencyEntry e ∈ l.
Proof.
  intros He. rewrite buildEdgeMap_lookup.
  assert (e ∈ outgoingEdges edges (source e)) as Hin
    by by apply outgoingEdges_source.
  destruct (outgoingEdges edges (source e)) as [|e0 out] eqn:Hout;
    [by apply elem_of_nil in Hin|].
  eexists. split; [done|].
  apply list_elem_of_In, in_map, list_elem_of_In, Hin.
Qed.

Lemma edgeMap_entry_inv edges x l edge :
  buildEdgeMap edges !! x = Some l → edge ∈ l →
  ∃ e, e ∈ edges ∧ source e = x ∧ target e = edge.1.
Proof.
  rewrite buildEdgeMap_lookup. intros Hl Hin.
  assert (l = map adjacencyEntry (outgoingEdges edges x)) as ->
    by (destruct (outgoingEdges edges x); naive_solver).
  apply list_elem_of_In, in_map_iff in Hin as (e & <- & He).
  apply list_elem_of_In, outgoingEdges_source in He as [He Hsrc].
  by exists e.
Qed.

Lemma groupChildrenMap_entry nodes n p :
  n ∈ nodes → truthyParent n = Some p →
  ∃ children, buildGroupChildrenMap nodes !! p = Some children
              ∧ node_id n ∈ children.
Proof.
  intros Hn Hp. rewrite buildGroupChildrenMap_lookup.
  assert (node_id n ∈ childrenOf nodes p) as Hin.
  { unfold childrenOf. apply list_elem_of_In, in_map, List.filter_In.
    by rewrite <- list_elem_of_In, bool_decide_eq_true. }
  destruct (childrenOf nodes p) as [|c l]; [by apply elem_of_nil in Hin|].
  by eexists.
Qed.

Lemma reachable_stepClosed nodes edges :
  stepClosed (buildEdgeMap edges) (buildGroupChildrenMap nodes)
             (Reachable nodes edges).
Proof.
  split.
  - intros y l edge Hy Hl Hin.
    destruct (edgeMap_entry_inv _ _ _ _ Hl Hin) as (e & He & Hsrc & <-).
    apply reach_edge with y; [done|]. by exists e.
  - intros y children child Hy Hch Hin.
    destruct (buildGroupChildrenMap_elem _ _ _ _ Hch Hin) as (n & Hn & <- & Hp).
    by apply reach_child with y.
Qed.

(** What the walk of a started run has established. *)
Lemma start_walk nodes edges env st :
  startPlayByPlaySimulation nodes edges = Some (Started env st) →
  walkStep (buildEdgeMap edges) (buildGroupChildrenMap nodes)
           (computeStartNodeIds nodes edges (buildEdgeMap edges))
           ∅ (connectedNodes env).
Proof.
  intros (_ & Hwalk & _)%start_inv. by apply findAllConnected_spec in Hwalk.
Qed.

Lemma start_nodes_reachable nodes edges s :
  s ∈ computeStartNodeIds nodes edges (buildEdgeMap edges) →
  Reachable nodes edges s.
Proof.
  intros (n & Hn & <- & Hsrc)%elem_of_computeStartNodeIds.
  by apply reach_start.
Qed.

(** X4.  The connected set of a started run holds only reachable ids:
    every id in it is a start node or is obtained from one by following
    edges and group-to-child links. *)
Theorem connected_only_reachable nodes edges env st :
  startPlayByPlaySimulation nodes edges = Some (Started env st) →
  ∀ x, x ∈ connectedNodes env → Reachable nodes edges x.
Proof.
  intros (_ & _ & _ & Hsound)%start_walk.
  apply Hsound; [apply reachable_stepClosed| |set_solver].
  apply start_nodes_reachable.
Qed.

Lemma connected_only_reachable_witness :
  Reachable groupNodes groupEdges "X".
Proof.
  apply (connected_only_reachable groupNodes groupEdges groupEnv
           (initialState groupNodes groupEdges)).
  - vm_compute. reflexivity.
  - apply (bool_decide_eq_true_1 ("X" ∈ connectedNodes groupEnv)).
    vm_compute. reflexivity.
Defined.

Lemma connected_closed_or_child nodes edges env st x :
  startPlayByPlaySimulation nodes edges = Some (Started env st) →
  x ∈ connectedNodes env →
  (∃ n p, n ∈ nodes ∧ node_id n = x ∧ truthyParent n = Some p)
  ∨ ((∀ e, e ∈ edges → source e = x → target e ∈ connectedNodes env)
     ∧ (∀ n, n ∈ nodes → truthyParent n = Some x →
             node_id n ∈ connectedNodes env)).
Proof.
  intros (_ & _ & Hinv & _)%start_walk Hx.
  assert (walkInv (buildEdgeMap edges) (buildGroupChildrenMap nodes) ∅ ∅)
    as Hempty by (intros ? ?; set_solver).
  destruct (Hinv ∅ Hempty x Hx)
    as [?|[(p & children & Hch & Hin)|[Hedges Hchildren]]]; [set_solver| |].
  - left.
    destruct (buildGroupChildrenMap_elem _ _ _ _ Hch Hin) as (n & ? & ? & ?).
    by exists n, p.
  - right. split.
    + intros e He <-. destruct (edgeMap_entry edges e He) as (l & Hl & Hin).
      apply (Hedges l _ Hl Hin).
    + intros n Hn Hp.
      destruct (groupChildrenMap_entry nodes n x Hn Hp) as (ch & Hch & Hin).
      apply (Hchildren ch _ Hch Hin).
Qed.

Lemma start_node_connected nodes edges env st n :
  startPlayByPlaySimulation nodes edges = Some (Started env st) →
  n ∈ nodes → pureSource edges n → node_id n ∈ connectedNodes env.
Proof.
  intros (_ & Hstarts & _)%start_walk Hn Hsrc. apply Hstarts.
  rewrite computeStartNodeIds_spec.
  apply list_elem_of_In, in_map, List.filter_In.
  by rewrite <- list_elem_of_In, isPureSource_spec.
Qed.

(** X5.  The connected set of a started run holds every start node, and
    it is closed at every id that is not itself a group child: for an id
    in the set that no node with a [parentId] carries, the targets of its
    outgoing edges and the children of its group are in the set. *)
Theorem connected_closed_off_children nodes edges env st :
  startPlayByPlaySimulation nodes edges = Some (Started env st) →
  (∀ n, n ∈ nodes → pureSource edges n → node_id n ∈ connectedNodes env)
  ∧ ∀ x, x ∈ connectedNodes env →
         (∀ n, n ∈ nodes → node_id n = x → truthyParent n = None) →
         (∀ e, e ∈ edges → source e = x → target e ∈ connectedNodes env)
         ∧ (∀ n, n ∈ nodes → truthyParent n = Some x →
                 node_id n ∈ connectedNodes env).
Proof.
  intros Hstart. split.
  - intros n. by apply (start_node_connected nodes edges env st).
  - intros x Hx Hroot.
    destruct (connected_closed_or_child nodes edges env st x Hstart Hx)
      as [(n & p & Hn & Hid & Hp)|?]; [|done].
    by rewrite (Hroot n Hn Hid) in Hp.
Qed.

Lemma connected_closed_off_children_witness :
  "G" ∈ connectedNodes groupEnv ∧ "c" ∈ connectedNodes groupEnv.
Proof.
  assert (startPlayByPlaySimulation groupNodes groupEdges
          = Some (Started groupEnv (initialState groupNodes groupEdges)))
    as Hstart by (vm_compute; reflexivity).
  destruct (connected_closed_off_children groupNodes groupEdges groupEnv _
              Hstart) as [Hstarts Hclosed].
  assert ("S" ∈ connectedNodes groupEnv) as HS.
  { apply (Hstarts (equipment "S" 1 1 None)); [left|].
    apply isPureSource_spec. reflexivity. }
  assert ("G" ∈ connectedNodes groupEnv) as HG.
  { apply (proj1 (Hclosed "S" HS
             ltac:(intros n Hn Hid; unfold groupNodes in Hn;
                   repeat (apply elem_of_cons in Hn as [->|Hn]);
                   [done..|by apply elem_of_nil in Hn]))
             (timedEdge "sg" "S" "G" (num_of_Z 1))); [left | done]. }
  split; [exact HG|].
  apply (proj2 (Hclosed "G" HG
           ltac:(intros n Hn Hid; unfold groupNodes in Hn;
                 repeat (apply elem_of_cons in Hn as [->|Hn]);
                 [done..|by apply elem_of_nil in Hn]))
           (equipment "c" 2 1 (Some "G"))); [right; right; left | done].
Defined.

(** X6.  When no group child has an outgoing edge or a child of its own,
    the connected set of a started run is exactly the set of reachable
    ids. *)
Theorem connected_exact_without_child_links nodes edges env st :
  startPlayByPlaySimulation nodes edges = Some (Started env st) →
  (∀ n p, n ∈ nodes → truthyParent n = Some p →
          (∀ e, e ∈ edges → source e ≠ node_id n)
          ∧ (∀ m, m ∈ nodes → truthyParent m ≠ Some (node_id n))) →
  ∀ x, x ∈ connectedNodes env ↔ Reachable nodes edges x.
Proof.
  intros Hstart Hleaf x. split.
  - destruct (start_walk nodes edges env st Hstart) as (_ & _ & _ & Hsound).
    apply Hsound; [apply reachable_stepClosed| |set_solver].
    apply start_nodes_reachable.
  - induction 1 as [n Hn Hsrc|x y _ IH (e & He & Hx & Hy)|n p _ IH Hn Hp].
    + by apply (start_node_connected nodes edges env st).
    + destruct (connected_closed_or_child nodes edges env st x Hstart IH)
        as [(n & p & Hn & Hid & Hp)|[Hedges _]].
      * destruct (Hleaf n p Hn Hp) as [Hnone _].
        destruct (Hnone e He). congruence.
      * rewrite <- Hy. by apply Hedges.
    + destruct (connected_closed_or_child nodes edges env st p Hstart IH)
        as [(m & q & Hm & Hid & Hq)|[_ Hchildren]].
      * destruct (Hleaf m q Hm Hq) as [_ Hnone].
        destruct (Hnone n Hn). congruence.
      * by apply Hchildren.
Qed.

Lemma connected_exact_without_child_links_witness :
  "X" ∈ connectedNodes groupEnv ↔ Reachable groupNodes groupEdges "X".
Proof.
  apply (connected_exact_without_child_links groupNodes groupEdges groupEnv
           (initialState groupNodes groupEdges)).
  - vm_compute. reflexivity.
  - intros n p Hn Hp. unfold groupNodes in Hn.
    repeat (apply elem_of_cons in Hn as [->|Hn]);
      [..|by apply elem_of_nil in Hn]; try discriminate Hp.
    split.
    + intros e He. unfold groupEdges in He.
      repeat (apply elem_of_cons in He as [->|He]);
        [..|by apply elem_of_nil in He]; discriminate.
    + intros m Hm. unfold groupNodes in Hm.
      repeat (apply elem_of_cons in Hm as [->|Hm]);
        [..|by apply elem_of_nil in Hm]; discriminate.
Defined.


(** ** One tick *)

(** X7.  The next active set is the concatenation, in the order of the
    active set, of what each token leaves on its own, and a node id is
    marked active in the frame exactly when some token marks it: the
    tokens of a tick do not interact. *)
Theorem frame_is_sum_of_tokens env speed delta paths :
  nextActivePaths (processPaths env speed delta paths)
  = flat_map (advance env speed delta) paths
  ∧ (∀ l1 l2, paths = l1 ++ l2 →
       tick env speed delta paths
       = tick env speed delta l1 ++ tick env speed delta l2)
  ∧ ∀ x, x ∈ activeNodeIds (processPaths env speed delta paths)
         ↔ ∃ p, p ∈ paths ∧ x ∈ activated env speed delta p.
Proof.
  split; [apply tick_flat_map|]. split.
  - intros l1 l2 ->. apply tick_app.
  - intros x. apply processPaths_active.
Qed.

(** X8.  After a tick no token of the active set has reached 1: a token
    at a node has a progress that is not [>= 1], and a transiting token a
    [transitProgress] that is not [>= 1]. *)
Theorem tick_progress_below_one env speed delta paths p :
  p ∈ tick env speed delta paths →
  num_geb (if inTransit p then transitProgress p else progress p)
          (num_of_Z 1) = false.
Proof.
  intros (p0 & _ & Hp)%elem_of_tick. revert Hp.
  unfold advance, processPath. destruct (inTransit p0) eqn:Htr.
  - destruct (arrives speed delta p0) eqn:Harr; cbn;
      intros ->%list_elem_of_singleton; cbn; [done|].
    rewrite Htr. unfold arrives in Harr.
    by apply orb_false_iff in Harr as [? _].
  - destruct (nodeDataMap env !! nodeId p0) as [[nd|]|];
      [|by intros ?%elem_of_nil..].
    destruct (num_geb (advancedProgress env speed delta p0 nd) (num_of_Z 1))
      eqn:Hgeb; cbn.
    + by intros (edge & -> & _)%list_elem_of_fmap.
    + intros ->%list_elem_of_singleton. cbn. by rewrite Htr.
Qed.

Lemma tick_progress_below_one_witness :
  num_geb (progress forkAtNode) (num_of_Z 1) = false.
Proof.
  apply (tick_progress_below_one forkEnv (Fin 1) (Fin (1 # 4))
           [startPath forkNodes (buildGroupChildrenMap forkNodes) "A"]
           forkAtNode).
  vm_compute. left.
Defined.

(** ** The tokens of a run *)

(** The shapes a token of a run can have. *)
Lemma token_shapes_step nodes edges env st speed delta p0 p :
  startPlayByPlaySimulation nodes edges = Some (Started env st) →
  ((∃ e tp, e ∈ edges ∧ p0 = withTransitProgress (transitToken env e) tp)
   ∨ (∃ id q, id ∈ startNodeIds env
              ∧ p0 = withProgress
                       (startPath nodes (groupChildrenMap env) id) q)
   ∨ (∃ e q, e ∈ edges ∧ p0 = withProgress (arrivalPath (target e)) q)) →
  p ∈ advance env speed delta p0 →
  (∃ e tp, e ∈ edges ∧ p = withTransitProgress (transitToken env e) tp)
  ∨ (∃ id q, id ∈ startNodeIds env
             ∧ p = withProgress (startPath nodes (groupChildrenMap env) id) q)
  ∨ (∃ e q, e ∈ edges ∧ p = withProgress (arrivalPath (target e)) q).
Proof.
  intros Hstart Hshape. unfold advance, processPath.
  assert (∀ x, map (fanOutPath env x) (nextNodes env x)
               = map (transitToken env) (outgoingEdges edges x)) as Hfan
    by (intros x; by apply (nextNodes_start nodes edges env st)).
  destruct Hshape as [(e & tp & He & ->)|[(id & q & Hid & ->)|(e & q & He & ->)]];
    cbn [inTransit withTransitProgress withProgress transitToken startPath
         arrivalPath nodeId].
  - destruct (arrives _ _ _); cbn; intros ->%list_elem_of_singleton.
    + right. right. exists e, (num_of_Z 0). by split.
    + left. exists e. eexists. by split.
  - destruct (nodeDataMap env !! id) as [[nd|]|]; [|by intros ?%elem_of_nil..].
    destruct (num_geb _ _); cbn.
    + rewrite Hfan.
      intros (e & -> & [He _]%outgoingEdges_source)%list_elem_of_fmap.
      left. exists e, (num_of_Z 0). by split.
    + intros ->%list_elem_of_singleton. right. left. exists id. eexists.
      by split.
  - destruct (nodeDataMap env !! target e) as [[nd|]|];
      [|by intros ?%elem_of_nil..].
    destruct (num_geb _ _); cbn.
    + rewrite Hfan.
      intros (e' & -> & [He' _]%outgoingEdges_source)%list_elem_of_fmap.
      left. exists e', (num_of_Z 0). by split.
    + intros ->%list_elem_of_singleton. right. right. exists e. eexists.
      by split.
Qed.

Lemma token_shapes nodes edges env st speed n : ∀ deltas paths p,
  startPlayByPlaySimulation nodes edges = Some (Started env st) →
  (∀ p0, p0 ∈ paths →
     (∃ e tp, e ∈ edges ∧ p0 = withTransitProgress (transitToken env e) tp)
     ∨ (∃ id q, id ∈ startNodeIds env
                ∧ p0 = withProgress
                         (startPath nodes (groupChildrenMap env) id) q)
     ∨ (∃ e q, e ∈ edges ∧ p0 = withProgress (arrivalPath (target e)) q)) →
  p ∈ runTicks env speed deltas n paths →
  (∃ e tp, e ∈ edges ∧ p = withTransitProgress (transitToken env e) tp)
  ∨ (∃ id q, id ∈ startNodeIds env
             ∧ p = withProgress (startPath nodes (groupChildrenMap env) id) q)
  ∨ (∃ e q, e ∈ edges ∧ p = withProgress (arrivalPath (target e)) q).
Proof.
  induction n as [|n IH]; intros deltas paths p Hstart Hpaths; simpl.
  - apply Hpaths.
  - apply IH; [done|]. intros p0 (p1 & Hp1 & Hp0)%elem_of_tick.
    apply (token_shapes_step nodes edges env st speed (deltas O) p1);
      auto.
Qed.

Lemma start_token_shapes nodes edges env st p :
  startPlayByPlaySimulation nodes edges = Some (Started env st) →
  p ∈ activePaths st →
  ∃ id q, id ∈ startNodeIds env
          ∧ p = withProgress (startPath nodes (groupChildrenMap env) id) q.
Proof.
  intros (_ & _ & -> & ->)%start_inv. simpl.
  intros (id & -> & Hid)%list_elem_of_fmap. exists id, (num_of_Z 0).
  by split.
Qed.

(** X9.  Tokens only move along edges.  In a run, after any number of
    ticks with any deltas and speed, a transiting token travels along an
    edge of the graph with that edge's (defaulted, never NaN) transit
    time, and a token at a node sits at a start node or at the target of
    an edge. *)
Theorem run_tokens_follow_edges nodes edges env st speed deltas n p :
  startPlayByPlaySimulation nodes edges = Some (Started env st) →
  p ∈ runTicks env speed deltas n (activePaths st) →
  (inTransit p = true →
   ∃ e, e ∈ edges ∧ nodeId p = source e ∧ transitTo p = target e
        ∧ transitTime p = edgeTransitTime e ∧ transitTime p ≠ NaN)
  ∧ (inTransit p = false →
     nodeId p ∈ startNodeIds env ∨ ∃ e, e ∈ edges ∧ nodeId p = target e).
Proof.
  intros Hstart Hp.
  destruct (token_shapes nodes edges env st speed n deltas (activePaths st) p
              Hstart) as [(e & tp & He & ->)|[(id & q & Hid & ->)|(e & q & He & ->)]];
    [|done|..]; cbn.
  - intros p0 Hp0. right. left.
    by apply (start_token_shapes nodes edges env st).
  - split; [|done]. intros _. exists e. repeat split; try done.
    unfold edgeTransitTime, num_or.
    destruct (edge_data e ≫= ed_transitTime) as [[t| | |]|]; simpl; try done.
    by destruct (negb (Qeq_bool t 0)).
  - split; [done|]. intros _. by left.
  - split; [done|]. intros _. right. by exists e.
Qed.

Lemma run_tokens_follow_edges_witness :
  ∃ e, e ∈ forkEdges ∧ source e = "A" ∧ target e = "B".
Proof.
  destruct (proj1 (run_tokens_follow_edges forkNodes forkEdges forkEnv
                     (initialState forkNodes forkEdges) (Fin 1)
                     (fun _ => Fin 1) 1
                     (transitToken forkEnv
                        (timedEdge "ab" "A" "B" (num_of_Z 2)))
                     ltac:(vm_compute; reflexivity)
                     ltac:(vm_compute; left))
             eq_refl) as (e & He & Hs & Ht & _).
  exists e. by split.
Defined.

(** X10.  In a run a token is handled as a group (all children active,
    progress by the fastest child) only at a start node that has
    children; a token at a node it reached over an edge is never handled
    as a group. *)
Theorem group_handling_only_at_start_nodes nodes edges env st speed deltas n
    p children :
  startPlayByPlaySimulation nodes edges = Some (Started env st) →
  p ∈ runTicks env speed deltas n (activePaths st) →
  inTransit p = false →
  groupMode p = Some children →
  nodeId p ∈ startNodeIds env
  ∧ isGroupNode nodes (nodeId p) = true
  ∧ groupChildrenMap env !! nodeId p = Some children.
Proof.
  intros Hstart Hp.
  destruct (token_shapes nodes edges env st speed n deltas (activePaths st) p
              Hstart) as [(e & tp & He & ->)|[(id & q & Hid & ->)|(e & q & He & ->)]];
    [|done|..]; cbn; try done.
  - intros p0 Hp0. right. left.
    by apply (start_token_shapes nodes edges env st).
  - intros _. unfold groupMode. cbn.
    destruct (isGroupNode nodes id); [|done].
    by destruct (groupChildrenMap env !! id); intros [= <-].
Qed.

Lemma group_handling_only_at_start_nodes_witness :
  "G" ∈ startNodeIds childEdgeEnv.
Proof.
  apply (group_handling_only_at_start_nodes childEdgeNodes childEdgeEdges
           childEdgeEnv (initialState childEdgeNodes childEdgeEdges)
           (Fin 1) (fun _ => Fin 1) 0
           (startPath childEdgeNodes (buildGroupChildrenMap childEdgeNodes) "G")
           ["c"]).
  - vm_compute. reflexivity.
  - vm_compute. left.
  - reflexivity.
  - vm_compute. reflexivity.
Defined.

(** X11.  A token at a node id that no node of the run carries is
    dropped by the tick without a trace: the frame gets no token, no
    active id and no transit edge from it, and nothing fails. *)
Theorem orphan_token_dropped nodes edges env st speed delta fr p :
  startPlayByPlaySimulation nodes edges = Some (Started env st) →
  inTransit p = false →
  nodeId p ∉ map node_id nodes →
  processPath env speed delta fr p = fr.
Proof.
  intros (_ & _ & -> & _)%start_inv Hat Hmissing.
  unfold processPath. rewrite Hat. simpl nodeDataMap.
  destruct (buildNodeDataMap nodes !! nodeId p) as [o|] eqn:Hlookup; [|done].
  apply buildNodeDataMap_elem in Hlookup as (n & Hn & Hid & _).
  destruct Hmissing. rewrite <- Hid.
  apply list_elem_of_In, in_map, list_elem_of_In, Hn.
Qed.

Lemma orphan_token_dropped_witness :
  processPath forkEnv (Fin 1) (Fin 1) emptyFrame (arrivalPath "Z") = emptyFrame.
Proof.
  apply (orphan_token_dropped forkNodes forkEdges forkEnv
           (initialState forkNodes forkEdges)).
  - vm_compute. reflexivity.
  - reflexivity.
  - intros Hin. apply list_elem_of_In in Hin. simpl in Hin.
    repeat destruct Hin as [Hin|Hin]; discriminate || done.
Defined.

(** X12.  Let a token that is not handled as a group sit at a node with
    data whose cycle time is missing, zero or NaN and whose capacity is
    missing or a number that is not negative.  A tick whose effective
    delta, [delta * simulationSpeed], is a positive number (of at least
    [2^-1074], the least positive binary64 number, so that the product
    does not underflow to 0) completes the node at once, whatever the
    token's numeric progress: the token is replaced by the fan-out of the
    node.  (A token handled as a group advances by the cycle time of its
    fastest child instead, and a negative capacity is outside this
    statement.) *)
Theorem zero_cycle_completes env speed delta p nd (q d : Q) :
  inTransit p = false →
  nodeDataMap env !! nodeId p = Some (Some nd) →
  groupMode p = None →
  num_or (cycleTime nd) (num_of_Z 0) = num_of_Z 0 →
  (maxCapacity nd = None
   ∨ ∃ m, maxCapacity nd = Some (Fin m) ∧ (0 <= m)%Q) →
  progress p = Fin q →
  num_mul delta speed = Fin d → (leastPositive64 <= d)%Q →
  advance env speed delta p
  = map (fanOutPath env (nodeId p)) (nextNodes env (nodeId p)).
Proof.
  intros Hat Hnd Hmode Hzero Hcap Hq Hd Hleast.
  assert (0 < d)%Q as Hpos
    by (apply Qlt_le_trans with leastPositive64; [reflexivity | exact Hleast]).
  unfold advance, processPath. rewrite Hat, Hnd.
  unfold advancedProgress, cycleDurationOf, effectiveCycleTime.
  rewrite Hmode, Hzero, Hq, Hd.
  destruct (num_or_stage_capacity _ Hcap) as (m & -> & Hm).
  unfold num_of_Z at 1. rewrite num_div_pos by done.
  rewrite num_div_zero; [done|done|].
  unfold Qdiv. by rewrite Qmult_0_l.
Qed.

Lemma zero_cycle_completes_witness :
  advance groupEnv (Fin 1) (Fin 1) (arrivalPath "G")
  = map (fanOutPath groupEnv "G") (nextNodes groupEnv "G").
Proof.
  apply (zero_cycle_completes groupEnv (Fin 1) (Fin 1) (arrivalPath "G")
           emptyNodeData 0 1); try reflexivity.
  - by left.
  - by vm_compute.
Defined.

(** X13.  A tick whose effective delta is 0 (speed 0, or delta 0) freezes
    every token whose current stage has a positive finite duration: the
    token stays in its state and its progress keeps its value.  Nothing
    is reported as an error. *)
Theorem zero_delta_freezes env speed delta p (q : Q) :
  (∃ z, num_mul delta speed = Fin z ∧ (z == 0)%Q) →
  (q < 1)%Q →
  (inTransit p = true → transitProgress p = Fin q →
   (∃ t, transitTime p = Fin t ∧ (0 < t)%Q) →
   ∃ q', advance env speed delta p = [withTransitProgress p (Fin q')]
         ∧ (q' == q)%Q)
  ∧ (inTransit p = false → progress p = Fin q →
     ∀ nd, nodeDataMap env !! nodeId p = Some (Some nd) →
       (∃ c, cycleDurationOf env p nd = Fin c ∧ (0 < c)%Q) →
       ∃ q', advance env speed delta p = [withProgress p (Fin q')]
             ∧ (q' == q)%Q).
Proof.
  intros (z & Hz & Hz0) Hq1. split.
  - intros Htr Hq (t & Ht & Hpos).
    exists (q + z / t)%Q. split.
    + unfold advance, processPath, arrives, advancedTransit.
      rewrite Htr, Hq, Hz, Ht, num_div_pos by done. cbn [num_add].
      assert (num_geb (Fin (q + z / t)) (num_of_Z 1) = false) as ->.
      { apply num_geb_Fin_false. rewrite Hz0. unfold Qdiv, inject_Z.
        rewrite Qmult_0_l. lra. }
      assert (num_leb (Fin t) (num_of_Z 0) = false) as ->.
      { apply not_true_iff_false. rewrite num_leb_Fin_zero.
        by apply Qlt_not_le. }
      done.
    + rewrite Hz0. unfold Qdiv. rewrite Qmult_0_l. lra.
  - intros Hat Hq nd Hnd (c & Hc & Hpos).
    exists (q + z / c)%Q. split.
    + unfold advance, processPath, advancedProgress.
      rewrite Hat, Hnd, Hq, Hz, Hc, num_div_pos by done. cbn [num_add].
      assert (num_geb (Fin (q + z / c)) (num_of_Z 1) = false) as ->.
      { apply num_geb_Fin_false. rewrite Hz0. unfold Qdiv, inject_Z.
        rewrite Qmult_0_l. lra. }
      done.
    + rewrite Hz0. unfold Qdiv. rewrite Qmult_0_l. lra.
Qed.

Lemma zero_delta_freezes_witness :
  ∃ q', advance forkEnv (Fin 0) (Fin 1) forkAtNode
        = [withProgress forkAtNode (Fin q')]
        ∧ (q' == 1 # 4)%Q.
Proof.
  apply (proj2 (zero_delta_freezes forkEnv (Fin 0) (Fin 1) forkAtNode (1 # 4)
                  (ex_intro _ (1 * 0)%Q (conj eq_refl eq_refl)) eq_refl)
           eq_refl eq_refl (equipmentData 1 1) eq_refl).
  exists (1 / 1)%Q. split; reflexivity.
Defined.

(** ** The snapshot of a frame *)

Lemma activated_at_node env speed delta p nd x :
  inTransit p = false →
  nodeDataMap env !! nodeId p = Some (Some nd) →
  x ∈ activated env speed delta p
  ↔ nodeId p = x ∨ ∃ children, groupMode p = Some children ∧ x ∈ children.
Proof.
  intros Hat Hnd. unfold activated, processPath. rewrite Hat, Hnd.
  destruct (num_geb _ _), (groupMode p) as [children|]; cbn;
    set_unfold; naive_solver.
Qed.

Lemma activated_iff env speed delta p x :
  x ∈ activated env speed delta p
  ↔ (inTransit p = true ∧ arrives speed delta p = true ∧ transitTo p = x)
    ∨ (inTransit p = false
       ∧ (∃ nd, nodeDataMap env !! nodeId p = Some (Some nd))
       ∧ (nodeId p = x
          ∨ ∃ children, groupMode p = Some children ∧ x ∈ children)).
Proof.
  destruct (inTransit p) eqn:Htr.
  - unfold activated, processPath. rewrite Htr.
    destruct (arrives speed delta p); cbn; set_unfold; naive_solver.
  - destruct (nodeDataMap env !! nodeId p) as [[nd|]|] eqn:Hnd.
    + rewrite (activated_at_node env speed delta p nd) by done.
      naive_solver.
    + unfold activated, processPath. rewrite Htr, Hnd. cbn.
      set_unfold. naive_solver.
    + unfold activated, processPath. rewrite Htr, Hnd. cbn.
      set_unfold. naive_solver.
Qed.

(** X14.  In the snapshot of a tick a node is reported active exactly
    when, in the active set the tick started from, a token with data sits
    at it (also when that token completes in this tick), a token handled
    as a group has it as a child, or a transiting token arrives at it. *)
Theorem node_active_iff env speed cb st timestamp node :
  num_eqb (lastTimestamp st) (num_of_Z 0) = false →
  activePaths st ≠ [] →
  node ∈ st_nodes (fst (animate env speed cb st timestamp)) →
  ∃ d, node_data node = Some d
       ∧ (active d = Some true ∨ active d = Some false)
       ∧ (active d = Some true ↔
          ∃ p, p ∈ activePaths st
               ∧ ((inTransit p = true
                   ∧ arrives speed (frameDelta st timestamp) p = true
                   ∧ transitTo p = node_id node)
                  ∨ (inTransit p = false
                     ∧ (∃ nd, nodeDataMap env !! nodeId p = Some (Some nd))
                     ∧ (nodeId p = node_id node
                        ∨ ∃ children, groupMode p = Some children
                                      ∧ node_id node ∈ children)))).
Proof.
  intros Hts Hne. unfold animate. rewrite Hts.
  destruct (activePaths st) as [|p0 paths0] eqn:Hpaths; [done|].
  rewrite <- Hpaths. clear Hpaths Hne. cbn [fst st_nodes].
  intros (node0 & -> & _)%list_elem_of_fmap.
  eexists. split; [reflexivity|]. cbn [active snapshotNode node_id]. split.
  - destruct (bool_decide _); auto.
  - split.
    + intros [= Hin%bool_decide_eq_true]. revert Hin.
      rewrite processPaths_active. intros (p & Hp & Hx%activated_iff).
      by exists p.
    + intros (p & Hp & Hx). f_equal. apply bool_decide_eq_true.
      rewrite processPaths_active. exists p. split; [done|].
      by apply activated_iff.
Qed.

Lemma node_active_iff_witness :
  Forall (fun node => ∃ d, node_data node = Some d
                           ∧ (active d = Some true ∨ active d = Some false))
         (st_nodes (fst (animate mergeEnv (num_of_Z 1) true
                           mergeAfterFirstTick (num_of_Z 3000)))).
Proof.
  apply Forall_forall. intros node Hnode.
  destruct (node_active_iff mergeEnv (num_of_Z 1) true mergeAfterFirstTick
              (num_of_Z 3000) node eq_refl
              ltac:(vm_compute; discriminate) Hnode) as (d & Hd & Hb & _).
  by exists d.
Defined.

Lemma foldl_processPath_edges_inv env speed delta paths : ∀ fr eid,
  is_Some (transitEdges (foldl (processPath env speed delta) fr paths) !! eid) →
  is_Some (transitEdges fr !! eid)
  ∨ ∃ p, p ∈ paths ∧ inTransit p = true ∧ transitEdgeId env p = Some eid.
Proof.
  induction paths as [|path paths IH]; intros fr eid; simpl; [by left|].
  intros [H|(p & Hp & Htr & Hid)]%IH.
  - unfold processPath in H. destruct (inTransit path) eqn:Htr.
    + destruct (transitEdgeId env path) as [eid'|] eqn:Hid.
      * destruct (decide (eid' = eid)) as [->|Hne].
        -- right. exists path. split; [left | done].
        -- left. destruct (arrives _ _ _); cbn in H;
             by rewrite lookup_insert_ne in H.
      * left. by destruct (arrives _ _ _).
    + left. destruct (nodeDataMap env !! nodeId path) as [[nd|]|]; try done.
      by destruct (num_geb _ _).
  - right. exists p. split; [by right | done].
Qed.

(** X15.  In the snapshot of a tick an edge is reported in transit
    exactly when some transiting token of positive transit time is drawn
    on it, that is, when its (non-empty) id is the id of the first edge
    from the token's source to its target; this includes a token that
    arrives in this tick.  An edge that is not in transit is reported
    with transit progress 0. *)
Theorem edge_in_transit_iff env speed cb st timestamp e :
  num_eqb (lastTimestamp st) (num_of_Z 0) = false →
  activePaths st ≠ [] →
  e ∈ st_edges (fst (animate env speed cb st timestamp)) →
  ∃ d, edge_data e = Some d
       ∧ (transitInProgress d = Some true ↔
          ∃ p edge, p ∈ activePaths st ∧ inTransit p = true
                    ∧ num_gtb (transitTime p) (num_of_Z 0) = true
                    ∧ List.find (fun e0 => bool_decide (source e0 = nodeId p)
                                           && bool_decide (target e0 = transitTo p))
                                (env_edges env) = Some edge
                    ∧ edge_id edge = edge_id e
                    ∧ edge_id e ≠ "")
       ∧ (transitInProgress d ≠ Some true →
          transitInProgress d = Some false
          ∧ ed_transitProgress d = Some (num_of_Z 0)).
Proof.
  intros Hts Hne. unfold animate. rewrite Hts.
  destruct (activePaths st) as [|p0 paths0] eqn:Hpaths; [done|].
  rewrite <- Hpaths. clear Hpaths Hne. cbn [fst st_edges].
  intros (e0 & -> & _)%list_elem_of_fmap.
  assert (∀ p eid, transitEdgeId env p = Some eid ↔
            ∃ edge, num_gtb (transitTime p) (num_of_Z 0) = true
                    ∧ List.find (fun e1 => bool_decide (source e1 = nodeId p)
                                           && bool_decide (target e1 = transitTo p))
                                (env_edges env) = Some edge
                    ∧ edge_id edge = eid ∧ eid ≠ "") as Hid.
  { intros p eid. unfold transitEdgeId.
    destruct (num_gtb _ _); [|naive_solver].
    destruct (List.find _ _) as [edge|]; [|naive_solver].
    destruct (edge_id edge) as [|a s] eqn:Hedge; simpl.
    - split; [done|]. intros (? & _ & [= <-] & <- & ?). by rewrite Hedge in *.
    - split.
      + intros [= <-]. exists edge. by rewrite Hedge.
      + intros (? & _ & [= <-] & <- & _). by rewrite Hedge. }
  eexists. split; [reflexivity|].
  cbn [transitInProgress ed_transitProgress snapshotEdge edge_id].
  set (fr := processPaths env speed (frameDelta st timestamp) (activePaths st)).
  split; [split|].
  - intros [= Hin%bool_decide_eq_true].
    apply foldl_processPath_edges_inv in Hin
      as [Hin|(p & Hp & Htr & (edge & ? & ? & ? & ?)%Hid)].
    + cbn in Hin. rewrite lookup_empty in Hin. by destruct Hin.
    + by exists p, edge.
  - intros (p & edge & Hp & Htr & Hgt & Hfind & Hedge & Hne).
    f_equal. apply bool_decide_eq_true, foldl_processPath_edges.
    right. exists p. split; [done|]. split; [done|].
    apply Hid. by exists edge.
  - intros Hnot. destruct (transitEdges fr !! edge_id e0) as [v|] eqn:Hv.
    + destruct Hnot. by rewrite bool_decide_eq_true_2.
    + split; [|done]. rewrite bool_decide_eq_false_2; [done|]. by intros [? ?].
Qed.

Lemma edge_in_transit_iff_witness :
  Forall (fun e => ∃ d, edge_data e = Some d)
         (st_edges (fst (animate mergeEnv (num_of_Z 1) true
                           mergeAfterFirstTick (num_of_Z 3000)))).
Proof.
  apply Forall_forall. intros e He.
  destruct (edge_in_transit_iff mergeEnv (num_of_Z 1) true mergeAfterFirstTick
              (num_of_Z 3000) e eq_refl
              ltac:(vm_compute; discriminate) He) as (d & Hd & _).
  by exists d.
Defined.

(** ** Frames *)

Lemma runFrames_unscheduled env speed cb n timestamps st :
  scheduled st = false → runFrames env speed cb timestamps n st = st.
Proof. intros H. destruct n; simpl; [done|]. by rewrite H. Qed.

Lemma frames_are_ticks_from env speed cb n : ∀ timestamps st,
  num_eqb (lastTimestamp st) (num_of_Z 0) = false →
  (∀ i, num_eqb (timestamps i) (num_of_Z 0) = false) →
  scheduled (runFrames env speed cb timestamps n st) = true →
  activePaths (runFrames env speed cb timestamps n st)
  = runTicks env speed (frameDeltas (lastTimestamp st) timestamps) n
      (activePaths st).
Proof.
  induction n as [|n IH]; intros timestamps st Hlast Hts; simpl; [done|].
  destruct (scheduled st) eqn:Hsched; [|by rewrite Hsched].
  destruct (activePaths st) as [|p paths] eqn:Hpaths.
  - destruct (animate_complete env speed cb st (timestamps O) Hlast Hpaths)
      as [(Hstop & _) _].
    rewrite runFrames_unscheduled by done. by rewrite Hstop.
  - destruct (animate_tick env speed cb st (timestamps O) Hlast)
      as (Hact & Hl & Hs); [by rewrite Hpaths|].
    intros Hrun. rewrite IH; [|by rewrite Hl|by intros i|done].
    rewrite Hact, Hl, Hpaths. apply runTicks_ext. by intros [|i].
Qed.

(** X16.  The first frame of a run only records its time stamp; every
    later frame is one tick whose delta is the time since the previous
    frame in seconds.  As long as the run has not completed, the active
    set after the first frame and [n] more frames is the result of [n]
    ticks with these deltas. *)
Theorem frames_are_ticks env speed cb n timestamps st :
  num_eqb (lastTimestamp st) (num_of_Z 0) = true →
  scheduled st = true →
  (∀ i, num_eqb (timestamps i) (num_of_Z 0) = false) →
  scheduled (runFrames env speed cb timestamps (S n) st) = true →
  activePaths (runFrames env speed cb timestamps (S n) st)
  = runTicks env speed
      (frameDeltas (timestamps O) (fun i => timestamps (S i))) n
      (activePaths st).
Proof.
  intros Hfresh Hsched Hts. simpl. rewrite Hsched.
  rewrite (animate_bootstrap env speed cb st (timestamps O) Hfresh).
  intros Hrun. rewrite frames_are_ticks_from; [done|apply Hts| |done].
  intros i. apply Hts.
Qed.

Lemma frames_are_ticks_witness :
  activePaths (runFrames mergeEnv (num_of_Z 1) true
                 (fun i => Fin (frameTime i)) 2
                 (initialState mergeNodes mergeEdges))
  = runTicks mergeEnv (num_of_Z 1)
      (frameDeltas (Fin (frameTime 0)) (fun i => Fin (frameTime (S i)))) 1
      (activePaths (initialState mergeNodes mergeEdges)).
Proof.
  apply (frames_are_ticks mergeEnv (num_of_Z 1) true 1
           (fun i => Fin (frameTime i)) (initialState mergeNodes mergeEdges)
           eq_refl eq_refl).
  - intros i.
    apply (timestamp_nonzero 16%Q frameTime eq_refl frameTime_pos
             frameTime_gap i).
  - vm_compute. reflexivity.
Defined.

(** ** A run leaves the inputs of the next run alone *)

Lemma Forall2_map_same {A} (R : A → A → Prop) (f : A → A) (l : list A) :
  (∀ a, R a (f a)) → Forall2 R l (map f l).
Proof. intros HR. induction l; constructor; auto. Qed.

Lemma sameNode_refl n : sameNode n n.
Proof. by repeat split. Qed.

Lemma sameEdge_refl e : sameEdge e e.
Proof. by repeat split. Qed.

Lemma sameNode_trans n1 n2 n3 : sameNode n1 n2 → sameNode n2 n3 → sameNode n1 n3.
Proof.
  intros (? & ? & ? & ? & ?) (? & ? & ? & ? & ?). repeat split; congruence.
Qed.

Lemma sameEdge_trans e1 e2 e3 : sameEdge e1 e2 → sameEdge e2 e3 → sameEdge e1 e3.
Proof. intros (? & ? & ? & ?) (? & ? & ? & ?). repeat split; congruence. Qed.

Lemma Forall2_trans_same {A} (R : A → A → Prop) (l1 l2 l3 : list A) :
  (∀ a b c, R a b → R b c → R a c) →
  Forall2 R l1 l2 → Forall2 R l2 l3 → Forall2 R l1 l3.
Proof.
  intros Htrans H12. revert l3.
  induction H12; intros l3 H23; inversion H23; subst; constructor; eauto.
Qed.

Lemma animate_same env speed cb st timestamp :
  Forall2 sameNode (st_nodes st)
          (st_nodes (fst (animate env speed cb st timestamp)))
  ∧ Forall2 sameEdge (st_edges st)
            (st_edges (fst (animate env speed cb st timestamp))).
Proof.
  assert (∀ l, Forall2 sameNode l l) as Hn
    by (intros l; induction l; constructor; auto using sameNode_refl).
  assert (∀ l, Forall2 sameEdge l l) as He
    by (intros l; induction l; constructor; auto using sameEdge_refl).
  unfold animate. destruct (num_eqb _ _); [by split|].
  destruct (activePaths st); cbn [fst st_nodes st_edges].
  - split; [|done]. apply Forall2_map_same. intros n.
    unfold sameNode, completeNode. cbn. by destruct (node_data n).
  - split; apply Forall2_map_same.
    + intros n. unfold sameNode, snapshotNode. cbn.
      by destruct (node_data n).
    + intros e. unfold sameEdge, snapshotEdge. cbn.
      by destruct (edge_data e).
Qed.

Lemma runFrames_same env speed cb n : ∀ timestamps st,
  Forall2 sameNode (st_nodes st)
          (st_nodes (runFrames env speed cb timestamps n st))
  ∧ Forall2 sameEdge (st_edges st)
            (st_edges (runFrames env speed cb timestamps n st)).
Proof.
  assert (∀ l, Forall2 sameNode l l) as Hn
    by (intros l; induction l; constructor; auto using sameNode_refl).
  assert (∀ l, Forall2 sameEdge l l) as He
    by (intros l; induction l; constructor; auto using sameEdge_refl).
  induction n as [|n IH]; intros timestamps st; simpl; [by split|].
  destruct (scheduled st); [|by split].
  destruct (animate_same env speed cb st (timestamps O)) as [Hn1 He1].
  destruct (IH (fun i => timestamps (S i))
               (fst (animate env speed cb st (timestamps O)))) as [Hn2 He2].
  split.
  - eapply Forall2_trans_same; [apply sameNode_trans|done..].
  - eapply Forall2_trans_same; [apply sameEdge_trans|done..].
Qed.

Lemma same_outgoing edges edges' x :
  Forall2 sameEdge edges edges' →
  map adjacencyEntry (outgoingEdges edges' x)
  = map adjacencyEntry (outgoingEdges edges x).
Proof.
  unfold outgoingEdges.
  induction 1 as [|e e' l l' (Hid & Hs & Ht & Htt) _ IH]; [done|].
  simpl. rewrite <- Hs.
  destruct (bool_decide (source e = x)); [|exact IH]. simpl.
  rewrite IH. f_equal. unfold adjacencyEntry, edgeTransitTime.
  by rewrite Ht, Htt.
Qed.

Lemma same_edgeMap edges edges' :
  Forall2 sameEdge edges edges' → buildEdgeMap edges' = buildEdgeMap edges.
Proof.
  intros Hsame. apply map_eq. intros x. rewrite !buildEdgeMap_lookup.
  pose proof (same_outgoing edges edges' x Hsame) as Heq.
  destruct (outgoingEdges edges' x), (outgoingEdges edges x);
    try done. by f_equal.
Qed.

Lemma same_childrenOf nodes nodes' p :
  Forall2 sameNode nodes nodes' → childrenOf nodes' p = childrenOf nodes p.
Proof.
  unfold childrenOf.
  induction 1 as [|n n' l l' (Hid & _ & Hp & _) _ IH]; [done|].
  simpl. replace (truthyParent n') with (truthyParent n)
    by (unfold truthyParent; by rewrite Hp).
  destruct (bool_decide (truthyParent n = Some p)); simpl; [|exact IH].
  by rewrite Hid, IH.
Qed.

Lemma same_groupChildrenMap nodes nodes' :
  Forall2 sameNode nodes nodes' →
  buildGroupChildrenMap nodes' = buildGroupChildrenMap nodes.
Proof.
  intros Hsame. apply map_eq. intros p.
  by rewrite !buildGroupChildrenMap_lookup, (same_childrenOf nodes nodes').
Qed.

Lemma same_targets edges edges' :
  Forall2 sameEdge edges edges' → map target edges' = map target edges.
Proof.
  induction 1 as [|e e' l l' (_ & _ & Ht & _) _ IH]; [done|].
  simpl. by rewrite Ht, IH.
Qed.

Lemma same_startNodeIds nodes nodes' edges edges' :
  Forall2 sameNode nodes nodes' → Forall2 sameEdge edges edges' →
  computeStartNodeIds nodes' edges' (buildEdgeMap edges')
  = computeStartNodeIds nodes edges (buildEdgeMap edges).
Proof.
  intros Hnodes Hedges. unfold computeStartNodeIds.
  rewrite (same_edgeMap edges edges'), (same_targets edges edges') by done.
  generalize (list_to_set (map target edges) : gset string) as targets.
  intros targets.
  induction Hnodes as [|n n' l l' (Hid & _) _ IH]; [done|].
  simpl. rewrite <- Hid.
  destruct (negb (bool_decide (node_id n ∈ targets)) && _); simpl;
    by rewrite ?Hid, IH.
Qed.

Lemma same_isGroupNode nodes nodes' id :
  Forall2 sameNode nodes nodes' →
  isGroupNode nodes' id = isGroupNode nodes id.
Proof.
  unfold isGroupNode.
  induction 1 as [|n n' l l' (Hid & Hty & _) _ IH]; [done|].
  simpl. rewrite <- Hid.
  destruct (bool_decide (node_id n = id)); [by rewrite Hty|exact IH].
Qed.

Lemma same_start nodes nodes' edges edges' :
  Forall2 sameNode nodes nodes' → Forall2 sameEdge edges edges' →
  sameStart (startPlayByPlaySimulation nodes edges)
            (startPlayByPlaySimulation nodes' edges').
Proof.
  intros Hnodes Hedges. unfold startPlayByPlaySimulation. cbn zeta.
  rewrite (same_startNodeIds nodes nodes' edges edges') by done.
  rewrite (same_edgeMap edges edges'),
          (same_groupChildrenMap nodes nodes') by done.
  assert (walkFuel edges' = walkFuel edges) as ->
    by (unfold walkFuel; by rewrite <- (Forall2_length _ _ _ Hedges)).
  destruct (length _ =? 0)%nat; [done|].
  destruct (findAllConnected_total (buildEdgeMap edges)
              (buildGroupChildrenMap nodes)
              (list_to_set (map target edges))
              (buildEdgeMap_targets edges)
              (walkFuel edges)
              (computeStartNodeIds nodes edges (buildEdgeMap edges)))
    as [c ->].
  { unfold walkFuel. pose proof (size_targets_le edges). lia. }
  simpl. rewrite (same_startNodeIds nodes nodes' edges edges') by done.
  rewrite (same_edgeMap edges edges'),
          (same_groupChildrenMap nodes nodes') by done.
  repeat split. apply map_ext. intros id. unfold startPath.
  by rewrite (same_isGroupNode nodes nodes').
Qed.

(** X17.  The frames of a run write presentation fields only: whatever
    the frames, every node keeps its id, type, [parentId], cycle time and
    capacity, and every edge its id, source, target and transit time.
    Starting a run from the nodes and edges the frames left behind
    therefore gives the same outcome as starting it from the original
    ones: the same error, or the same adjacency, groups, start nodes,
    connected set and initial tokens. *)
Theorem frames_keep_the_graph env speed cb timestamps n st :
  Forall2 sameNode (st_nodes st)
          (st_nodes (runFrames env speed cb timestamps n st))
  ∧ Forall2 sameEdge (st_edges st)
            (st_edges (runFrames env speed cb timestamps n st))
  ∧ sameStart
      (startPlayByPlaySimulation (st_nodes st) (st_edges st))
      (startPlayByPlaySimulation
         (st_nodes (runFrames env speed cb timestamps n st))
         (st_edges (runFrames env speed cb timestamps n st))).
Proof.
  destruct (runFrames_same env speed cb n timestamps st) as [Hn He].
  split; [done|]. split; [done|]. by apply same_start.
Qed.

(** * The completion pass *)

Lemma analyzeNode_analysed env a node :
  analyzeNode env a node
  = match analysed env node with
    | Some adjusted =>
        let grows := num_gtb adjusted (maxCycleTime a) in
        let maxCycleTime' := if grows then adjusted else maxCycleTime a in
        {| bottleneckId :=
             if grows then Some (node_id node) else bottleneckId a;
           maxCycleTime := maxCycleTime';
           nodeUtilizations :=
             <[node_id node := utilizationOf adjusted maxCycleTime']>
               (nodeUtilizations a) |}
    | None => a
    end.
Proof.
  unfold analyzeNode, analysed.
  destruct (bool_decide _); [|done].
  by destruct (nodeDataMap env !! node_id node) as [[d|]|].
Qed.

Lemma analyze_analyzeOn env : analyze env = analyzeOn env (env_nodes env).
Proof. done. Qed.

Lemma analyzeOn_snoc env l node :
  analyzeOn env (l ++ [node]) = analyzeNode env (analyzeOn env l) node.
Proof. unfold analyzeOn. by rewrite foldl_snoc. Qed.

Lemma analysed_id env n n' :
  node_id n = node_id n' → analysed env n = analysed env n'.
Proof. unfold analysed. by intros ->. Qed.

Lemma adjustedCycleTime_nonneg d :
  nonNegTiming d → ∃ q, adjustedCycleTime d = Fin q ∧ (0 <= q)%Q.
Proof.
  intros [Hc Hm]. unfold adjustedCycleTime. cbn zeta.
  destruct (num_or_cycleTime _ Hc) as (c & -> & Hc' & _).
  destruct (num_or_capacity _ Hm) as (m & -> & Hm').
  assert (0 < m)%Q by (eapply Qlt_le_trans; [|exact Hm']; reflexivity).
  destruct (num_gtb _ _).
  - exists (c / m)%Q. split; [by apply num_div_pos | by apply Qdiv_nonneg].
  - by exists c.
Qed.

Lemma analysed_nonneg env node t :
  connectedTiming env → analysed env node = Some t →
  ∃ q, t = Fin q ∧ (0 <= q)%Q.
Proof.
  intros Htiming. unfold analysed.
  destruct (bool_decide _) eqn:Hc; [|done].
  apply bool_decide_eq_true_1 in Hc.
  destruct (nodeDataMap env !! node_id node) as [[d|]|] eqn:Hd; try done.
  intros [= <-]. apply adjustedCycleTime_nonneg. by apply (Htiming _ _ Hc).
Qed.

Lemma num_min_of_Z (a b : Z) :
  num_min (num_of_Z a) (num_of_Z b) = num_of_Z (Z.min a b).
Proof.
  unfold num_min, num_leb, num_of_Z. cbn [num_geb].
  destruct (Qle_bool (inject_Z a) (inject_Z b)) eqn:Hle.
  - apply Qle_bool_iff in Hle. rewrite <- Zle_Qle in Hle.
    by rewrite Z.min_l.
  - rewrite Z.min_r; [done|].
    destruct (Z.le_gt_cases b a) as [|Hlt]; [done|].
    assert (Qle_bool (inject_Z a) (inject_Z b) = true) as Htrue.
    { apply Qle_bool_iff. rewrite <- Zle_Qle. lia. }
    by rewrite Htrue in Hle.
Qed.

Lemma utilizationOf_full (q : Q) :
  (0 < q)%Q → utilizationOf (Fin q) (Fin q) = num_of_Z 100.
Proof.
  intros Hq. unfold utilizationOf. rewrite num_div_pos by done.
  cbn [num_mul num_of_Z num_round].
  set (z := Qfloor (q / q * inject_Z 100 + (1 # 2))).
  assert (z = 100%Z) as ->; [|done].
  subst z.
  assert (q / q * inject_Z 100 + (1 # 2) == 201 # 2)%Q as ->; [|done].
  unfold inject_Z. field. intros Hz. rewrite Hz in Hq.
  by apply Qlt_irrefl in Hq.
Qed.

Lemma utilizationOf_zero (q : Q) :
  (q == 0)%Q → utilizationOf (Fin q) (num_of_Z 0) = NaN.
Proof.
  intros Hq%Qeq_alt. unfold utilizationOf. simpl. by rewrite Hq.
Qed.

Lemma utilizationOf_range (q M : Q) :
  (0 <= q)%Q → (q <= M)%Q → (0 < M)%Q →
  ∃ z, utilizationOf (Fin q) (Fin M) = num_of_Z z ∧ (0 <= z <= 100)%Z.
Proof.
  intros Hq HqM HM. unfold utilizationOf. rewrite num_div_pos by done.
  cbn [num_mul num_of_Z num_round].
  set (z := Qfloor (q / M * inject_Z 100 + (1 # 2))).
  assert (0 <= q / M)%Q as Hlo by by apply Qdiv_nonneg.
  assert (q / M <= 1)%Q as Hhi.
  { apply Qle_shift_div_r; [done|]. by rewrite Qmult_1_l. }
  assert (0 <= z <= 100)%Z as Hz.
  { split.
    - change 0%Z with (Qfloor 0). apply Qfloor_resp_le.
      unfold inject_Z. lra.
    - change 100%Z with (Qfloor (201 # 2)). apply Qfloor_resp_le.
      unfold inject_Z. lra. }
  exists (Z.min 100 z). split; [|lia].
  apply (num_min_of_Z 100 z).
Qed.

Lemma num_gtb_Fin (a b : Q) : num_gtb (Fin a) (Fin b) = true ↔ (b < a)%Q.
Proof.
  simpl. rewrite negb_true_iff, <- not_true_iff_false, Qle_bool_iff. split.
  - apply Qnot_le_lt.
  - apply Qlt_not_le.
Qed.

Lemma num_gtb_Fin_false (a b : Q) :
  num_gtb (Fin a) (Fin b) = false ↔ (a <= b)%Q.
Proof. simpl. rewrite negb_false_iff. apply Qle_bool_iff. Qed.

Lemma elem_of_snoc_inv {A} (x y : A) (l : list A) :
  x ∈ l ++ [y] → x ∈ l ∨ x = y.
Proof.
  intros [?|Hx]%elem_of_app; [by left|].
  right. by apply list_elem_of_singleton in Hx.
Qed.

Lemma analyzeOn_state env l :
  connectedTiming env → passState env l (analyzeOn env l).
Proof.
  intros Htiming. induction l as [|x l IH] using rev_ind.
  { left. split; [done|]. split; [done|]. split.
    - by intros node q ?%elem_of_nil.
    - intros id u. unfold analyzeOn. simpl. by rewrite lookup_empty. }
  rewrite analyzeOn_snoc, analyzeNode_analysed.
  destruct (analysed env x) as [t|] eqn:Hx.
  - destruct (analysed_nonneg env x t Htiming Hx) as (q & -> & Hq).
    destruct IH as [(Hmax & Hb & Hall & Hu)
                   |(M & l1 & b & l2 & HM & -> & Hmax & Hb & Hab & Hlt & Hle
                     & H100 & Hu)];
      rewrite Hmax; cbn zeta.
    + unfold num_of_Z at 1 2 4.
      destruct (num_gtb (Fin q) (Fin (inject_Z 0))) eqn:Hgrow.
      * apply num_gtb_Fin in Hgrow. right. exists q, l, x, [].
        split; [done|]. split; [done|]. split; [done|]. split; [done|].
        split; [done|]. split; [|split; [|split]].
        -- intros node q' Hnode Hq'. rewrite (Hall node q' Hnode Hq').
           exact Hgrow.
        -- intros node q' [Hnode| ->]%elem_of_snoc_inv Hq'.
           ++ rewrite (Hall node q' Hnode Hq'). by apply Qlt_le_weak.
           ++ rewrite Hx in Hq'. injection Hq' as <-. apply Qle_refl.
        -- cbn. rewrite lookup_insert_eq. f_equal.
           by apply utilizationOf_full.
        -- cbn. intros id u.
           destruct (decide (id = node_id x)) as [->|Hne].
           ++ rewrite lookup_insert_eq. intros [= <-]. right. exists 100%Z.
              split; [by apply utilizationOf_full | lia].
           ++ rewrite lookup_insert_ne by done. intros Hid%Hu. by left.
      * apply num_gtb_Fin_false in Hgrow.
        assert (q == 0)%Q as Hq0 by (apply Qle_antisym; done).
        left. split; [done|]. split; [done|]. split.
        -- intros node q' [Hnode| ->]%elem_of_snoc_inv Hq'.
           ++ by apply (Hall node).
           ++ rewrite Hx in Hq'. by injection Hq' as <-.
        -- cbn. intros id u.
           destruct (decide (id = node_id x)) as [->|Hne].
           ++ rewrite lookup_insert_eq. intros [= <-].
              by apply utilizationOf_zero.
           ++ rewrite lookup_insert_ne by done. apply Hu.
    + destruct (num_gtb (Fin q) (Fin M)) eqn:Hgrow.
      * apply num_gtb_Fin in Hgrow. right.
        exists q, (l1 ++ b :: l2), x, [].
        assert (0 < q)%Q as Hpos by (by eapply Qlt_trans).
        split; [done|]. split; [done|]. split; [done|]. split; [done|].
        split; [done|]. split; [|split; [|split]].
        -- intros node q' Hnode Hq'.
           eapply Qle_lt_trans; [by apply (Hle node)|done].
        -- intros node q' [Hnode| ->]%elem_of_snoc_inv Hq'.
           ++ apply Qlt_le_weak.
              eapply Qle_lt_trans; [by apply (Hle node)|done].
           ++ rewrite Hx in Hq'. injection Hq' as <-. apply Qle_refl.
        -- cbn. rewrite lookup_insert_eq. f_equal.
           by apply utilizationOf_full.
        -- cbn. intros id u.
           destruct (decide (id = node_id x)) as [->|Hne].
           ++ rewrite lookup_insert_eq. intros [= <-]. right. exists 100%Z.
              split; [by apply utilizationOf_full | lia].
           ++ rewrite lookup_insert_ne by done. apply Hu.
      * apply num_gtb_Fin_false in Hgrow. right.
        exists M, l1, b, (l2 ++ [x]).
        split; [done|]. split; [by rewrite <- app_assoc|].
        split; [done|]. split; [done|]. split; [done|].
        split; [done|]. split; [|split].
        -- intros node q' [Hnode| ->]%elem_of_snoc_inv Hq'.
           ++ by apply (Hle node).
           ++ rewrite Hx in Hq'. by injection Hq' as <-.
        -- cbn. destruct (decide (node_id b = node_id x)) as [Heq|Hne].
           ++ rewrite Heq, lookup_insert_eq. f_equal.
              rewrite (analysed_id env b x Heq), Hx in Hab.
              injection Hab as ->. by apply utilizationOf_full.
           ++ by rewrite lookup_insert_ne.
        -- cbn. intros id u.
           destruct (decide (id = node_id x)) as [->|Hne].
           ++ rewrite lookup_insert_eq. intros [= <-]. right.
              by apply utilizationOf_range.
           ++ rewrite lookup_insert_ne by done. apply Hu.
  - destruct IH as [(Hmax & Hb & Hall & Hu)
                   |(M & l1 & b & l2 & HM & -> & Hmax & Hb & Hab & Hlt & Hle
                     & H100 & Hu)].
    + left. split; [done|]. split; [done|]. split; [|done].
      intros node q' [Hnode| ->]%elem_of_snoc_inv Hq'.
      * by apply (Hall node).
      * by rewrite Hx in Hq'.
    + right. exists M, l1, b, (l2 ++ [x]).
      split; [done|]. split; [by rewrite <- app_assoc|].
      split; [done|]. split; [done|]. split; [done|].
      split; [done|]. split; [|done].
      intros node q' [Hnode| ->]%elem_of_snoc_inv Hq'.
      * by apply (Hle node).
      * by rewrite Hx in Hq'.
Qed.

Lemma num_or_of_Z (z : Z) :
  num_or (Some (num_of_Z z)) (num_of_Z 0) = num_of_Z z.
Proof.
  unfold num_or, num_truthy, num_of_Z.
  destruct (Qeq_bool (inject_Z z) 0) eqn:Hz; [|done]. simpl.
  apply Qeq_bool_iff in Hz.
  by apply (proj1 (inject_Z_injective z 0)) in Hz as ->.
Qed.

Lemma analyzeOn_lookup_ne env l l2 id :
  (∀ x, x ∈ l2 → node_id x ≠ id) →
  nodeUtilizations (analyzeOn env (l ++ l2)) !! id
  = nodeUtilizations (analyzeOn env l) !! id.
Proof.
  induction l2 as [|x l2 IH] using rev_ind; intros Hne.
  { by rewrite app_nil_r. }
  rewrite app_assoc, analyzeOn_snoc, analyzeNode_analysed.
  assert (node_id x ≠ id) as Hx by (apply Hne; set_solver).
  rewrite <- IH by (intros y Hy; apply Hne; set_solver).
  destruct (analysed env x); [|done]. cbn. by rewrite lookup_insert_ne.
Qed.

(** X18.  When the timing of the connected nodes is within the bounds of
    the data model, the completion pass picks as the bottleneck the first
    node, in node order, whose adjusted cycle time is the largest of all
    the nodes it reads: that time is positive, every earlier node stays
    strictly below it and no node exceeds it.  When no node it reads has a
    positive adjusted cycle time, the bottleneck stays the first start
    node. *)
Theorem bottleneck_is_first_maximum env :
  connectedTiming env →
  (maxCycleTime (analyze env) = num_of_Z 0
   ∧ bottleneckId (analyze env) = head (startNodeIds env)
   ∧ ∀ node q, node ∈ env_nodes env → analysed env node = Some (Fin q) →
               (q == 0)%Q)
  ∨ (∃ M l1 b l2,
       (0 < M)%Q ∧ env_nodes env = l1 ++ b :: l2
       ∧ maxCycleTime (analyze env) = Fin M
       ∧ bottleneckId (analyze env) = Some (node_id b)
       ∧ analysed env b = Some (Fin M)
       ∧ (∀ node q, node ∈ l1 → analysed env node = Some (Fin q) →
                    (q < M)%Q)
       ∧ (∀ node q, node ∈ env_nodes env →
                    analysed env node = Some (Fin q) → (q <= M)%Q)).
Proof.
  intros Htiming. rewrite analyze_analyzeOn.
  destruct (analyzeOn_state env (env_nodes env) Htiming)
    as [(Hmax & Hb & Hall & _)
       |(M & l1 & b & l2 & HM & Hl & Hmax & Hb & Hab & Hlt & Hle & _)].
  - left. done.
  - right. exists M, l1, b, l2. done.
Qed.

Lemma bottleneck_is_first_maximum_witness :
  (maxCycleTime (analyze forkEnv) = num_of_Z 0
   ∧ bottleneckId (analyze forkEnv) = head (startNodeIds forkEnv)
   ∧ ∀ node q, node ∈ env_nodes forkEnv →
               analysed forkEnv node = Some (Fin q) → (q == 0)%Q)
  ∨ (∃ M l1 b l2,
       (0 < M)%Q ∧ env_nodes forkEnv = l1 ++ b :: l2
       ∧ maxCycleTime (analyze forkEnv) = Fin M
       ∧ bottleneckId (analyze forkEnv) = Some (node_id b)
       ∧ analysed forkEnv b = Some (Fin M)
       ∧ (∀ node q, node ∈ l1 → analysed forkEnv node = Some (Fin q) →
                    (q < M)%Q)
       ∧ (∀ node q, node ∈ env_nodes forkEnv →
                    analysed forkEnv node = Some (Fin q) → (q <= M)%Q)).
Proof.
  apply (bottleneck_is_first_maximum forkEnv).
  intros id d _. apply fork_timing.
Defined.

(** X19.  When the timing of the connected nodes is within the bounds of
    the data model, the utilization the completion pass writes on a node
    is an integer from 0 to 100, never NaN or undefined.  It is 100 on
    the node flagged as the bottleneck as soon as some node read by the
    pass has a positive adjusted cycle time, and it is 0 on every node
    when none has. *)
Theorem reported_utilization env node0 :
  connectedTiming env →
  ∃ d z,
    node_data (completeNode env (analyze env) node0) = Some d
    ∧ utilization d = Some (num_of_Z z) ∧ (0 <= z <= 100)%Z
    ∧ (bottleneck d = Some true →
       maxCycleTime (analyze env) ≠ num_of_Z 0 → z = 100%Z)
    ∧ (maxCycleTime (analyze env) = num_of_Z 0 → z = 0%Z).
Proof.
  intros Htiming. rewrite analyze_analyzeOn.
  pose proof (analyzeOn_state env (env_nodes env) Htiming) as Hstate.
  unfold completeNode. cbn [node_data utilization bottleneck].
  set (a := analyzeOn env (env_nodes env)) in *.
  destruct (bool_decide (node_id node0 ∈ connectedNodes env)).
  2:{ eexists _, 0%Z. split; [reflexivity|]. cbn [utilization bottleneck].
      split; [done|]. split; [lia|]. split; done. }
  cbn [andb].
  destruct Hstate as [(Hmax & Hb & Hall & Hu)
                     |(M & l1 & b & l2 & HM & Hl & Hmax & Hb & Hab & Hlt
                       & Hle & H100 & Hu)].
  - eexists _, 0%Z. split; [reflexivity|]. cbn [utilization bottleneck]. split.
    { destruct (nodeUtilizations a !! node_id node0) as [u|] eqn:Hlook;
        [|done]. by rewrite (Hu _ _ Hlook). }
    split; [lia|]. split; [|done]. by intros _ [].
  - assert (maxCycleTime a ≠ num_of_Z 0) as Hne.
    { rewrite Hmax. intros [= ->]. by apply Qlt_irrefl in HM. }
    destruct (decide (Some (node_id node0) = bottleneckId a)) as [Hid|Hid].
    + rewrite Hb in Hid. injection Hid as Hid. rewrite Hid, H100.
      eexists _, 100%Z. split; [reflexivity|]. cbn [utilization bottleneck].
      split; [by rewrite num_or_of_Z|]. split; [lia|]. split; done.
    + destruct (nodeUtilizations a !! node_id node0) as [u|] eqn:Hlook.
      * destruct (Hu _ _ Hlook) as [->|(z & -> & Hz)].
        -- eexists _, 0%Z. split; [reflexivity|]. cbn [utilization bottleneck].
           split; [done|]. split; [lia|]. split; [|done].
           rewrite bool_decide_eq_false_2 by done. done.
        -- eexists _, z. split; [reflexivity|]. cbn [utilization bottleneck].
           split; [by rewrite num_or_of_Z|]. split; [done|]. split; [|done].
           rewrite bool_decide_eq_false_2 by done. done.
      * eexists _, 0%Z. split; [reflexivity|]. cbn [utilization bottleneck].
        split; [done|]. split; [lia|]. split; [|done].
        rewrite bool_decide_eq_false_2 by done. done.
Qed.

Lemma reported_utilization_witness :
  ∃ d z,
    node_data (completeNode forkEnv (analyze forkEnv)
                 (equipment "B" 5 1 None)) = Some d
    ∧ utilization d = Some (num_of_Z z) ∧ (0 <= z <= 100)%Z.
Proof.
  destruct (reported_utilization forkEnv (equipment "B" 5 1 None)
              (fun id d _ H => fork_timing id d H))
    as (d & z & Hd & Hu & Hz & _).
  exists d, z. split; [exact Hd|]. split; [exact Hu | exact Hz].
Defined.

(** X20.  Utilization is measured against the running maximum, not the
    final one.  With node ids that are pairwise distinct, every node whose
    adjusted cycle time is positive and exceeds that of all the nodes
    before it in node order is reported with the utilization 100, whether
    it ends up as the bottleneck or not. *)
Theorem running_maximum_is_fully_utilized env l1 n l2 (q : Q) :
  connectedTiming env →
  NoDup (map node_id (env_nodes env)) →
  env_nodes env = l1 ++ n :: l2 →
  analysed env n = Some (Fin q) → (0 < q)%Q →
  (∀ node q', node ∈ l1 → analysed env node = Some (Fin q') → (q' < q)%Q) →
  ∃ d, node_data (completeNode env (analyze env) n) = Some d
       ∧ utilization d = Some (num_of_Z 100).
Proof.
  intros Htiming Hnodup Hl Hn Hq Hbelow.
  assert (nodeUtilizations (analyze env) !! node_id n = Some (num_of_Z 100))
    as Hlook.
  { rewrite analyze_analyzeOn, Hl.
    change (l1 ++ n :: l2) with (l1 ++ [n] ++ l2). rewrite app_assoc.
    rewrite analyzeOn_lookup_ne.
    2:{ intros x Hx Heq. rewrite Hl, map_app in Hnodup.
        apply NoDup_app in Hnodup as (_ & _ & Hnodup). simpl in Hnodup.
        apply NoDup_cons in Hnodup as [Hnotin _]. apply Hnotin.
        rewrite <- Heq. apply list_elem_of_In, in_map, list_elem_of_In, Hx. }
    rewrite analyzeOn_snoc, analyzeNode_analysed, Hn. cbn zeta.
    assert (num_gtb (Fin q) (maxCycleTime (analyzeOn env l1)) = true) as ->.
    { destruct (analyzeOn_state env l1 Htiming)
        as [(-> & _)|(M & l1' & b & l2' & _ & -> & -> & _ & Hab & _)].
      - by apply num_gtb_Fin.
      - apply num_gtb_Fin. apply (Hbelow b); [set_solver|done]. }
    cbn. rewrite lookup_insert_eq. f_equal. by apply utilizationOf_full. }
  unfold completeNode. cbn [node_data utilization].
  eexists. split; [reflexivity|]. cbn. f_equal.
  assert (bool_decide (node_id n ∈ connectedNodes env) = true) as ->.
  { unfold analysed in Hn. by destruct (bool_decide _). }
  by rewrite Hlook, num_or_of_Z.
Qed.

Lemma running_maximum_is_fully_utilized_witness :
  ∃ d, node_data (completeNode forkEnv (analyze forkEnv)
                    (equipment "A" 1 1 None)) = Some d
       ∧ utilization d = Some (num_of_Z 100).
Proof.
  apply (running_maximum_is_fully_utilized forkEnv []
           (equipment "A" 1 1 None)
           [equipment "B" 5 1 None; equipment "C" 5 1 None] 1).
  - intros id d _. apply fork_timing.
  - apply (bool_decide_eq_true_1 (NoDup ["A"; "B"; "C"])). reflexivity.
  - reflexivity.
  - reflexivity.
  - reflexivity.
  - intros node q' Hnode. by apply elem_of_nil in Hnode.
Defined.

(** X21.  Within the bounds of the data model (a cycle time that is not
    negative, a capacity of at least 1) the adjusted cycle time of the
    completion pass, which divides by the capacity only when it exceeds 1,
    has the value of the effective cycle time the ticks advance with,
    which always divides by the capacity. *)
Theorem adjusted_matches_effective d :
  nonNegTiming d →
  ∃ q q', adjustedCycleTime d = Fin q ∧ effectiveCycleTime d = Fin q'
          ∧ (q == q')%Q.
Proof.
  intros [Hc Hm]. unfold adjustedCycleTime, effectiveCycleTime. cbn zeta.
  destruct (num_or_cycleTime _ Hc) as (c & -> & Hc' & _).
  destruct (num_or_capacity _ Hm) as (m & -> & Hm').
  assert (0 < m)%Q as Hpos by (eapply Qlt_le_trans; [|exact Hm']; reflexivity).
  rewrite num_div_pos by done. unfold num_of_Z.
  destruct (num_gtb (Fin m) (Fin (inject_Z 1))) eqn:Hgt.
  - by exists (c / m)%Q, (c / m)%Q.
  - apply num_gtb_Fin_false in Hgt. exists c, (c / m)%Q.
    split; [done|]. split; [done|].
    assert (m == 1)%Q as -> by (apply Qle_antisym; done).
    unfold Qdiv. change (/ 1)%Q with 1%Q. by rewrite Qmult_1_r.
Qed.

Lemma adjusted_matches_effective_witness :
  ∃ q q', adjustedCycleTime (equipmentData 10 2) = Fin q
          ∧ effectiveCycleTime (equipmentData 10 2) = Fin q'
          ∧ (q == q')%Q.
Proof.
  apply (adjusted_matches_effective (equipmentData 10 2)).
  apply positiveTiming_nonNeg, equipmentData_positive; lia.
Defined.

(** * Stopping a run *)

(** X22.  Only the completion pass writes the bottleneck flag.  A frame
    that advances tokens keeps the flag of every node as it was, and so
    does stopping the run: the mark of a completed run stays on its node
    through the stop and through the frames of the next run, until that
    run completes. *)
Theorem bottleneck_mark_persists env speed cb st timestamp frameRef :
  activePaths st ≠ [] →
  map bottleneckMark (st_nodes (fst (animate env speed cb st timestamp)))
  = map bottleneckMark (st_nodes st)
  ∧ map bottleneckMark (st_nodes (fst (stopSimulation frameRef cb st)))
    = map bottleneckMark (st_nodes st).
Proof.
  intros Hpaths. split.
  - unfold animate. destruct (num_eqb _ _); [done|].
    destruct (activePaths st) as [|p paths]; [done|].
    cbn [fst st_nodes]. rewrite map_map. apply map_ext. intros n.
    unfold bottleneckMark, snapshotNode. cbn. by destruct (node_data n).
  - unfold stopSimulation. destruct frameRef; [|done].
    cbn [fst st_nodes]. rewrite map_map. apply map_ext. intros n.
    unfold bottleneckMark, stopNode. cbn. by destruct (node_data n).
Qed.

Lemma bottleneck_mark_persists_witness :
  map bottleneckMark
      (st_nodes (fst (animate forkEnv (num_of_Z 1) true
                        (initialState forkNodes forkEdges) (num_of_Z 16))))
  = map bottleneckMark forkNodes
  ∧ map bottleneckMark
        (st_nodes (fst (stopSimulation true true
                          (initialState forkNodes forkEdges))))
    = map bottleneckMark forkNodes.
Proof.
  apply (bottleneck_mark_persists forkEnv (num_of_Z 1) true
           (initialState forkNodes forkEdges) (num_of_Z 16) true).
  discriminate.
Defined.

(** * Editing an edge *)

Lemma edgeMap_default edges x :
  default [] (buildEdgeMap edges !! x)
  = map adjacencyEntry (outgoingEdges edges x).
Proof.
  rewrite buildEdgeMap_lookup. by destruct (outgoingEdges edges x).
Qed.

Lemma sameEnds_targets edges edges' x :
  Forall2 sameEnds edges edges' →
  map fst (default [] (buildEdgeMap edges' !! x))
  = map fst (default [] (buildEdgeMap edges !! x)).
Proof.
  rewrite !edgeMap_default. unfold outgoingEdges.
  induction 1 as [|e e' l l' [Hs Ht] _ IH]; [done|].
  simpl. rewrite <- Hs.
  destruct (bool_decide (source e = x)); [|exact IH]. simpl.
  by rewrite IH, Ht.
Qed.

Lemma sameEnds_all_targets edges edges' :
  Forall2 sameEnds edges edges' → map target edges' = map target edges.
Proof.
  induction 1 as [|e e' l l' [_ Ht] _ IH]; [done|].
  simpl. by rewrite Ht, IH.
Qed.

Lemma foldl_walk_ext (F F' : string → gset string → option (gset string))
    (l l' : list (string * num)) :
  (∀ y c, F' y c = F y c) → map fst l' = map fst l →
  ∀ init,
    foldl (fun acc edge => acc ≫= F' edge.1) init l'
    = foldl (fun acc edge => acc ≫= F edge.1) init l.
Proof.
  intros HF. revert l'.
  induction l as [|e l IH]; intros [|e' l'] Hfst init; try done.
  simpl in *. injection Hfst as He Hl. rewrite He.
  rewrite (IH l' Hl). f_equal. destruct init as [c|]; [|done].
  simpl. apply HF.
Qed.

Lemma findConnectedNodes_targets em em' gcm :
  (∀ x, map fst (default [] (em' !! x)) = map fst (default [] (em !! x))) →
  ∀ fuel nodeId c,
    findConnectedNodes fuel em' gcm nodeId c
    = findConnectedNodes fuel em gcm nodeId c.
Proof.
  intros Hem. induction fuel as [|fuel IH]; intros nodeId c; simpl.
  { done. }
  destruct (decide (nodeId ∈ c)); [done|].
  apply (foldl_walk_ext (findConnectedNodes fuel em gcm)
                        (findConnectedNodes fuel em' gcm)); [exact IH|].
  apply Hem.
Qed.

Lemma findAllConnected_targets em em' gcm fuel starts :
  (∀ x, map fst (default [] (em' !! x)) = map fst (default [] (em !! x))) →
  findAllConnected fuel em' gcm starts = findAllConnected fuel em gcm starts.
Proof.
  intros Hem. unfold findAllConnected. generalize (Some (∅ : gset string)).
  induction starts as [|s starts IH]; intros init; [done|].
  simpl. rewrite IH. f_equal. destruct init as [c|]; [|done].
  simpl. by apply findConnectedNodes_targets.
Qed.

Lemma computeStartNodeIds_targets nodes edges edges' :
  Forall2 sameEnds edges edges' →
  computeStartNodeIds nodes edges' (buildEdgeMap edges')
  = computeStartNodeIds nodes edges (buildEdgeMap edges).
Proof.
  intros Hends. unfold computeStartNodeIds.
  rewrite (sameEnds_all_targets edges edges' Hends). f_equal.
  apply filter_ext. intros n. f_equal.
  pose proof (sameEnds_targets edges edges' (node_id n) Hends) as Hx.
  apply (f_equal length) in Hx. rewrite !length_map in Hx.
  destruct (buildEdgeMap edges' !! node_id n) as [l'|] eqn:Hl',
           (buildEdgeMap edges !! node_id n) as [l|] eqn:Hl;
    simpl in Hx.
  - by rewrite Hx.
  - by rewrite Hx.
  - by rewrite <- Hx.
  - done.
Qed.

Lemma same_entry nodes edges edges' :
  Forall2 sameEnds edges edges' →
  sameEntry (startPlayByPlaySimulation nodes edges)
            (startPlayByPlaySimulation nodes edges').
Proof.
  intros Hends. unfold startPlayByPlaySimulation. cbn zeta.
  rewrite (computeStartNodeIds_targets nodes edges edges' Hends).
  assert (walkFuel edges' = walkFuel edges) as ->
    by (unfold walkFuel; by rewrite <- (Forall2_length _ _ _ Hends)).
  rewrite (findAllConnected_targets (buildEdgeMap edges) (buildEdgeMap edges'))
    by (intros x; by apply sameEnds_targets).
  destruct (length _ =? 0)%nat; [done|].
  destruct (findAllConnected_total (buildEdgeMap edges)
              (buildGroupChildrenMap nodes)
              (list_to_set (map target edges))
              (buildEdgeMap_targets edges)
              (walkFuel edges)
              (computeStartNodeIds nodes edges (buildEdgeMap edges)))
    as [c ->].
  { unfold walkFuel. pose proof (size_targets_le edges). lia. }
  simpl. rewrite (computeStartNodeIds_targets nodes edges edges' Hends).
  repeat split. intros x. by apply sameEnds_targets.
Qed.

(** X24.  Editing the data of an edge never moves the entry points.
    After [handleEdgeUpdate], whatever the id and the data of the event,
    a start gives the same outcome as before as far as the topology goes:
    the same error, or the same groups, start nodes, connected set and
    initial tokens, and adjacency lists with the same targets in the same
    order; only transit times can differ. *)
Theorem edge_update_keeps_entry_points id data nodes edges :
  sameEntry (startPlayByPlaySimulation nodes edges)
            (startPlayByPlaySimulation nodes
               (handleEdgeUpdate id data edges)).
Proof.
  apply same_entry. unfold handleEdgeUpdate. apply Forall2_map_same.
  intros e. by destruct (bool_decide (edge_id e = id)).
Qed.

(** * The canvas handlers *)

Lemma releaseChildren_ids group nodes :
  map fn_id (releaseChildren group nodes) = map fn_id nodes.
Proof.
  unfold releaseChildren. rewrite map_map. apply map_ext. intros n.
  by destruct (bool_decide _).
Qed.

Lemma release_all_ids groups nodes :
  map fn_id (foldl (fun updatedNodes group =>
                      releaseChildren group updatedNodes) nodes groups)
  = map fn_id nodes.
Proof.
  revert nodes. induction groups as [|g groups IH]; intros nodes; [done|].
  simpl. by rewrite IH, releaseChildren_ids.
Qed.

Lemma filter_ids (f : string → bool) (nodes : list FlowNode) :
  map fn_id (List.filter (fun n => f (fn_id n)) nodes)
  = List.filter f (map fn_id nodes).
Proof.
  induction nodes as [|n nodes IH]; [done|].
  simpl. destruct (f (fn_id n)); simpl; by rewrite IH.
Qed.

Lemma onNodesDelete_ids nodesToDelete nodes :
  map fn_id (onNodesDelete_nodes nodesToDelete nodes)
  = List.filter (kept (map fn_id nodesToDelete)) (map fn_id nodes).
Proof.
  unfold onNodesDelete_nodes. cbn zeta.
  destruct (0 <? _)%nat; rewrite filter_ids; [|done].
  by rewrite release_all_ids.
Qed.

(** X25.  Deleting nodes leaves no dangling edge.  When every edge starts
    and ends at a node of the canvas, the same holds of the nodes and
    edges that [onNodesDelete] leaves; the ids it leaves are the ids that
    were there, without those of the deleted nodes, in the same order. *)
Theorem delete_leaves_no_dangling_edge nodesToDelete nodes edges :
  noDanglingEdge nodes edges →
  noDanglingEdge (onNodesDelete_nodes nodesToDelete nodes)
                 (onNodesDelete_edges nodesToDelete edges)
  ∧ map fn_id (onNodesDelete_nodes nodesToDelete nodes)
    = List.filter (fun id => negb (bool_decide (id ∈ map fn_id nodesToDelete)))
                  (map fn_id nodes).
Proof.
  intros Hwf. split; [|apply onNodesDelete_ids].
  intros e He. rewrite onNodesDelete_ids.
  unfold onNodesDelete_edges in He. cbn zeta in He.
  apply list_elem_of_In, filter_In in He as [He Hkept].
  apply list_elem_of_In in He.
  apply andb_prop in Hkept as [Hs Ht].
  destruct (Hwf e He) as [Hsrc Htgt].
  split; apply list_elem_of_In, filter_In; split;
    try (by apply list_elem_of_In); done.
Qed.

Lemma canvas_no_dangling_edge : noDanglingEdge canvasNodes groupEdges.
Proof.
  intros e He. unfold groupEdges in He.
  repeat (apply elem_of_cons in He as [->|He]);
    [..|by apply elem_of_nil in He];
    split; apply list_elem_of_In; cbn; auto 6.
Qed.

Lemma delete_leaves_no_dangling_edge_witness :
  noDanglingEdge
    (onNodesDelete_nodes [placed (subFlow "G") 300 100 None] canvasNodes)
    (onNodesDelete_edges [placed (subFlow "G") 300 100 None] groupEdges)
  ∧ map fn_id
        (onNodesDelete_nodes [placed (subFlow "G") 300 100 None] canvasNodes)
    = ["S"; "c"; "X"].
Proof.
  apply (delete_leaves_no_dangling_edge
           [placed (subFlow "G") 300 100 None] canvasNodes groupEdges).
  apply canvas_no_dangling_edge.
Defined.

Lemma releaseChildren_parent g g' nodes :
  (∀ n, n ∈ nodes → parentNode n ≠ Some (fn_id g)) →
  ∀ n, n ∈ releaseChildren g' nodes → parentNode n ≠ Some (fn_id g).
Proof.
  intros Hnodes n (n0 & -> & Hn0)%list_elem_of_fmap.
  destruct (bool_decide _); [done|]. by apply Hnodes.
Qed.

Lemma releaseChildren_released g nodes :
  ∀ n, n ∈ releaseChildren g nodes → parentNode n ≠ Some (fn_id g).
Proof.
  intros n (n0 & -> & Hn0)%list_elem_of_fmap.
  destruct (bool_decide (parentNode n0 = Some (fn_id g))) eqn:Hp; [done|].
  by apply bool_decide_eq_false_1 in Hp.
Qed.

Lemma release_all_parent g groups : ∀ nodes,
  (∀ n, n ∈ nodes → parentNode n ≠ Some (fn_id g)) →
  ∀ n, n ∈ foldl (fun updatedNodes group =>
                     releaseChildren group updatedNodes) nodes groups →
       parentNode n ≠ Some (fn_id g).
Proof.
  induction groups as [|g' groups IH]; intros nodes Hnodes; [done|].
  simpl. apply IH. by apply releaseChildren_parent.
Qed.

Lemma release_all_released g groups : ∀ nodes,
  g ∈ groups →
  ∀ n, n ∈ foldl (fun updatedNodes group =>
                     releaseChildren group updatedNodes) nodes groups →
       parentNode n ≠ Some (fn_id g).
Proof.
  induction groups as [|g' groups IH]; intros nodes Hg.
  { by apply elem_of_nil in Hg. }
  apply elem_of_cons in Hg as [->|Hg]; simpl.
  - apply release_all_parent, releaseChildren_released.
  - by apply IH.
Qed.

(** X26.  Deleting a sub-flow releases its children.  No node that
    [onNodesDelete] leaves has a deleted node of type group as its
    [parentNode]. *)
Theorem delete_releases_children nodesToDelete nodes n g :
  n ∈ onNodesDelete_nodes nodesToDelete nodes →
  g ∈ nodesToDelete → fn_type g = "group" →
  parentNode n ≠ Some (fn_id g).
Proof.
  unfold onNodesDelete_nodes. cbn zeta. intros Hn Hg Hty.
  assert (g ∈ List.filter (fun n => bool_decide (fn_type n = "group"))
                          nodesToDelete) as Hgroup.
  { apply list_elem_of_In, filter_In. split; [by apply list_elem_of_In|].
    by apply bool_decide_eq_true_2. }
  destruct (0 <? _)%nat eqn:Hlen.
  - apply list_elem_of_In, filter_In in Hn as [Hn _].
    apply list_elem_of_In in Hn.
    by apply (release_all_released g _ nodes Hgroup).
  - apply Nat.ltb_ge in Hlen.
    destruct (List.filter _ nodesToDelete); [|simpl in Hlen; lia].
    by apply elem_of_nil in Hgroup.
Qed.

Lemma delete_releases_children_witness :
  placed (equipment "c" 2 1 None) 325 145 None
  ∈ onNodesDelete_nodes [placed (subFlow "G") 300 100 None] canvasNodes
  ∧ parentNode (placed (equipment "c" 2 1 None) 325 145 None)
    ≠ Some (fn_id (placed (subFlow "G") 300 100 None)).
Proof.
  assert (placed (equipment "c" 2 1 None) 325 145 None
          ∈ onNodesDelete_nodes [placed (subFlow "G") 300 100 None]
                                canvasNodes) as Hin.
  { apply list_elem_of_In. vm_compute. auto. }
  split; [exact Hin|].
  apply (delete_releases_children [placed (subFlow "G") 300 100 None]
           canvasNodes _ (placed (subFlow "G") 300 100 None) Hin).
  - apply list_elem_of_singleton. reflexivity.
  - reflexivity.
Defined.














